(** * A shallow embedding of the hold'em hand engine ([poker_agent.py])

    The engine object of the Python program is a record [Engine]; its
    methods are state transformers over that record.  A method that can
    leave by a Python exception ([KeyError] of [find_player_index],
    [IndexError] of [list.pop(0)] on an exhausted deck, ...) returns an
    [outcome], and the state reached at the moment of the exception is
    kept, as Python keeps it.

    Seats are the positions of the list [players]; a Python reference to a
    [PlayerState] object is modelled by its position in that list, and an
    in-place update of the object by an update of the list at that
    position.

    The two collaborators that live outside the repository are section
    variables: the hand evaluator of [treys] and the permutation performed
    by [random.Random(seed).shuffle]. *)

From Stdlib Require Import ZArith Lia Bool.
From stdpp Require Import base list strings.

Local Open Scope Z_scope.

(** ** Data model *)

Inductive Phase : Type :=
| PRE_FLOP | FLOP | TURN | RIVER | SHOWDOWN | COMPLETED.

Definition Phase_value (ph : Phase) : string :=
  match ph with
  | PRE_FLOP => "preflop"
  | FLOP => "flop"
  | TURN => "turn"
  | RIVER => "river"
  | SHOWDOWN => "showdown"
  | COMPLETED => "completed"
  end.

Definition Phase_eqb (a b : Phase) : bool :=
  match a, b with
  | PRE_FLOP, PRE_FLOP | FLOP, FLOP | TURN, TURN
  | RIVER, RIVER | SHOWDOWN, SHOWDOWN | COMPLETED, COMPLETED => true
  | _, _ => false
  end.

Record PlayerState : Type := mkPlayerState {
  player_id : string;
  stack : Z;
  hole_cards : list string;
  committed : Z;
  is_folded : bool;
  is_all_in : bool;
  seat : nat
}.

Record Action : Type := mkAction {
  act_player_id : string;
  act_action : string;
  act_amount : Z
}.

(** The two shapes of dictionary appended to [pot_history]. *)
Inductive PotRecord : Type :=
| PotWinner (winner : string) (amount : Z)
| PotSplit (winners : list string) (split remainder : Z).

Record Engine : Type := mkEngine {
  players : list PlayerState;
  phase : option Phase;
  button_index : nat;
  current_actor_index : nat;
  deck : list string;
  community_cards : list string;
  hand_id : string;
  pot_history : list PotRecord;
  actions : list Action;
  small_blind : Z;
  big_blind : Z;
  total_pot : Z;
  deck_seed : option string
}.

(** Field assignments. *)

Definition set_stack (v : Z) (p : PlayerState) : PlayerState :=
  mkPlayerState (player_id p) v (hole_cards p) (committed p)
                (is_folded p) (is_all_in p) (seat p).
Definition set_hole_cards (v : list string) (p : PlayerState) : PlayerState :=
  mkPlayerState (player_id p) (stack p) v (committed p)
                (is_folded p) (is_all_in p) (seat p).
Definition set_committed (v : Z) (p : PlayerState) : PlayerState :=
  mkPlayerState (player_id p) (stack p) (hole_cards p) v
                (is_folded p) (is_all_in p) (seat p).
Definition set_is_folded (v : bool) (p : PlayerState) : PlayerState :=
  mkPlayerState (player_id p) (stack p) (hole_cards p) (committed p)
                v (is_all_in p) (seat p).
Definition set_is_all_in (v : bool) (p : PlayerState) : PlayerState :=
  mkPlayerState (player_id p) (stack p) (hole_cards p) (committed p)
                (is_folded p) v (seat p).

Definition set_players (v : list PlayerState) (e : Engine) : Engine :=
  mkEngine v (phase e) (button_index e) (current_actor_index e) (deck e)
           (community_cards e) (hand_id e) (pot_history e) (actions e)
           (small_blind e) (big_blind e) (total_pot e) (deck_seed e).
Definition set_phase (v : option Phase) (e : Engine) : Engine :=
  mkEngine (players e) v (button_index e) (current_actor_index e) (deck e)
           (community_cards e) (hand_id e) (pot_history e) (actions e)
           (small_blind e) (big_blind e) (total_pot e) (deck_seed e).
Definition set_current_actor_index (v : nat) (e : Engine) : Engine :=
  mkEngine (players e) (phase e) (button_index e) v (deck e)
           (community_cards e) (hand_id e) (pot_history e) (actions e)
           (small_blind e) (big_blind e) (total_pot e) (deck_seed e).
Definition set_deck (v : list string) (e : Engine) : Engine :=
  mkEngine (players e) (phase e) (button_index e) (current_actor_index e) v
           (community_cards e) (hand_id e) (pot_history e) (actions e)
           (small_blind e) (big_blind e) (total_pot e) (deck_seed e).
Definition set_community_cards (v : list string) (e : Engine) : Engine :=
  mkEngine (players e) (phase e) (button_index e) (current_actor_index e)
           (deck e) v (hand_id e) (pot_history e) (actions e)
           (small_blind e) (big_blind e) (total_pot e) (deck_seed e).
Definition set_pot_history (v : list PotRecord) (e : Engine) : Engine :=
  mkEngine (players e) (phase e) (button_index e) (current_actor_index e)
           (deck e) (community_cards e) (hand_id e) v (actions e)
           (small_blind e) (big_blind e) (total_pot e) (deck_seed e).
Definition set_actions (v : list Action) (e : Engine) : Engine :=
  mkEngine (players e) (phase e) (button_index e) (current_actor_index e)
           (deck e) (community_cards e) (hand_id e) (pot_history e) v
           (small_blind e) (big_blind e) (total_pot e) (deck_seed e).
Definition set_total_pot (v : Z) (e : Engine) : Engine :=
  mkEngine (players e) (phase e) (button_index e) (current_actor_index e)
           (deck e) (community_cards e) (hand_id e) (pot_history e)
           (actions e) (small_blind e) (big_blind e) v (deck_seed e).
Definition set_deck_seed (v : option string) (e : Engine) : Engine :=
  mkEngine (players e) (phase e) (button_index e) (current_actor_index e)
           (deck e) (community_cards e) (hand_id e) (pot_history e)
           (actions e) (small_blind e) (big_blind e) (total_pot e) v.

(** ** Exceptions and the engine monad *)

(** The Python exceptions the engine can leave by.  [OutOfFuel] is not a
    Python exception: it marks a loop of the model that was cut by its
    fuel, and is shown below never to occur. *)
Inductive exn : Type :=
| KeyError (key : string)
| IndexError
| ValueError
| ZeroDivisionError
| AssertionError
| AttributeError
| OutOfFuel.

Inductive outcome (A : Type) : Type :=
| Ret (a : A)
| Raise (e : exn).
Arguments Ret {A} a.
Arguments Raise {A} e.

Definition obind {A B} (o : outcome A) (k : A -> outcome B) : outcome B :=
  match o with
  | Ret a => k a
  | Raise e => Raise e
  end.

(** A method of the engine: it returns or raises, and leaves a state. *)
Definition M (A : Type) : Type := Engine -> outcome A * Engine.

Definition ret {A} (a : A) : M A := fun st => (Ret a, st).
Definition raise {A} (e : exn) : M A := fun st => (Raise e, st).
Definition bind {A B} (m : M A) (k : A -> M B) : M B :=
  fun st =>
    match m st with
    | (Ret a, st') => k a st'
    | (Raise e, st') => (Raise e, st')
    end.
Definition get : M Engine := fun st => (Ret st, st).
Definition modify (f : Engine -> Engine) : M unit := fun st => (Ret tt, f st).
(** A read-only computation run on the current state. *)
Definition read {A} (f : Engine -> outcome A) : M A := fun st => (f st, st).

Declare Scope engine_scope.
Delimit Scope engine_scope with engine.
Notation "x <- m ;; k" := (bind m (fun x => k))
  (at level 100, m at next level, right associativity) : engine_scope.
Notation "m ;; k" := (bind m (fun _ => k))
  (at level 100, right associativity) : engine_scope.
Notation "x <-? o ;; k" := (obind o (fun x => k))
  (at level 100, o at next level, right associativity) : engine_scope.
Local Open Scope engine_scope.

(** [for x in l: body(x)] *)
Fixpoint for_each {A} (l : list A) (body : A -> M unit) : M unit :=
  match l with
  | [] => ret tt
  | x :: l' => body x ;; for_each l' body
  end.

(** [l[i]] *)
Definition index {A} (l : list A) (i : nat) : outcome A :=
  match l !! i with
  | Some x => Ret x
  | None => Raise IndexError
  end.

(** [max(...)] of a sequence of integers; [ValueError] when it is empty. *)
Definition py_max (l : list Z) : outcome Z :=
  match l with
  | [] => Raise ValueError
  | x :: l' => Ret (foldl Z.max x l')
  end.

(** [self.players[idx]] read, and an in-place update of that object. *)
Definition player_at (idx : nat) : M PlayerState :=
  read (fun st => index (players st) idx).
Definition update_player (idx : nat) (f : PlayerState -> PlayerState) : M unit :=
  modify (fun st => set_players (alter f idx (players st)) st).

(** [self.deck.pop(0)] *)
Definition pop_deck : M string :=
  fun st =>
    match deck st with
    | [] => (Raise IndexError, st)
    | c :: d => (Ret c, set_deck d st)
    end.

(** The test [not p.is_folded and not p.is_all_in]. *)
Definition can_act (p : PlayerState) : bool :=
  negb (is_folded p) && negb (is_all_in p).

(** ** The engine *)

Section Engine.

(** [evaluator.evaluate(board, hand)] of [treys], with the conversion
    [Card.new] of the card names folded in: lower is better.  It is taken
    as a total function of the cards, as the specification takes it. *)
Variable evaluate : list string -> list string -> Z.

(** [random.Random(seed).shuffle(deck)]: the ordering it leaves. *)
Variable rng_shuffle : string -> list string -> list string.

(** *** Construction *)

Definition default_stacks (n : nat) : list Z := replicate n 1000.

(** [PokerEngine.__init__]; [uuid] is the value drawn by [uuid.uuid4()].
    The [assert] on the number of seats leaves by [AssertionError], a
    stack list shorter than the list of identifiers by [IndexError]. *)
Definition new_engine (player_ids : list string) (starting_stacks : option (list Z))
    (sb bb : Z) (uuid : string) : outcome Engine :=
  if (length player_ids <? 2)%nat then Raise AssertionError
  else
    let stacks := match starting_stacks with
                  | None => default_stacks (length player_ids)
                  | Some l => l
                  end in
    ps <-? (fix build (ids : list string) (i : nat) : outcome (list PlayerState) :=
              match ids with
              | [] => Ret []
              | pid :: ids' =>
                  s <-? index stacks i ;;
                  rest <-? build ids' (S i) ;;
                  Ret (mkPlayerState pid s [] 0 false false i :: rest)
              end) player_ids 0%nat ;;
    Ret (mkEngine ps None 0 0 [] [] uuid [] [] sb bb 0 None).

(** *** Deck *)

Definition ranks : list Ascii.ascii := String.list_ascii_of_string "23456789TJQKA".
Definition suits : list Ascii.ascii := String.list_ascii_of_string "cdhs".

Definition standard_deck : list string :=
  flat_map (fun r => map (fun s => String r (String s EmptyString)) suits) ranks.

Definition shuffle_with_seed (seed : string) : list string :=
  rng_shuffle seed standard_deck.

(** *** Start of a hand *)

Definition post_blind (idx : nat) (amount : Z) (label : string) : M unit :=
  p <- player_at idx ;;
  let actual := Z.min (stack p) amount in
  update_player idx (fun q => set_stack (stack q - actual) q) ;;
  update_player idx (fun q => set_committed (committed q + actual) q) ;;
  modify (fun st => set_total_pot (total_pot st + actual) st) ;;
  modify (fun st => set_actions
            (actions st ++ [mkAction (player_id p) ("post_" +:+ label) actual]) st) ;;
  p' <- player_at idx ;;
  if stack p' =? 0 then update_player idx (set_is_all_in true) else ret tt.

(** One pass of the dealing loop: a card to each seat from [deal_start]. *)
Definition deal_pass (deal_start n : nat) : M unit :=
  for_each (seq 0 n) (fun i =>
    let s := ((deal_start + i) mod n)%nat in
    card <- pop_deck ;;
    _ <- player_at s ;;
    update_player s (fun q => set_hole_cards (hole_cards q ++ [card]) q)).

(** The first seat able to act among [(base + i) % n] for [i] in
    [offsets], in that order. *)
Fixpoint first_able (ps : list PlayerState) (base n : nat) (offsets : list nat)
    : outcome (option nat) :=
  match offsets with
  | [] => Ret None
  | i :: rest =>
      let idx := ((base + i) mod n)%nat in
      p <-? index ps idx ;;
      if can_act p then Ret (Some idx) else first_able ps base n rest
  end.

(** The assignments that open [start_hand]: the per-hand fields are
    cleared. *)
Definition reset_hand (seed : string) : M unit :=
  modify (set_deck_seed (Some seed)) ;;
  modify (set_deck (shuffle_with_seed seed)) ;;
  modify (set_community_cards []) ;;
  modify (set_total_pot 0) ;;
  modify (set_actions []) ;;
  modify (set_pot_history []) ;;
  modify (fun st => set_players
            (map (fun p => set_is_all_in false (set_is_folded false
                   (set_committed 0 (set_hole_cards [] p)))) (players st)) st).

(** The rest of [start_hand]: blinds, hole cards, first seat to act. *)
Definition open_hand (seed : string) : M (string * string) :=
  st <- get ;;
  let n := length (players st) in
  if (n =? 0)%nat then raise ZeroDivisionError else
  let sb := button_index st in
  let bb := ((button_index st + 1) mod n)%nat in
  post_blind sb (small_blind st) "sb" ;;
  post_blind bb (big_blind st) "bb" ;;
  let deal_start := ((button_index st + 1) mod n)%nat in
  for_each (seq 0 2) (fun _ => deal_pass deal_start n) ;;
  modify (set_phase (Some PRE_FLOP)) ;;
  modify (set_current_actor_index ((bb + 1) mod n)%nat) ;;
  st1 <- get ;;
  found <- read (fun s => first_able (players s) (current_actor_index st1) n (seq 0 n)) ;;
  match found with
  | Some idx => modify (set_current_actor_index idx)
  | None => ret tt
  end ;;
  st2 <- get ;;
  ret (hand_id st2, seed).

(** [start_hand]; [fresh_uuid] is the value [uuid.uuid4()] would draw when
    no seed (or an empty one) is given. *)
Definition start_hand (seed_arg : option string) (fresh_uuid : string)
    : M (string * string) :=
  let seed := match seed_arg with
              | Some s => if String.eqb s "" then fresh_uuid else s
              | None => fresh_uuid
              end in
  reset_hand seed ;;
  open_hand seed.

(** *** Helpers *)

Fixpoint find_from (pid : string) (ps : list PlayerState) (i : nat) : outcome nat :=
  match ps with
  | [] => Raise (KeyError pid)
  | p :: ps' => if String.eqb (player_id p) pid then Ret i else find_from pid ps' (S i)
  end.

Definition find_player_index (pid : string) (st : Engine) : outcome nat :=
  find_from pid (players st) 0.

(** *** The view of a seat *)

(** An entry of the ["players"] list of the view: a seat without its
    cards and its position. *)
Record PlayerView : Type := mkPlayerView {
  view_player_id : string;
  view_stack : Z;
  view_committed : Z;
  view_is_folded : bool;
  view_is_all_in : bool
}.

(** The dictionary [canonical_state_for] returns, key by key. *)
Record CanonicalState : Type := mkCanonicalState {
  cs_hand_id : string;
  cs_phase : option string;
  cs_community_cards : list string;
  cs_your_hole_cards : list string;
  cs_players : list PlayerView;
  cs_total_pot : Z;
  cs_to_act_player_id : option string;
  cs_deck_seed : option string
}.

Definition player_view (p : PlayerState) : PlayerView :=
  mkPlayerView (player_id p) (stack p) (committed p) (is_folded p) (is_all_in p).

(** [canonical_state_for]: the values of the dictionary are computed in
    the order of its keys, so an unknown identifier is met before the turn
    pointer is followed. *)
Definition canonical_state_for (pid : string) (st : Engine) : outcome CanonicalState :=
  idx <-? find_player_index pid st ;;
  p <-? index (players st) idx ;;
  to_act <-? match phase st with
             | None | Some COMPLETED => Ret None
             | Some _ =>
                 q <-? index (players st) (current_actor_index st) ;;
                 Ret (Some (player_id q))
             end ;;
  Ret (mkCanonicalState (hand_id st) (option_map Phase_value (phase st))
         (community_cards st) (hole_cards p) (map player_view (players st))
         (total_pot st) to_act (deck_seed st)).

(** *** Legal actions *)

Definition phase_is (ph : Phase) (st : Engine) : bool :=
  match phase st with
  | Some q => Phase_eqb q ph
  | None => false
  end.

Definition legal_actions (pid : string) (st : Engine) : outcome (list string) :=
  idx <-? find_player_index pid st ;;
  p <-? index (players st) idx ;;
  if is_folded p || is_all_in p || phase_is COMPLETED st then Ret []
  else
    highest <-? py_max (map committed (players st)) ;;
    let to_call := highest - committed p in
    if 0 <? to_call then
      Ret (["fold"]
           ++ (if to_call <=? stack p then ["call"] else [])
           ++ (if to_call <? stack p then ["raise"] else [])
           ++ (if 0 <? stack p then ["allin"] else []))
    else
      Ret (["check"] ++ (if 0 <? stack p then ["bet"; "allin"] else [])).

(** *** Turn rotation *)

Definition _advance_turn : M unit :=
  st <- get ;;
  let active_players := List.filter can_act (players st) in
  if (length active_players =? 0)%nat then ret tt
  else
    let n := length (players st) in
    found <- read (fun s => first_able (players s) (current_actor_index st) n (seq 1 n)) ;;
    match found with
    | Some idx => modify (set_current_actor_index idx)
    | None => ret tt
    end.

(** *** Betting round complete *)

(** The loop [for p in active: if p.committed != highest: return False]. *)
Fixpoint all_matched (highest : Z) (active : list PlayerState) : bool :=
  match active with
  | [] => true
  | p :: rest => if negb (committed p =? highest) then false else all_matched highest rest
  end.

Definition _is_betting_round_complete (st : Engine) : outcome bool :=
  let active := List.filter can_act (players st) in
  if (length active =? 0)%nat then Ret true
  else
    highest <-? py_max (map committed (players st)) ;;
    Ret (all_matched highest active).

(** *** Showdown *)

(** [enumerate(self.players)]: every object with its position. *)
Definition enumerate (ps : list PlayerState) : list (nat * PlayerState) :=
  zip (seq 0 (length ps)) ps.

(** [list.sort(key=lambda x: x[0])], a stable sort; the stable ordering of
    a list is unique, here it is produced by insertion. *)
Fixpoint insert_by_score {A} (x : Z * A) (l : list (Z * A)) : list (Z * A) :=
  match l with
  | [] => [x]
  | y :: l' => if fst x <=? fst y then x :: y :: l' else y :: insert_by_score x l'
  end.

Fixpoint sort_by_score {A} (l : list (Z * A)) : list (Z * A) :=
  match l with
  | [] => []
  | x :: l' => insert_by_score x (sort_by_score l')
  end.

Definition add_to_stack (idx : nat) (v : Z) : M unit :=
  update_player idx (fun q => set_stack (stack q + v) q).

Definition evaluate_and_distribute : M unit :=
  st <- get ;;
  let active := List.filter (fun ip => negb (is_folded (snd ip))) (enumerate (players st)) in
  match active with
  | [winner] =>
      add_to_stack (fst winner) (total_pot st) ;;
      modify (fun s => set_pot_history
                (pot_history s ++ [PotWinner (player_id (snd winner)) (total_pot s)]) s) ;;
      modify (set_total_pot 0)
  | _ =>
      let board := community_cards st in
      let scores := map (fun ip => (evaluate board (hole_cards (snd ip)), ip)) active in
      let scores := sort_by_score scores in
      match scores with
      | [] => raise IndexError
      | (best_score, _) :: _ =>
          let tied := map snd (List.filter (fun sp => fst sp =? best_score) scores) in
          let share := total_pot st / Z.of_nat (length tied) in
          let remainder := total_pot st mod Z.of_nat (length tied) in
          for_each tied (fun ip => add_to_stack (fst ip) share) ;;
          match tied with
          | [] => raise IndexError
          | first :: _ => add_to_stack (fst first) remainder
          end ;;
          modify (fun s => set_pot_history
                    (pot_history s ++ [PotSplit (map (fun ip => player_id (snd ip)) tied)
                                                share remainder]) s) ;;
          modify (set_total_pot 0)
      end
  end.

(** *** Streets *)

Definition _phase_order : list Phase :=
  [PRE_FLOP; FLOP; TURN; RIVER; SHOWDOWN; COMPLETED].

(** [self._phase_order.index(self.phase)] *)
Definition phase_index (ph : option Phase) : outcome nat :=
  match ph with
  | None => Raise ValueError
  | Some q =>
      (fix find (l : list Phase) (i : nat) : outcome nat :=
         match l with
         | [] => Raise ValueError
         | x :: l' => if Phase_eqb x q then Ret i else find l' (S i)
         end) _phase_order 0%nat
  end.

Definition next_phase (st : Engine) : outcome Phase :=
  cur <-? phase_index (phase st) ;;
  index _phase_order (cur + 1).

(** [[self.deck.pop(0) for _ in range(k)]] *)
Fixpoint pop_cards (k : nat) : M (list string) :=
  match k with
  | O => ret []
  | S k' => c <- pop_deck ;; cs <- pop_cards k' ;; ret (c :: cs)
  end.

Definition deal_flop : M unit :=
  _ <- pop_deck ;;
  cards <- pop_cards 3 ;;
  modify (fun s => set_community_cards (community_cards s ++ cards) s).

Definition deal_one : M unit :=
  _ <- pop_deck ;;
  c <- pop_deck ;;
  modify (fun s => set_community_cards (community_cards s ++ [c]) s).

(** The [while] loop of [_advance_phase].  Every turn moves [phase] one
    place along [_phase_order], so the loop is bounded by its length. *)
Fixpoint fast_forward (fuel : nat) : M unit :=
  st <- get ;;
  if phase_is SHOWDOWN st || phase_is COMPLETED st then ret tt
  else
    match fuel with
    | O => raise OutOfFuel
    | S fuel' =>
        nxt <- read next_phase ;;
        modify (set_phase (Some nxt)) ;;
        match nxt with
        | TURN => deal_one ;; fast_forward fuel'
        | RIVER => deal_one ;; fast_forward fuel'
        | SHOWDOWN =>
            evaluate_and_distribute ;;
            modify (set_phase (Some COMPLETED))
        | _ => fast_forward fuel'
        end
    end.

Definition _advance_phase : M unit :=
  nxt <- read next_phase ;;
  modify (set_phase (Some nxt)) ;;
  match nxt with
  | SHOWDOWN =>
      evaluate_and_distribute ;;
      modify (set_phase (Some COMPLETED))
  | _ =>
      match nxt with
      | FLOP => deal_flop
      | TURN => deal_one
      | RIVER => deal_one
      | _ => ret tt
      end ;;
      st <- get ;;
      let active := List.filter can_act (players st) in
      if (length active =? 0)%nat then fast_forward (length _phase_order)
      else ret tt
  end.

(** *** Applying an action *)

Inductive Response : Type :=
| RespError (error : string)
| RespOk (phase_value : string) (pot : Z).

(** [repr] of a list of action names, as the f-string prints it. *)
Definition repr_list (l : list string) : string :=
  "[" +:+ String.concat ", " (map (fun a => "'" +:+ a +:+ "'") l) +:+ "]".

(** The statements shared by the [call], [bet] and [raise] branches. *)
Definition pay_in (idx : nat) (pay : Z) : M unit :=
  update_player idx (fun q => set_stack (stack q - pay) q) ;;
  update_player idx (fun q => set_committed (committed q + pay) q) ;;
  modify (fun s => set_total_pot (total_pot s + pay) s) ;;
  p' <- player_at idx ;;
  if stack p' =? 0 then update_player idx (set_is_all_in true) else ret tt.

Definition log_action (pid action : string) (amount : Z) : M unit :=
  modify (fun s => set_actions (actions s ++ [mkAction pid action amount]) s).

(** The [if]/[elif] chain on the action name: [Some r] is an early
    [return r], [None] falls through to the code after the chain. *)
Definition ledger_step (idx : nat) (p : PlayerState) (pid action : string)
    (amount to_call : Z) : M (option Response) :=
  if String.eqb action "fold" then
    update_player idx (set_is_folded true) ;;
    log_action pid action 0 ;;
    ret None
  else if String.eqb action "call" then
    let pay := Z.min (stack p) to_call in
    pay_in idx pay ;;
    log_action pid action pay ;;
    ret None
  else if String.eqb action "check" then
    log_action pid action 0 ;;
    ret None
  else if String.eqb action "bet" then
    if (amount <=? 0) || (stack p <? amount) then
      ret (Some (RespError "Invalid bet amount"))
    else
      pay_in idx amount ;;
      log_action pid "bet" amount ;;
      ret None
  else if String.eqb action "raise" then
    if (amount <=? 0) || (stack p <? amount) then
      ret (Some (RespError "Invalid raise amount"))
    else
      let pay := Z.min (stack p) (to_call + amount) in
      pay_in idx pay ;;
      log_action pid "raise" pay ;;
      ret None
  else if String.eqb action "allin" then
    let pay := stack p in
    update_player idx (set_stack 0) ;;
    update_player idx (fun q => set_committed (committed q + pay) q) ;;
    modify (fun s => set_total_pot (total_pot s + pay) s) ;;
    update_player idx (set_is_all_in true) ;;
    log_action pid "allin" pay ;;
    ret None
  else ret None.

(** The code of [apply_action] after the chain. *)
Definition finish_action : M Response :=
  _advance_turn ;;
  complete <- read _is_betting_round_complete ;;
  (if complete : bool then _advance_phase else ret tt) ;;
  st <- get ;;
  match phase st with
  | None => raise AttributeError
  | Some ph => ret (RespOk (Phase_value ph) (total_pot st))
  end.

Definition apply_action (pid action : string) (amount : Z) : M Response :=
  st <- get ;;
  match phase st with
  | None | Some COMPLETED => ret (RespError "No active hand")
  | Some _ =>
      idx <- read (find_player_index pid) ;;
      p <- player_at idx ;;
      if is_folded p || is_all_in p then ret (RespError "Player cannot act")
      else
        legal <- read (legal_actions pid) ;;
        if negb (existsb (String.eqb action) legal) then
          ret (RespError ("Illegal action: " +:+ action +:+ ". Allowed: "
                            +:+ repr_list legal))
        else
          highest <- read (fun s => py_max (map committed (players s))) ;;
          let to_call := highest - committed p in
          early <- ledger_step idx p pid action amount to_call ;;
          match early with
          | Some r => ret r
          | None => finish_action
          end
  end.

End Engine.

(** ** The agent's fallback ([agent_llm.py]) *)

(** The [except] branch of [AgentLLM.decide]: the decision returned when
    the answer of the language model cannot be read. *)
Definition fallback_decision (legal : list string) : string * Z :=
  (if existsb (String.eqb "check") legal then "check" else "fold", 0).

(** * Vocabulary of the properties *)

(** [m] is the greatest element of [l]. *)
Definition is_maximum (m : Z) (l : list Z) : Prop :=
  In m l /\ forall x, In x l -> x <= m.

Definition sumZ (l : list Z) : Z := foldr Z.add 0 l.

Definition sum_stack (st : Engine) : Z := sumZ (map stack (players st)).
Definition sum_committed (st : Engine) : Z := sumZ (map committed (players st)).

(** The chips on the table: in front of the seats and in the pot. *)
Definition bank (st : Engine) : Z := sum_stack st + total_pot st.

(** No seat owes chips, the pot is not in debt and the blinds are not
    negative. *)
Definition solvent (st : Engine) : Prop :=
  Forall (fun p => 0 <= stack p) (players st) /\ 0 <= total_pot st /\
  0 <= small_blind st /\ 0 <= big_blind st.

(** A seat with its stack masked: every field but [stack]. *)
Definition strip (p : PlayerState) : PlayerState := set_stack 0 p.

(** A method keeps a relation between the state it is entered in and the
    state it leaves, however it leaves. *)
Definition preserves (R : Engine -> Engine -> Prop) {A} (m : M A) : Prop :=
  forall st, R st (snd (m st)).

(** The seat [p] after [pay] chips left its stack for the pot. *)
Definition paid_seat (p : PlayerState) (pay : Z) : PlayerState :=
  let q := set_committed (committed p + pay) (set_stack (stack p - pay) p) in
  if stack q =? 0 then set_is_all_in true q else q.

(** The engine after seat [idx] has become [q] and [pay] chips have
    entered the pot. *)
Definition moved (idx : nat) (q : PlayerState) (pay : Z) (st : Engine) : Engine :=
  set_total_pot (total_pot st + pay) (set_players (<[idx := q]> (players st)) st).

(** The same, with the action written to the log. *)
Definition booked (idx : nat) (q : PlayerState) (pay : Z) (rec : Action)
    (st : Engine) : Engine :=
  set_actions (actions st ++ [rec]) (moved idx q pay st).

(** The action names the engine knows. *)
Definition action_names : list string :=
  ["fold"; "call"; "check"; "bet"; "raise"; "allin"].

(** [v] chips added to the stack of seat [i]. *)
Definition credit (i : nat) (v : Z) (ps : list PlayerState) : list PlayerState :=
  alter (fun q => set_stack (stack q + v) q) i ps.

(** The seats still in the hand, each with its position. *)
Definition unfolded (st : Engine) : list (nat * PlayerState) :=
  List.filter (fun ip => negb (is_folded (snd ip))) (enumerate (players st)).

(** What a method may do to the ledger once the bets are made: the chips
    on the table stay the same, nobody goes into debt, nothing but stacks
    changes in the seats, and the log is left alone. *)
Record settles (st st' : Engine) : Prop := mkSettles {
  settles_bank : bank st' = bank st;
  settles_solvent : solvent st -> solvent st';
  settles_seats : map strip (players st') = map strip (players st);
  settles_actions : actions st' = actions st
}.

(** [v] chips added to the stack of each of the seats [ws], in turn. *)
Definition share_out (v : Z) (ps : list PlayerState) (ws : list (nat * PlayerState))
    : list PlayerState :=
  foldl (fun ps ip => credit (fst ip) v ps) ps ws.

(** The unfolded seats with their scores, best first, as the showdown
    orders them. *)
Definition scored (evaluate : list string -> list string -> Z) (st : Engine)
    : list (Z * (nat * PlayerState)) :=
  sort_by_score
    (map (fun ip => (evaluate (community_cards st) (hole_cards (snd ip)), ip))
         (unfolded st)).

(** The seats that share the first score of [scored]. *)
Definition tied (evaluate : list string -> list string -> Z) (st : Engine)
    : list (nat * PlayerState) :=
  match scored evaluate st with
  | [] => []
  | (best_score, _) :: _ =>
      map snd (List.filter (fun sp => fst sp =? best_score) (scored evaluate st))
  end.

(** The engine after the whole pot went to the one seat [w]. *)
Definition awarded (w : nat * PlayerState) (st : Engine) : Engine :=
  set_total_pot 0
    (set_pot_history (pot_history st ++ [PotWinner (player_id (snd w)) (total_pot st)])
       (set_players (credit (fst w) (total_pot st) (players st)) st)).

(** The engine after the pot was split among [ws], the remainder going to
    the first of them. *)
Definition split_among (ws : list (nat * PlayerState)) (st : Engine) : Engine :=
  let share := total_pot st / Z.of_nat (length ws) in
  let remainder := total_pot st mod Z.of_nat (length ws) in
  let shared := share_out share (players st) ws in
  set_total_pot 0
    (set_pot_history
       (pot_history st ++ [PotSplit (map (fun ip => player_id (snd ip)) ws) share remainder])
       (set_players
          (match ws with
           | [] => shared
           | first :: _ => credit (fst first) remainder shared
           end) st)).

(** The code of [apply_action] after its admission tests. *)
Definition perform (evaluate : list string -> list string -> Z) (idx : nat)
    (p : PlayerState) (pid action : string) (amount to_call : Z) : M Response :=
  early <- ledger_step idx p pid action amount to_call ;;
  match early with
  | Some r => ret r
  | None => finish_action evaluate
  end.

(** ** A table to run the engine on *)

(** An evaluator under which every hand ties, and a shuffle that leaves
    the deck in its factory order. *)
Definition level_evaluate : list string -> list string -> Z := fun _ _ => 0.
Definition no_shuffle : string -> list string -> list string := fun _ d => d.

(** Two seats of 1000 chips, blinds 5 and 10, as [__init__] builds them. *)
Definition table2 : Engine :=
  mkEngine [mkPlayerState "A" 1000 [] 0 false false 0;
            mkPlayerState "B" 1000 [] 0 false false 1]
           None 0 0 [] [] "hand-1" [] [] 5 10 0 None.

(** The table after [start_hand("seed")]. *)
Definition table2_started : Engine :=
  Eval vm_compute in snd (start_hand no_shuffle (Some "seed") "uuid" table2).

(** ** Showdown, in the words of the rules *)

Definition score_of (evaluate : list string -> list string -> Z) (st : Engine)
    (p : PlayerState) : Z :=
  evaluate (community_cards st) (hole_cards p).

(** Seat [i] is a co-winner: it has not folded and no seat that has not
    folded holds a lower (better) score. *)
Definition co_winner (evaluate : list string -> list string -> Z) (st : Engine)
    (i : nat) : Prop :=
  exists p, players st !! i = Some p /\ is_folded p = false /\
    forall j q, players st !! j = Some q -> is_folded q = false ->
      score_of evaluate st p <= score_of evaluate st q.

Definition is_co_winner (evaluate : list string -> list string -> Z) (st : Engine)
    (i : nat) : bool :=
  match players st !! i with
  | Some p =>
      negb (is_folded p) &&
      forallb (fun q => is_folded q || (score_of evaluate st p <=? score_of evaluate st q))
              (players st)
  | None => false
  end.

(** The co-winners by increasing seat index. *)
Definition co_winners (evaluate : list string -> list string -> Z) (st : Engine)
    : list nat :=
  List.filter (is_co_winner evaluate st) (seq 0 (length (players st))).

(** The identifiers of the seats [ws]. *)
Definition seat_ids (st : Engine) (ws : list nat) : list string :=
  map (fun i => match players st !! i with
                | Some p => player_id p
                | None => ""
                end) ws.

(** What the tie rule pays seat [i]: the share if it is a co-winner, and
    the remainder on top if it is the first of them. *)
Definition payout (evaluate : list string -> list string -> Z) (st : Engine)
    (i : nat) : Z :=
  let ws := co_winners evaluate st in
  let k := Z.of_nat (length ws) in
  (if is_co_winner evaluate st i then total_pot st / k else 0)
  + match ws with
    | w0 :: _ => if (i =? w0)%nat then total_pot st mod k else 0
    | [] => 0
    end.

(** ** The streets, in the words of the rules *)

(** What a hand shows of its progress: phase, board and deck. *)
Definition board (st : Engine) : option Phase * list string * list string :=
  (phase st, community_cards st, deck st).

Definition with_board (ph : Phase) (cc dk : list string) (st : Engine) : Engine :=
  set_deck dk (set_community_cards cc (set_phase (Some ph) st)).

(** The rule of the streets: entering FLOP burns one card and reveals
    three, entering TURN or RIVER burns one and reveals one, and after
    RIVER comes the showdown. *)
Definition spec_enter (ph : Phase) (cc dk : list string)
    : option (Phase * list string * list string) :=
  match ph, dk with
  | PRE_FLOP, _ :: c1 :: c2 :: c3 :: d => Some (FLOP, cc ++ [c1; c2; c3], d)
  | FLOP, _ :: c :: d => Some (TURN, cc ++ [c], d)
  | TURN, _ :: c :: d => Some (RIVER, cc ++ [c], d)
  | RIVER, d => Some (SHOWDOWN, cc, d)
  | _, _ => None
  end.

Fixpoint spec_path (n : nat) (ph : Phase) (cc dk : list string)
    : option (Phase * list string * list string) :=
  match n with
  | O => Some (ph, cc, dk)
  | S n' =>
      match spec_enter ph cc dk with
      | Some (ph', cc', dk') => spec_path n' ph' cc' dk'
      | None => None
      end
  end.

(** The phases a hand waits for action in, with the number of phase
    changes that separate them from the showdown. *)
Definition streets_left (ph : Phase) : nat :=
  match ph with
  | PRE_FLOP => 4
  | FLOP => 3
  | TURN => 2
  | RIVER => 1
  | SHOWDOWN | COMPLETED => 0
  end.

Definition is_street (ph : Phase) : Prop := (0 < streets_left ph)%nat.

(** Street by street to the showdown, by the rule. *)
Definition spec_run_out (ph : Phase) (cc dk : list string)
    : option (Phase * list string * list string) :=
  spec_path (streets_left ph) ph cc dk.

(** The showdown as [_advance_phase] runs it. *)
Definition showdown (evaluate : list string -> list string -> Z) : M unit :=
  evaluate_and_distribute evaluate ;; modify (set_phase (Some COMPLETED)).

(** The step-by-step path: as long as a seat can act, every completed
    round changes the phase once, and the betting of the street that
    follows leaves phase, board and deck alone. *)
Inductive street_path (evaluate : list string -> list string -> Z)
    : Engine -> Engine -> Prop :=
| path_end (s : Engine) :
    phase s = Some COMPLETED -> street_path evaluate s s
| path_street (s s1 s2 s' : Engine) :
    (exists p, In p (players s) /\ is_folded p = false /\ is_all_in p = false) ->
    _advance_phase evaluate s = (Ret tt, s1) ->
    board s2 = board s1 ->
    street_path evaluate s2 s' ->
    street_path evaluate s s'.

(** ** Hands *)

(** The states of one hand: the state [start_hand] leaves when it returns,
    and every state reached from there by calls of [apply_action] that
    were answered [ok]. *)
Inductive hand_state (evaluate : list string -> list string -> Z)
    (rng_shuffle : string -> list string -> list string) (e0 : Engine)
    : Engine -> Prop :=
| hand_started (seed : option string) (uuid : string) (info : string * string)
    (e1 : Engine) :
    start_hand rng_shuffle seed uuid e0 = (Ret info, e1) ->
    hand_state evaluate rng_shuffle e0 e1
| hand_acted (e e' : Engine) (pid action : string) (amount : Z)
    (ph : string) (pot : Z) :
    hand_state evaluate rng_shuffle e0 e ->
    apply_action evaluate pid action amount e = (Ret (RespOk ph pot), e') ->
    hand_state evaluate rng_shuffle e0 e'.

(** The chips stay on the table and, granted [c], a solvent table stays
    solvent. *)
Definition keeps_given (c : Prop) (st st' : Engine) : Prop :=
  bank st' = bank st /\ (c -> solvent st -> solvent st').

(** The quantity of the first invariant of the specification. *)
Definition spec_quantity (st : Engine) : Z :=
  sum_stack st + sum_committed st + total_pot st.

(** A hand in play waits for action in one of the four streets, or is
    completed with its pot paid out. *)
Definition in_play (st : Engine) : Prop :=
  exists ph, phase st = Some ph /\
    (is_street ph \/ (ph = COMPLETED /\ total_pot st = 0)).

(** Phase and pot are left alone. *)
Definition same_phase_pot (st st' : Engine) : Prop :=
  phase st' = phase st /\ total_pot st' = total_pot st.

(** The seat at position [i], for tables whose seats are known. *)
Definition seat_at (i : nat) (st : Engine) : PlayerState :=
  nth i (players st) (mkPlayerState "" 0 [] 0 false false 0).

(** Seat A calls the big blind: the round is complete, the flop comes. *)
Definition table2_called : Engine :=
  Eval vm_compute in snd (apply_action level_evaluate "A" "call" 0 table2_started).

(** Instead, seat A goes all-in ... *)
Definition table2_shoved : Engine :=
  Eval vm_compute in snd (apply_action level_evaluate "A" "allin" 0 table2_started).

(** ... seat B has put its stack in as well, the turn and the streets
    still to come ... *)
Definition table2_both_in : Engine :=
  Eval vm_compute in
    snd (ledger_step 1 (seat_at 1 table2_shoved) "B" "allin" 0
           (1000 - committed (seat_at 1 table2_shoved)) table2_shoved).

(** ... and the call of [apply_action] that did it has returned. *)
Definition table2_run_out : Engine :=
  Eval vm_compute in snd (apply_action level_evaluate "B" "allin" 0 table2_shoved).

(** Three seats at a showdown over a pot of 100, none folded. *)
Definition table3 : Engine :=
  mkEngine [mkPlayerState "A" 0 ["2c"; "2d"] 40 false true 0;
            mkPlayerState "B" 10 ["2h"; "2s"] 30 false false 1;
            mkPlayerState "C" 20 ["3c"; "3d"] 30 false false 2]
           (Some SHOWDOWN) 0 1 [] ["4c"; "5d"; "6h"; "7s"; "9c"] "hand-3" [] []
           5 10 100 (Some "seed").

(** ** The fuel of the model is never what stops a method *)

Definition pythonic_value {A} (o : outcome A) : Prop := o <> Raise OutOfFuel.

Definition pythonic {A} (m : M A) : Prop :=
  forall st, pythonic_value (fst (m st)).

(** The turns the loop of [_advance_phase] can still take. *)
Definition turns_left (ph : option Phase) : nat :=
  match ph with
  | None => 1
  | Some ph => streets_left ph
  end.


(** ** More tables *)

(** Two seats that cannot cover their blinds: 5 chips for the small
    blind, 10 for the big one. *)
Definition table_broke : Engine :=
  mkEngine [mkPlayerState "A" 5 [] 0 false false 0;
            mkPlayerState "B" 10 [] 0 false false 1]
           None 0 0 [] [] "hand-2" [] [] 5 10 0 None.

(** That table after [start_hand("seed")]: both seats are all-in. *)
Definition table_broke_started : Engine :=
  Eval vm_compute in snd (start_hand no_shuffle (Some "seed") "uuid" table_broke).


(** The seat at position [i] exists and is neither folded nor all-in. *)
Definition seat_can_act (st : Engine) (i : nat) : bool :=
  match players st !! i with
  | Some p => can_act p
  | None => false
  end.

(** The pointer to the actor is left alone. *)
Definition same_actor (st st' : Engine) : Prop :=
  current_actor_index st' = current_actor_index st.

(** The table keeps its number of seats. *)
Definition same_seats (st st' : Engine) : Prop :=
  length (players st') = length (players st).


(** The chips the action log accounts for. *)
Definition sum_logged (st : Engine) : Z := sumZ (map act_amount (actions st)).

(** The books agree: the pot holds what the seats have committed, and the
    log accounts for it. *)
Definition balanced (st : Engine) : Prop :=
  total_pot st = sum_committed st /\ sum_logged st = sum_committed st.

Definition keeps_balance (st st' : Engine) : Prop := balanced st -> balanced st'.


(** ** Dealing *)

(** A seat after it has been handed the card [c]. *)
Definition give_card (c : string) (q : PlayerState) : PlayerState :=
  set_hole_cards (hole_cards q ++ [c]) q.

(** The seats after the cards [cards] went, one each and in this order,
    to the seats [(ds + a) % n], [(ds + a + 1) % n], ... *)
Fixpoint deal_cards (ds n a : nat) (cards : list string) (ps : list PlayerState)
    : list PlayerState :=
  match cards with
  | [] => ps
  | c :: cs => deal_cards ds n (S a) cs (alter (give_card c) ((ds + a) mod n)%nat ps)
  end.

(** The engine after a blind of [amount] was asked of seat [idx]. *)
Definition posted (idx : nat) (amount : Z) (label : string) (st : Engine) : Engine :=
  match players st !! idx with
  | Some p =>
      let actual := Z.min (stack p) amount in
      booked idx (paid_seat p actual) actual
        (mkAction (player_id p) ("post_" +:+ label) actual) st
  | None => st
  end.


(** The seed [start_hand] settles on. *)
Definition chosen_seed (seed_arg : option string) (fresh_uuid : string) : string :=
  match seed_arg with
  | Some s => if String.eqb s "" then fresh_uuid else s
  | None => fresh_uuid
  end.

(** A seat as [start_hand] clears it. *)
Definition reset_seat (p : PlayerState) : PlayerState :=
  set_is_all_in false (set_is_folded false (set_committed 0 (set_hole_cards [] p))).

(** The engine after the blinds of [st] were asked of the button and of
    the seat after it. *)
Definition blinds_posted (st : Engine) : Engine :=
  posted ((button_index st + 1) mod length (players st))%nat (big_blind st) "bb"
    (posted (button_index st) (small_blind st) "sb" st).

(** The engine after [start_hand] has dealt: the seats hold their cards,
    the deck is what is left and the phase is set. *)
Definition hand_dealt (c1 c2 rest : list string) (st : Engine) : Engine :=
  let n := length (players st) in
  let ds := ((button_index st + 1) mod n)%nat in
  set_phase (Some PRE_FLOP)
    (set_deck rest
       (set_players
          (deal_cards ds n 0 c2 (deal_cards ds n 0 c1 (players (blinds_posted st))))
          (blinds_posted st))).


(** The blind [start_hand] asks of seat [j]: the small blind of the
    button, the big blind of the seat after it, nothing of the others. *)
Definition blind_due (st : Engine) (j : nat) : option Z :=
  if (j =? button_index st)%nat then Some (small_blind st)
  else if (j =? (button_index st + 1) mod length (players st))%nat
       then Some (big_blind st)
       else None.

(** A seat with its cards masked: every field but [hole_cards]. *)
Definition bare (p : PlayerState) : PlayerState := set_hole_cards [] p.


(** ** The board of a hand *)

(** The phase changes behind a hand in phase [ph]. *)
Definition streets_done (ph : Phase) : nat :=
  match ph with
  | PRE_FLOP => 0
  | FLOP => 1
  | TURN => 2
  | RIVER => 3
  | SHOWDOWN | COMPLETED => 4
  end.

(** The last phase the rule of the streets names: a completed hand has
    been through its showdown. *)
Definition shown (ph : Phase) : Phase :=
  match ph with
  | COMPLETED => SHOWDOWN
  | _ => ph
  end.

(** The community cards a phase shows. *)
Definition board_size (ph : Phase) : nat :=
  match ph with
  | PRE_FLOP => 0
  | FLOP => 3
  | TURN => 4
  | RIVER | SHOWDOWN | COMPLETED => 5
  end.


(** ** What an action does to the acting seat *)

(** The chips an accepted action moves from the stack to the pot. *)
Definition payment (p : PlayerState) (action : string) (amount to_call : Z) : Z :=
  if String.eqb action "call" then Z.min (stack p) to_call
  else if String.eqb action "bet" then amount
  else if String.eqb action "raise" then Z.min (stack p) (to_call + amount)
  else if String.eqb action "allin" then stack p
  else 0.

(** The acting seat after an accepted action that moved [pay] chips. *)
Definition acted_seat (p : PlayerState) (action : string) (pay : Z) : PlayerState :=
  if String.eqb action "fold" then set_is_folded true p
  else if String.eqb action "check" then p
  else if String.eqb action "allin" then
    set_is_all_in true (set_committed (committed p + stack p) (set_stack 0 p))
  else paid_seat p pay.

(** Seat [i] is in the hand and no seat has committed more. *)
Definition leads (st : Engine) (i : nat) : Prop :=
  exists p, players st !! i = Some p /\ is_folded p = false /\
    forall j q, players st !! j = Some q -> committed q <= committed p.


(** What [legal_actions] has checked of the action [a] when it offers it
    to the seat [p], [h] being the highest commitment. *)
Definition offered (a : string) (p : PlayerState) (h : Z) : Prop :=
  (a = "fold" /\ 0 < h - committed p) \/
  (a = "call" /\ 0 < h - committed p <= stack p) \/
  (a = "raise" /\ 0 < h - committed p < stack p) \/
  (a = "allin" /\ 0 < stack p) \/
  (a = "check" /\ h - committed p <= 0) \/
  (a = "bet" /\ h - committed p <= 0 /\ 0 < stack p).


(** Every card of a hand: the hole cards seat by seat, the community
    cards and the deck. *)
Definition cards_in_play (st : Engine) : list string :=
  concat (map hole_cards (players st)) ++ community_cards st ++ deck st.


(** The flop of the two-seat table after seat B has checked. *)
Definition table2_checked : Engine :=
  Eval vm_compute in snd (apply_action level_evaluate "B" "check" 0 table2_called).

(** Three seats at a showdown over a pot of 60, two of them folded. *)
Definition table_lone : Engine :=
  mkEngine [mkPlayerState "A" 80 ["2c"; "2d"] 20 true false 0;
            mkPlayerState "B" 70 ["2h"; "2s"] 30 false false 1;
            mkPlayerState "C" 90 ["3c"; "3d"] 10 true false 2]
           (Some SHOWDOWN) 0 1 [] ["4c"; "5d"; "6h"; "7s"; "9c"] "hand-4" [] []
           5 10 60 (Some "seed").


(** The view a seated identifier is given, for tables whose seats are
    known. *)
Definition view_of (pid : string) (st : Engine) : CanonicalState :=
  match canonical_state_for pid st with
  | Ret v => v
  | Raise _ => mkCanonicalState "" None [] [] [] 0 None None
  end.

(** * Properties *)

(** ** Integer sequences *)


Lemma foldl_max_spec (l : list Z) (a : Z) :
  is_maximum (foldl Z.max a l) (a :: l).
Proof.
  revert a. induction l as [|x l IH]; intros a; simpl.
  - split; [now left | intros y [<-|[]]; lia].
  - destruct (IH (Z.max a x)) as [Hin Hle]. split.
    + destruct Hin as [Heq|Hin]; [|now right; right].
      rewrite <- Heq. destruct (Z.max_spec a x) as [[_ ->]|[_ ->]]; simpl; auto.
    + pose proof (Hle (Z.max a x) (or_introl eq_refl)) as Hm.
      intros y [Hy|[Hy|Hy]]; [lia | lia | apply Hle; now right].
Qed.

Lemma py_max_spec (l : list Z) (m : Z) :
  py_max l = Ret m -> is_maximum m l.
Proof.
  destruct l as [|x l]; simpl; [discriminate|].
  intros [= <-]. apply foldl_max_spec.
Qed.

Lemma py_max_nonempty (l : list Z) :
  l <> [] -> exists m, py_max l = Ret m.
Proof. destruct l; [congruence | simpl; eauto]. Qed.

Lemma is_maximum_unique (m m' : Z) (l : list Z) :
  is_maximum m l -> is_maximum m' l -> m = m'.
Proof. intros [H1 H2] [H3 H4]. apply H2 in H3. apply H4 in H1. lia. Qed.

(** ** Round completion *)

Lemma can_act_spec (p : PlayerState) :
  can_act p = true <-> is_folded p = false /\ is_all_in p = false.
Proof. unfold can_act. destruct (is_folded p), (is_all_in p); simpl; intuition congruence. Qed.

Lemma all_matched_spec (h : Z) (l : list PlayerState) :
  all_matched h l = true <-> forall p, In p l -> committed p = h.
Proof.
  induction l as [|q l IH]; simpl.
  - split; [intros _ p [] | reflexivity].
  - destruct (Z.eqb_spec (committed q) h) as [E|E]; simpl.
    + rewrite IH. split.
      * intros H p [Hp|Hp]; [now subst p | now apply H].
      * intros H p Hp. apply H. now right.
    + split; [discriminate | intros H; exfalso; apply E, H; now left].
Qed.

Lemma no_active_spec (ps : list PlayerState) :
  (length (List.filter can_act ps) =? 0)%nat = true <->
  forall p, In p ps -> ~ (is_folded p = false /\ is_all_in p = false).
Proof.
  rewrite Nat.eqb_eq. split.
  - intros H p Hp Hact. apply can_act_spec in Hact.
    assert (Hin : In p (List.filter can_act ps)) by (apply filter_In; auto).
    destruct (List.filter can_act ps); [destruct Hin | discriminate].
  - intros H. destruct (List.filter can_act ps) as [|q l] eqn:E; [reflexivity|].
    exfalso. assert (Hq : In q (List.filter can_act ps)) by (rewrite E; now left).
    apply filter_In in Hq as [Hq Hc]. apply (H q Hq). now apply can_act_spec.
Qed.

(** C2.  The round-completion test of [_is_betting_round_complete]
    returns (it never raises), and it returns [True] exactly when either
    no seat is both unfolded and not all-in, or every seat that is
    unfolded and not all-in has [committed] equal to the maximum of
    [committed] over all the seats. *)
Theorem round_complete_iff (st : Engine) :
  (exists b, _is_betting_round_complete st = Ret b) /\
  (_is_betting_round_complete st = Ret true <->
   (forall p, In p (players st) -> ~ (is_folded p = false /\ is_all_in p = false)) \/
   (exists m, is_maximum m (map committed (players st)) /\
      forall p, In p (players st) ->
        is_folded p = false /\ is_all_in p = false -> committed p = m)).
Proof.
  unfold _is_betting_round_complete.
  destruct (length (List.filter can_act (players st)) =? 0)%nat eqn:E.
  - split; [eauto|]. split; [|reflexivity]. intros _. left. now apply no_active_spec.
  - assert (Hne : map committed (players st) <> []).
    { destruct (players st); [discriminate E | discriminate]. }
    destruct (py_max_nonempty _ Hne) as [m Hm]. rewrite Hm. simpl.
    pose proof (py_max_spec _ _ Hm) as Hmax.
    split; [eauto|]. split.
    + intros [= Hall]. right. exists m. split; [exact Hmax|].
      intros p Hp Hact. apply (proj1 (all_matched_spec m _) Hall).
      apply filter_In. split; [exact Hp | now apply can_act_spec].
    + intros [Hnone | (m' & Hmax' & Hall)].
      * apply no_active_spec in Hnone. congruence.
      * f_equal. apply all_matched_spec. intros p Hp.
        apply filter_In in Hp as [Hp Hc].
        rewrite (is_maximum_unique _ _ _ Hmax Hmax').
        apply Hall; [exact Hp | now apply can_act_spec].
Qed.

(** ** Seat lookup *)

Lemma find_from_spec (pid : string) (ps : list PlayerState) (i j : nat) :
  find_from pid ps i = Ret j ->
  (i <= j)%nat /\ exists p, ps !! (j - i)%nat = Some p /\ player_id p = pid.
Proof.
  revert i. induction ps as [|q ps IH]; intros i; simpl; [discriminate|].
  destruct (String.eqb_spec (player_id q) pid) as [E|E].
  - intros [= <-]. split; [lia|]. exists q. rewrite Nat.sub_diag. auto.
  - intros H. apply IH in H as (Hle & p & Hp & Hid). split; [lia|].
    exists p. split; [|exact Hid].
    replace (j - i)%nat with (S (j - S i)) by lia. exact Hp.
Qed.

Lemma find_from_none (pid : string) (ps : list PlayerState) (i : nat) :
  (forall p, In p ps -> player_id p <> pid) ->
  find_from pid ps i = Raise (KeyError pid).
Proof.
  revert i. induction ps as [|q ps IH]; intros i H; simpl; [reflexivity|].
  destruct (String.eqb_spec (player_id q) pid) as [E|E].
  - exfalso. apply (H q); [now left | exact E].
  - apply IH. intros p Hp. apply H. now right.
Qed.

Lemma find_player_index_lookup (pid : string) (st : Engine) (idx : nat) :
  find_player_index pid st = Ret idx ->
  exists p, players st !! idx = Some p /\ player_id p = pid.
Proof.
  intros H. apply find_from_spec in H as (_ & p & Hp & Hid).
  rewrite Nat.sub_0_r in Hp. eauto.
Qed.

(** ** Legal actions *)

Lemma phase_is_spec (ph : Phase) (st : Engine) :
  phase_is ph st = true <-> phase st = Some ph.
Proof.
  unfold phase_is. destruct (phase st) as [q|]; [|split; discriminate].
  destruct q, ph; simpl; split; congruence.
Qed.

Lemma max_committed_ge (st : Engine) (i : nat) (p : PlayerState) (h : Z) :
  players st !! i = Some p ->
  is_maximum h (map committed (players st)) -> committed p <= h.
Proof.
  intros Hp [_ Hle]. apply Hle, in_map_iff. exists p. split; [reflexivity|].
  apply list_elem_of_In, list_elem_of_lookup. eauto.
Qed.

Local Ltac solve_nodup :=
  repeat (constructor; [simpl; intuition discriminate|]); constructor.

(** C3.  For a seat found under its identifier, [legal_actions] returns
    the empty list when the seat is folded or all-in or the hand is
    COMPLETED.  Otherwise, with [to_call] the maximum of [committed] over
    all seats minus the seat's own: when [to_call > 0] the answer holds
    exactly fold, call iff [stack >= to_call], raise iff
    [stack > to_call], and allin iff [stack > 0] (check is absent); when
    [to_call = 0] it holds exactly check, and bet and allin iff
    [stack > 0].  No name is listed twice. *)
Theorem legal_actions_spec (pid : string) (st : Engine) (idx : nat) (p : PlayerState) :
  find_player_index pid st = Ret idx ->
  players st !! idx = Some p ->
  exists acts,
    legal_actions pid st = Ret acts /\ List.NoDup acts /\
    (is_folded p = true \/ is_all_in p = true \/ phase st = Some COMPLETED ->
     acts = []) /\
    (is_folded p = false -> is_all_in p = false -> phase st <> Some COMPLETED ->
     exists highest,
       is_maximum highest (map committed (players st)) /\
       let to_call := highest - committed p in
       (0 < to_call \/ to_call = 0) /\
       (0 < to_call ->
        forall a, In a acts <->
          a = "fold" \/ (a = "call" /\ to_call <= stack p) \/
          (a = "raise" /\ to_call < stack p) \/ (a = "allin" /\ 0 < stack p)) /\
       (to_call = 0 ->
        forall a, In a acts <->
          a = "check" \/ ((a = "bet" \/ a = "allin") /\ 0 < stack p))).
Proof.
  intros Hfind Hp. unfold legal_actions. rewrite Hfind. simpl.
  unfold index. rewrite Hp. simpl.
  destruct (is_folded p || is_all_in p || phase_is COMPLETED st) eqn:Hgate.
  - exists []. split; [reflexivity|]. split; [constructor|]. split; [reflexivity|].
    intros Hf Ha Hph. exfalso. rewrite Hf, Ha in Hgate. simpl in Hgate.
    now apply phase_is_spec in Hgate.
  - apply orb_false_iff in Hgate as [Hgate Hph].
    apply orb_false_iff in Hgate as [Hf Ha].
    assert (Hph' : phase st <> Some COMPLETED).
    { intros H'. apply phase_is_spec in H'. congruence. }
    assert (Hne : map committed (players st) <> []).
    { destruct (players st); [discriminate Hp | discriminate]. }
    destruct (py_max_nonempty _ Hne) as [h Hh]. rewrite Hh. simpl.
    pose proof (py_max_spec _ _ Hh) as Hmax.
    pose proof (max_committed_ge _ _ _ _ Hp Hmax) as Hge.
    destruct (Z.ltb_spec 0 (h - committed p)) as [Hpos|Hzero].
    + eexists. split; [reflexivity|].
      destruct (Z.leb_spec (h - committed p) (stack p)),
               (Z.ltb_spec (h - committed p) (stack p)),
               (Z.ltb_spec 0 (stack p)); try lia; simpl;
        (split; [solve_nodup|]);
        (split; [intros [H'|[H'|H']]; [congruence|congruence|contradiction]|]);
        intros _ _ _; exists h; (split; [exact Hmax|]); simpl;
        (split; [lia|]); (split; [|lia]);
        intros _ a; intuition (subst; auto; lia).
    + eexists. split; [reflexivity|].
      destruct (Z.ltb_spec 0 (stack p)); simpl;
        (split; [solve_nodup|]);
        (split; [intros [H'|[H'|H']]; [congruence|congruence|contradiction]|]);
        intros _ _ _; exists h; (split; [exact Hmax|]); simpl;
        (split; [lia|]); (split; [lia|]);
        intros _ a; intuition (subst; auto; lia).
Qed.

(** ** The ledger: where the money is *)


Lemma sumZ_app (l1 l2 : list Z) : sumZ (l1 ++ l2) = sumZ l1 + sumZ l2.
Proof. induction l1 as [|x l1 IH]; simpl; [reflexivity | rewrite IH; lia]. Qed.

Lemma sum_insert (f : PlayerState -> Z) (ps : list PlayerState) (i : nat)
    (p q : PlayerState) :
  ps !! i = Some p ->
  sumZ (map f (<[i := q]> ps)) = sumZ (map f ps) - f p + f q.
Proof.
  revert i. induction ps as [|x ps IH]; intros [|i]; simpl; try discriminate.
  - intros [= ->]. lia.
  - intros H. rewrite (IH _ H). lia.
Qed.

Lemma alter_as_insert {A} (f : A -> A) (l : list A) (i : nat) (x : A) :
  l !! i = Some x -> alter f i l = <[i := f x]> l.
Proof.
  revert i. induction l as [|y l IH]; intros [|i]; simpl; try discriminate.
  - now intros [= ->].
  - intros H. f_equal. now apply IH.
Qed.

Lemma Forall_insert_stack (ps : list PlayerState) (i : nat) (q : PlayerState) :
  Forall (fun p => 0 <= stack p) ps -> 0 <= stack q ->
  Forall (fun p => 0 <= stack p) (<[i := q]> ps).
Proof.
  intros H Hq. revert i. induction H as [|x l Hx Hl IH]; intros [|i]; simpl;
    constructor; auto.
Qed.

Lemma strip_insert (ps : list PlayerState) (i : nat) (p q : PlayerState) :
  ps !! i = Some p -> strip q = strip p ->
  map strip (<[i := q]> ps) = map strip ps.
Proof.
  revert i. induction ps as [|x ps IH]; intros [|i]; simpl; try discriminate.
  - intros [= ->] ->. reflexivity.
  - intros H Hq. f_equal. now apply IH.
Qed.

(** ** Running the monad *)

Lemma bind_ret_inv {A B} (m : M A) (k : A -> M B) (st st2 : Engine) (b : B) :
  bind m k st = (Ret b, st2) ->
  exists a st1, m st = (Ret a, st1) /\ k a st1 = (Ret b, st2).
Proof.
  unfold bind. destruct (m st) as [[a|e] st1]; [eauto | discriminate].
Qed.


Section Preserves.

Variable R : Engine -> Engine -> Prop.
Hypothesis R_refl : forall st, R st st.
Hypothesis R_trans : forall a b c, R a b -> R b c -> R a c.

Lemma preserves_ret {A} (a : A) : preserves R (ret a).
Proof. intros st. apply R_refl. Qed.

Lemma preserves_raise {A} (e : exn) : preserves R (@raise A e).
Proof. intros st. apply R_refl. Qed.

Lemma preserves_get : preserves R get.
Proof. intros st. apply R_refl. Qed.

Lemma preserves_read {A} (f : Engine -> outcome A) : preserves R (read f).
Proof. intros st. apply R_refl. Qed.

Lemma preserves_modify (f : Engine -> Engine) :
  (forall st, R st (f st)) -> preserves R (modify f).
Proof. intros H st. apply H. Qed.

Lemma preserves_bind {A B} (m : M A) (k : A -> M B) :
  preserves R m -> (forall a, preserves R (k a)) -> preserves R (bind m k).
Proof.
  intros Hm Hk st. unfold bind. specialize (Hm st).
  destruct (m st) as [[a|e] st1]; simpl in *; [|exact Hm].
  eapply R_trans; [exact Hm | apply Hk].
Qed.

Lemma preserves_for_each {A} (l : list A) (body : A -> M unit) :
  (forall x, preserves R (body x)) -> preserves R (for_each l body).
Proof.
  intros H. induction l as [|x l IH]; simpl.
  - apply preserves_ret.
  - apply preserves_bind; auto.
Qed.

End Preserves.

(** ** Moving chips *)

Lemma alter_insert_same {A} (f : A -> A) (l : list A) (i : nat) (x y : A) :
  l !! i = Some x -> alter f i (<[i := y]> l) = <[i := f y]> l.
Proof.
  intros H. apply lookup_lt_Some in H.
  rewrite (alter_as_insert f _ i y) by now apply list_lookup_insert_eq.
  apply list_insert_insert_eq.
Qed.

Lemma bind_run {A B} (m : M A) (k : A -> M B) (st st1 : Engine) (a : A) :
  m st = (Ret a, st1) -> bind m k st = k a st1.
Proof. unfold bind. now intros ->. Qed.

Lemma player_at_run (idx : nat) (st : Engine) (p : PlayerState) :
  players st !! idx = Some p -> player_at idx st = (Ret p, st).
Proof. unfold player_at, read, index. now intros ->. Qed.

Lemma pay_in_run (idx : nat) (pay : Z) (st : Engine) (p : PlayerState) :
  players st !! idx = Some p ->
  pay_in idx pay st = (Ret tt, moved idx (paid_seat p pay) pay st).
Proof.
  intros Hp. unfold pay_in, moved, paid_seat, bind, update_player, modify.
  destruct st as [ps ph bi ca dk cc hid hist acts sb bb pot seed]; simpl in *.
  rewrite (alter_as_insert _ _ _ _ Hp).
  rewrite (alter_insert_same _ _ _ _ _ Hp).
  unfold player_at, read, index; simpl.
  rewrite list_lookup_insert_eq by (now apply lookup_lt_Some in Hp); simpl.
  destruct (stack p - pay =? 0); unfold ret, set_players; simpl; [|reflexivity].
  now rewrite (alter_insert_same _ _ _ _ _ Hp).
Qed.

Lemma booked_fold_eq (idx : nat) (p : PlayerState) (rec : Action) (st : Engine) :
  players st !! idx = Some p ->
  set_actions (actions st ++ [rec])
    (set_players (alter (set_is_folded true) idx (players st)) st)
  = booked idx (set_is_folded true p) 0 rec st.
Proof.
  intros Hp. unfold booked, moved. rewrite (alter_as_insert _ _ _ _ Hp).
  destruct st; simpl. unfold set_actions, set_total_pot, set_players; simpl.
  now rewrite Z.add_0_r.
Qed.

Lemma booked_check_eq (idx : nat) (p : PlayerState) (rec : Action) (st : Engine) :
  players st !! idx = Some p ->
  set_actions (actions st ++ [rec]) st = booked idx p 0 rec st.
Proof.
  intros Hp. unfold booked, moved. rewrite (list_insert_id _ _ _ Hp).
  destruct st; simpl. unfold set_actions, set_total_pot, set_players; simpl.
  now rewrite Z.add_0_r.
Qed.

Lemma allin_seat_eq (idx : nat) (p : PlayerState) (ps : list PlayerState) :
  ps !! idx = Some p ->
  alter (set_is_all_in true) idx
    (alter (fun q => set_committed (committed q + stack p) q) idx
       (alter (set_stack 0) idx ps))
  = <[idx := set_is_all_in true
               (set_committed (committed p + stack p) (set_stack 0 p))]> ps.
Proof.
  intros Hp. rewrite (alter_as_insert _ _ _ _ Hp).
  now rewrite !(alter_insert_same _ _ _ _ _ Hp).
Qed.

(** What the chain on the action name does to a seat that exists: it
    refuses a bet or raise amount and changes nothing, or it books a
    payment of the seat, or it knows no such action and changes nothing. *)
Local Ltac ledger_side :=
  simpl; repeat (split; [first [reflexivity | lia | (intros [H|H]; discriminate H) | (intros _; lia)]|]);
  lia.

Lemma ledger_step_run (idx : nat) (p : PlayerState) (pid action : string)
    (amount to_call : Z) (st : Engine) :
  players st !! idx = Some p ->
  (exists msg,
     ledger_step idx p pid action amount to_call st = (Ret (Some (RespError msg)), st) /\
     (action = "bet" \/ action = "raise") /\ (amount <= 0 \/ stack p < amount)) \/
  (exists q pay,
     ledger_step idx p pid action amount to_call st
       = (Ret None, booked idx q pay (mkAction pid action pay) st) /\
     stack q = stack p - pay /\ committed q = committed p + pay /\
     player_id q = player_id p /\ hole_cards q = hole_cards p /\ seat q = seat p /\
     (action = "bet" \/ action = "raise" -> 0 < amount <= stack p) /\
     (0 <= to_call -> 0 <= stack p -> 0 <= pay <= stack p)) \/
  (ledger_step idx p pid action amount to_call st = (Ret None, st) /\
   ~ In action action_names).
Proof.
  intros Hp. unfold ledger_step.
  destruct (String.eqb_spec action "fold") as [->|Hfold].
  { right; left. exists (set_is_folded true p), 0.
    split; [|ledger_side].
    unfold bind, update_player, log_action, modify, ret; simpl.
    f_equal. now apply booked_fold_eq. }
  destruct (String.eqb_spec action "call") as [->|Hcall].
  { right; left. exists (paid_seat p (Z.min (stack p) to_call)), (Z.min (stack p) to_call).
    split.
    - rewrite (bind_run _ _ _ _ _ (pay_in_run _ _ _ _ Hp)). reflexivity.
    - unfold paid_seat; simpl.
      destruct (stack p - Z.min (stack p) to_call =? 0); ledger_side. }
  destruct (String.eqb_spec action "check") as [->|Hcheck].
  { right; left. exists p, 0. split; [|ledger_side].
    unfold bind, log_action, modify, ret; simpl.
    f_equal. now apply booked_check_eq. }
  destruct (String.eqb_spec action "bet") as [->|Hbet].
  { destruct (Z.leb_spec amount 0) as [Hle|Hgt]; simpl.
    { left. eexists. split; [reflexivity|]. split; auto. }
    destruct (Z.ltb_spec (stack p) amount) as [Hlt|Hge]; simpl.
    { left. eexists. split; [reflexivity|]. split; auto. }
    right; left. exists (paid_seat p amount), amount. split.
    - rewrite (bind_run _ _ _ _ _ (pay_in_run _ _ _ _ Hp)). reflexivity.
    - unfold paid_seat; simpl.
      destruct (stack p - amount =? 0); ledger_side. }
  destruct (String.eqb_spec action "raise") as [->|Hraise].
  { destruct (Z.leb_spec amount 0) as [Hle|Hgt]; simpl.
    { left. eexists. split; [reflexivity|]. split; auto. }
    destruct (Z.ltb_spec (stack p) amount) as [Hlt|Hge]; simpl.
    { left. eexists. split; [reflexivity|]. split; auto. }
    right; left.
    exists (paid_seat p (Z.min (stack p) (to_call + amount))),
           (Z.min (stack p) (to_call + amount)). split.
    - rewrite (bind_run _ _ _ _ _ (pay_in_run _ _ _ _ Hp)). reflexivity.
    - unfold paid_seat; simpl.
      destruct (stack p - Z.min (stack p) (to_call + amount) =? 0); ledger_side. }
  destruct (String.eqb_spec action "allin") as [->|Hallin].
  { right; left.
    exists (set_is_all_in true (set_committed (committed p + stack p) (set_stack 0 p))),
           (stack p).
    split; [|ledger_side].
    unfold bind, update_player, log_action, modify, ret; simpl.
    f_equal. destruct st; unfold booked, moved, set_actions, set_total_pot, set_players;
      simpl in *. f_equal. now apply allin_seat_eq. }
  right; right. split; [reflexivity|].
  unfold action_names; simpl. intuition congruence.
Qed.

(** ** Sorting by score *)

Lemma insert_by_score_In {A} (x y : Z * A) (l : list (Z * A)) :
  In y (insert_by_score x l) <-> y = x \/ In y l.
Proof.
  induction l as [|z l IH]; simpl; [intuition|].
  destruct (fst x <=? fst z); simpl; [intuition|]. rewrite IH. intuition.
Qed.

Lemma sort_by_score_In {A} (y : Z * A) (l : list (Z * A)) :
  In y (sort_by_score l) <-> In y l.
Proof.
  induction l as [|x l IH]; simpl; [reflexivity|].
  rewrite insert_by_score_In, IH. intuition.
Qed.

(** A stable sort keeps the entries of one score in their order. *)
Lemma insert_by_score_filter {A} (v : Z) (x : Z * A) (l : list (Z * A)) :
  List.filter (fun sp => fst sp =? v) (insert_by_score x l)
  = List.filter (fun sp => fst sp =? v) (x :: l).
Proof.
  induction l as [|z l IH]; [reflexivity|]. simpl insert_by_score.
  destruct (Z.leb_spec (fst x) (fst z)) as [Hle|Hgt]; [reflexivity|].
  simpl in *. rewrite IH.
  destruct (Z.eqb_spec (fst x) v), (Z.eqb_spec (fst z) v); try reflexivity. lia.
Qed.

Lemma sort_by_score_filter {A} (v : Z) (l : list (Z * A)) :
  List.filter (fun sp => fst sp =? v) (sort_by_score l)
  = List.filter (fun sp => fst sp =? v) l.
Proof.
  induction l as [|x l IH]; [reflexivity|]. simpl sort_by_score.
  rewrite insert_by_score_filter. simpl. now rewrite IH.
Qed.

(** The first entry of the sorted list carries the least score. *)
Lemma insert_by_score_head {A} (x : Z * A) (l : list (Z * A)) (b : Z * A)
    (rest : list (Z * A)) :
  (forall h t, l = h :: t -> forall y, In y l -> fst h <= fst y) ->
  insert_by_score x l = b :: rest ->
  forall y, In y (x :: l) -> fst b <= fst y.
Proof.
  destruct l as [|z l]; simpl.
  - intros _ [= <- <-] y [<-|[]]. lia.
  - intros Hmin. specialize (Hmin z l eq_refl).
    destruct (Z.leb_spec (fst x) (fst z)) as [Hle|Hgt].
    + intros [= <- <-] y [<-|Hy]; [lia|]. specialize (Hmin y Hy). lia.
    + intros [= <- _] y [<-|Hy]; [lia|]. now apply Hmin.
Qed.

Lemma sort_by_score_head {A} (l : list (Z * A)) (b : Z * A) (rest : list (Z * A)) :
  sort_by_score l = b :: rest -> forall y, In y l -> fst b <= fst y.
Proof.
  revert b rest. induction l as [|x l IH]; intros b rest; simpl; [discriminate|].
  intros H y Hy. apply (insert_by_score_head x (sort_by_score l) b rest); [|exact H|].
  - intros h t Hht z Hz. apply (IH h t Hht). now apply sort_by_score_In.
  - destruct Hy as [Hy|Hy]; [now left | right; now apply sort_by_score_In].
Qed.

Lemma sort_by_score_nil {A} (l : list (Z * A)) :
  sort_by_score l = [] -> l = [].
Proof.
  destruct l as [|x l]; [reflexivity|]. simpl.
  destruct (sort_by_score l) as [|z r]; simpl; [discriminate|].
  destruct (fst x <=? fst z); discriminate.
Qed.

(** ** Seats and their positions *)

Lemma zip_seq_In (ps : list PlayerState) (k i : nat) (p : PlayerState) :
  In (i, p) (zip (seq k (length ps)) ps) <->
  (k <= i)%nat /\ ps !! (i - k)%nat = Some p.
Proof.
  revert k. induction ps as [|x ps IH]; intros k; simpl.
  - split; [intros [] | intros [_ H]; discriminate H].
  - rewrite IH. split.
    + intros [[= <- <-]|[Hle Hp]].
      * split; [lia|]. now rewrite Nat.sub_diag.
      * split; [lia|]. now replace (i - k)%nat with (S (i - S k)) by lia.
    + intros [Hle Hp]. destruct (decide (i = k)) as [->|Hne].
      * left. rewrite Nat.sub_diag in Hp. simpl in Hp. congruence.
      * right. split; [lia|].
        now replace (i - k)%nat with (S (i - S k)) in Hp by lia.
Qed.

Lemma enumerate_In (ps : list PlayerState) (i : nat) (p : PlayerState) :
  In (i, p) (enumerate ps) <-> ps !! i = Some p.
Proof.
  unfold enumerate. rewrite zip_seq_In, Nat.sub_0_r. intuition lia.
Qed.

Lemma unfolded_In (st : Engine) (i : nat) (p : PlayerState) :
  In (i, p) (unfolded st) <-> players st !! i = Some p /\ is_folded p = false.
Proof.
  unfold unfolded. rewrite filter_In, enumerate_In. simpl.
  destruct (is_folded p); simpl; intuition congruence.
Qed.

(** ** Showdown *)

Section Showdown.

Variable evaluate : list string -> list string -> Z.

Lemma for_each_credit_run (l : list (nat * PlayerState)) (v : Z) (st : Engine) :
  for_each l (fun ip => add_to_stack (fst ip) v) st
  = (Ret tt, set_players (share_out v (players st) l) st).
Proof.
  revert st. induction l as [|x l IH]; intros st.
  - destruct st; reflexivity.
  - cbn [for_each]. unfold bind at 1. unfold add_to_stack at 1, update_player, modify.
    rewrite IH. destruct st; reflexivity.
Qed.

Lemma tied_nonempty (st : Engine) :
  unfolded st <> [] -> tied evaluate st <> [].
Proof.
  intros Hne. unfold tied.
  destruct (scored evaluate st) as [|[b x] r] eqn:E.
  - apply sort_by_score_nil in E. now destruct (unfolded st).
  - simpl. now rewrite Z.eqb_refl.
Qed.

Lemma tied_nil (st : Engine) :
  unfolded st = [] -> tied evaluate st = [].
Proof. intros H. unfold tied, scored. now rewrite H. Qed.

(** The run of the showdown, by the number of seats left in the hand. *)
Lemma evaluate_and_distribute_run (st : Engine) :
  evaluate_and_distribute evaluate st =
  match unfolded st with
  | [w] => (Ret tt, awarded w st)
  | [] => (Raise IndexError, st)
  | _ => (Ret tt, split_among (tied evaluate st) st)
  end.
Proof.
  unfold evaluate_and_distribute, bind at 1, get.
  fold (unfolded st).
  destruct (unfolded st) as [|w [|w' rest]] eqn:Hact.
  - reflexivity.
  - reflexivity.
  - assert (Hne : unfolded st <> []) by (rewrite Hact; discriminate).
    pose proof (tied_nonempty st Hne) as Hty.
    unfold tied, scored in *. rewrite Hact in *.
    set (sc := sort_by_score _) in *.
    destruct sc as [|[best x] r] eqn:Esc; [congruence|].
    set (ty := map snd _) in *.
    rewrite (bind_run _ _ _ _ _ (for_each_credit_run _ _ _)).
    destruct ty as [|first more] eqn:Ety; [congruence|].
    reflexivity.
Qed.

End Showdown.

(** ** Crediting stacks *)

Lemma alter_none {A} (f : A -> A) (l : list A) (i : nat) :
  l !! i = None -> alter f i l = l.
Proof.
  revert i. induction l as [|x l IH]; intros [|i]; simpl; try reflexivity.
  - discriminate.
  - intros H. f_equal. now apply IH.
Qed.

Lemma credit_length (i : nat) (v : Z) (ps : list PlayerState) :
  length (credit i v ps) = length ps.
Proof. apply length_alter. Qed.

Lemma credit_sum (i : nat) (v : Z) (ps : list PlayerState) :
  (i < length ps)%nat ->
  sumZ (map stack (credit i v ps)) = sumZ (map stack ps) + v.
Proof.
  intros Hi. destruct (lookup_lt_is_Some_2 _ _ Hi) as [p Hp].
  unfold credit. rewrite (alter_as_insert _ _ _ _ Hp), (sum_insert _ _ _ _ _ Hp).
  simpl. lia.
Qed.

Lemma credit_strip (i : nat) (v : Z) (ps : list PlayerState) :
  map strip (credit i v ps) = map strip ps.
Proof.
  unfold credit. destruct (ps !! i) as [p|] eqn:Hp.
  - rewrite (alter_as_insert _ _ _ _ Hp). now apply (strip_insert _ _ p).
  - now rewrite (alter_none _ _ _ Hp).
Qed.

Lemma credit_nonneg (i : nat) (v : Z) (ps : list PlayerState) :
  0 <= v -> Forall (fun p => 0 <= stack p) ps ->
  Forall (fun p => 0 <= stack p) (credit i v ps).
Proof.
  intros Hv H. unfold credit. destruct (ps !! i) as [p|] eqn:Hp.
  - rewrite (alter_as_insert _ _ _ _ Hp). apply Forall_insert_stack; [exact H|].
    simpl. rewrite Forall_forall in H.
    assert (0 <= stack p) by (apply H, list_elem_of_lookup; eauto). lia.
  - now rewrite (alter_none _ _ _ Hp).
Qed.

Section Shares.

Variable v : Z.

Lemma share_out_length (ws : list (nat * PlayerState)) (ps : list PlayerState) :
  length (share_out v ps ws) = length ps.
Proof.
  revert ps. induction ws as [|w ws IH]; intros ps; simpl; [reflexivity|].
  unfold share_out in *. simpl. now rewrite IH, credit_length.
Qed.

Lemma share_out_sum (ws : list (nat * PlayerState)) (ps : list PlayerState) :
  (forall w, In w ws -> (fst w < length ps)%nat) ->
  sumZ (map stack (share_out v ps ws)) = sumZ (map stack ps) + v * Z.of_nat (length ws).
Proof.
  revert ps. induction ws as [|w ws IH]; intros ps Hin; simpl length.
  - simpl. lia.
  - unfold share_out in *. simpl foldl. rewrite IH.
    + rewrite credit_sum by (apply Hin; now left). lia.
    + intros w' Hw'. rewrite credit_length. apply Hin. now right.
Qed.

Lemma share_out_strip (ws : list (nat * PlayerState)) (ps : list PlayerState) :
  map strip (share_out v ps ws) = map strip ps.
Proof.
  revert ps. induction ws as [|w ws IH]; intros ps; [reflexivity|].
  unfold share_out in *. simpl foldl. now rewrite IH, credit_strip.
Qed.

Lemma share_out_nonneg (ws : list (nat * PlayerState)) (ps : list PlayerState) :
  0 <= v -> Forall (fun p => 0 <= stack p) ps ->
  Forall (fun p => 0 <= stack p) (share_out v ps ws).
Proof.
  intros Hv. revert ps. induction ws as [|w ws IH]; intros ps H; [exact H|].
  unfold share_out in *. simpl foldl. apply IH. now apply credit_nonneg.
Qed.

End Shares.

(** ** Settling *)

Lemma settles_refl (st : Engine) : settles st st.
Proof. now constructor. Qed.

Lemma settles_trans (a b c : Engine) : settles a b -> settles b c -> settles a c.
Proof.
  intros [B1 S1 P1 A1] [B2 S2 P2 A2]. constructor.
  - now rewrite B2. 
  - auto.
  - now rewrite P2.
  - now rewrite A2.
Qed.

(** A step that touches neither seats nor pot nor log nor blinds. *)
Lemma settles_same (st st' : Engine) :
  players st' = players st -> total_pot st' = total_pot st ->
  actions st' = actions st -> small_blind st' = small_blind st ->
  big_blind st' = big_blind st -> settles st st'.
Proof.
  intros Hp Ht Ha Hs Hb. constructor.
  - unfold bank, sum_stack. now rewrite Hp, Ht.
  - unfold solvent. now rewrite Hp, Ht, Hs, Hb.
  - now rewrite Hp.
  - exact Ha.
Qed.

Section ShowdownSettles.

Variable evaluate : list string -> list string -> Z.

Lemma tied_unfolded (st : Engine) (w : nat * PlayerState) :
  In w (tied evaluate st) -> In w (unfolded st).
Proof.
  unfold tied. destruct (scored evaluate st) as [|[b x] r] eqn:E; [intros []|].
  rewrite <- E. intros H. apply in_map_iff in H as ([s w'] & <- & H).
  apply filter_In in H as [H _]. unfold scored in H.
  apply sort_by_score_In, in_map_iff in H as (ip & [= _ ->] & Hip). exact Hip.
Qed.

Lemma tied_valid (st : Engine) (w : nat * PlayerState) :
  In w (tied evaluate st) -> (fst w < length (players st))%nat.
Proof.
  intros H. apply tied_unfolded in H. destruct w as [i p].
  apply unfolded_In in H as [H _]. now apply lookup_lt_Some in H.
Qed.

Lemma awarded_settles (st : Engine) (w : nat * PlayerState) :
  In w (unfolded st) -> settles st (awarded w st).
Proof.
  intros Hw. destruct w as [i p]. apply unfolded_In in Hw as [Hp _].
  pose proof (lookup_lt_Some _ _ _ Hp) as Hi.
  constructor; unfold awarded, bank, sum_stack, solvent; simpl.
  - rewrite credit_sum by exact Hi. lia.
  - intros (Hs & Hpot & Hsb & Hbb). repeat split; try lia; try assumption.
    now apply credit_nonneg.
  - apply credit_strip.
  - reflexivity.
Qed.

Lemma split_among_settles (st : Engine) :
  tied evaluate st <> [] -> settles st (split_among (tied evaluate st) st).
Proof.
  intros Hne. pose proof (tied_valid st) as Hval.
  destruct (tied evaluate st) as [|first more] eqn:Ety; [congruence|].
  remember (first :: more) as ws eqn:Ews.
  assert (Hk : 0 < Z.of_nat (length ws)) by (subst ws; simpl; lia).
  assert (Hfirst : (fst first < length (players st))%nat)
    by (apply Hval; subst ws; now left).
  unfold split_among.
  set (sh := share_out _ (players st) ws).
  replace (match ws with [] => sh | f :: _ => credit (fst f) _ sh end)
    with (credit (fst first) (total_pot st mod Z.of_nat (length ws)) sh)
    by (now rewrite Ews).
  subst sh.
  constructor; unfold bank, sum_stack, solvent;
    cbn [players total_pot small_blind big_blind actions pot_history
         set_total_pot set_pot_history set_players].
  - rewrite credit_sum by now rewrite share_out_length.
    rewrite (share_out_sum _ ws (players st) Hval).
    pose proof (Z.div_mod (total_pot st) (Z.of_nat (length ws))). lia.
  - intros (Hs & Hpot & Hsb & Hbb). repeat split; try lia; try assumption.
    apply credit_nonneg; [apply Z.mod_pos_bound; lia|].
    apply (share_out_nonneg _ ws); [|exact Hs]. apply Z.div_pos; lia.
  - now rewrite credit_strip, (share_out_strip _ ws).
  - reflexivity.
Qed.

Lemma evaluate_and_distribute_settles :
  preserves settles (evaluate_and_distribute evaluate).
Proof.
  intros st. rewrite evaluate_and_distribute_run.
  destruct (unfolded st) as [|w [|w' rest]] eqn:Hact; simpl.
  - apply settles_refl.
  - apply awarded_settles. rewrite Hact. now left.
  - apply split_among_settles, tied_nonempty. rewrite Hact. discriminate.
Qed.

End ShowdownSettles.

(** ** Streets and the turn keep the ledger *)

Local Ltac settle_step :=
  first
    [ apply (preserves_bind settles settles_trans); [|intros ?]
    | apply (preserves_ret settles settles_refl)
    | apply (preserves_raise settles settles_refl)
    | apply (preserves_get settles settles_refl)
    | apply (preserves_read settles settles_refl)
    | apply (preserves_modify settles); intros ?; now apply settles_same ].

Lemma pop_deck_settles : preserves settles pop_deck.
Proof.
  intros st. unfold pop_deck. destruct (deck st); simpl.
  - apply settles_refl.
  - now apply settles_same.
Qed.

Lemma pop_cards_settles (k : nat) : preserves settles (pop_cards k).
Proof.
  induction k as [|k IH]; simpl.
  - settle_step.
  - settle_step; [apply pop_deck_settles|]. settle_step; [exact IH|]. settle_step.
Qed.

Lemma deal_flop_settles : preserves settles deal_flop.
Proof.
  unfold deal_flop. settle_step; [apply pop_deck_settles|].
  settle_step; [apply pop_cards_settles|]. settle_step.
Qed.

Lemma deal_one_settles : preserves settles deal_one.
Proof.
  unfold deal_one. settle_step; [apply pop_deck_settles|].
  settle_step; [apply pop_deck_settles|]. settle_step.
Qed.

Lemma _advance_turn_settles : preserves settles _advance_turn.
Proof.
  unfold _advance_turn. settle_step; [settle_step|].
  destruct (length _ =? 0)%nat; [settle_step|].
  settle_step; [settle_step|]. destruct a0; settle_step.
Qed.

Section StreetsSettle.

Variable evaluate : list string -> list string -> Z.

Lemma showdown_settles :
  preserves settles
    (evaluate_and_distribute evaluate ;; modify (set_phase (Some COMPLETED))).
Proof.
  settle_step; [apply evaluate_and_distribute_settles | settle_step].
Qed.

Lemma fast_forward_settles (fuel : nat) :
  preserves settles (fast_forward evaluate fuel).
Proof.
  induction fuel as [|fuel IH]; simpl.
  - settle_step; [settle_step|]. destruct (_ || _); settle_step.
  - settle_step; [settle_step|]. destruct (_ || _); [settle_step|].
    settle_step; [settle_step|]. settle_step; [settle_step|].
    destruct a0; try exact IH; try apply showdown_settles.
    + settle_step; [apply deal_one_settles | exact IH].
    + settle_step; [apply deal_one_settles | exact IH].
Qed.

Lemma _advance_phase_settles : preserves settles (_advance_phase evaluate).
Proof.
  unfold _advance_phase. settle_step; [settle_step|].
  settle_step; [settle_step|].
  assert (Htail : preserves settles
            (st <- get ;;
             if (length (List.filter can_act (players st)) =? 0)%nat
             then fast_forward evaluate (length _phase_order) else ret tt)).
  { settle_step; [settle_step|].
    destruct (length _ =? 0)%nat; [apply fast_forward_settles | settle_step]. }
  destruct a; try apply showdown_settles.
  all: settle_step; [|exact Htail].
  all: first [apply deal_flop_settles | apply deal_one_settles | settle_step].
Qed.

Lemma finish_action_settles : preserves settles (finish_action evaluate).
Proof.
  unfold finish_action. settle_step; [apply _advance_turn_settles|].
  settle_step; [settle_step|].
  settle_step; [destruct a0; [apply _advance_phase_settles | settle_step]|].
  settle_step; [settle_step|]. destruct (phase _); settle_step.
Qed.

End StreetsSettle.

(** ** The shape of [apply_action] *)

Lemma booked_bank (idx : nat) (p q : PlayerState) (pay : Z) (rec : Action)
    (st : Engine) :
  players st !! idx = Some p -> stack q = stack p - pay ->
  bank (booked idx q pay rec st) = bank st.
Proof.
  intros Hp Hq. unfold bank, sum_stack, booked, moved; simpl.
  rewrite (sum_insert _ _ _ _ _ Hp). lia.
Qed.

Lemma booked_solvent (idx : nat) (p q : PlayerState) (pay : Z) (rec : Action)
    (st : Engine) :
  stack q = stack p - pay -> 0 <= pay <= stack p ->
  solvent st -> solvent (booked idx q pay rec st).
Proof.
  intros Hq Hpay (Hs & Hpot & Hsb & Hbb). unfold solvent, booked, moved; simpl.
  repeat split; try lia; try assumption.
  apply Forall_insert_stack; [exact Hs | lia].
Qed.

Lemma action_in_legal (action : string) (legal : list string) :
  existsb (String.eqb action) legal = true <-> In action legal.
Proof.
  rewrite existsb_exists. split.
  - intros (a & Ha & E). apply String.eqb_eq in E. now subst.
  - intros H. exists action. split; [exact H | apply String.eqb_refl].
Qed.

Lemma legal_actions_names (pid : string) (st : Engine) (legal : list string) :
  legal_actions pid st = Ret legal -> forall a, In a legal -> In a action_names.
Proof.
  unfold legal_actions.
  destruct (find_player_index pid st) as [idx|]; simpl; [|discriminate].
  destruct (index (players st) idx) as [p|]; simpl; [|discriminate].
  destruct (_ || _); [intros [= <-] a []|].
  destruct (py_max _) as [h|]; simpl; [|discriminate].
  unfold action_names.
  destruct (0 <? h - committed p), (h - committed p <=? stack p),
           (h - committed p <? stack p), (0 <? stack p);
    intros [= <-] a; simpl; intuition.
Qed.

Section ApplyShape.

Variable evaluate : list string -> list string -> Z.

Lemma apply_action_no_hand (pid action : string) (amount : Z) (st : Engine) :
  phase st = None \/ phase st = Some COMPLETED ->
  apply_action evaluate pid action amount st = (Ret (RespError "No active hand"), st).
Proof.
  unfold apply_action, bind at 1, get. now intros [->| ->].
Qed.

Lemma apply_action_unknown (pid action : string) (amount : Z) (st : Engine)
    (ph : Phase) (e : exn) :
  phase st = Some ph -> ph <> COMPLETED ->
  find_player_index pid st = Raise e ->
  apply_action evaluate pid action amount st = (Raise e, st).
Proof.
  intros Hph Hne Hfind. unfold apply_action, bind at 1, get. rewrite Hph.
  destruct ph; try congruence; unfold bind at 1, read; now rewrite Hfind.
Qed.

Lemma apply_action_cannot_act (pid action : string) (amount : Z) (st : Engine)
    (ph : Phase) (idx : nat) (p : PlayerState) :
  phase st = Some ph -> ph <> COMPLETED ->
  find_player_index pid st = Ret idx -> players st !! idx = Some p ->
  is_folded p || is_all_in p = true ->
  apply_action evaluate pid action amount st
  = (Ret (RespError "Player cannot act"), st).
Proof.
  intros Hph Hne Hfind Hp Hgate. unfold apply_action, bind at 1, get. rewrite Hph.
  destruct ph; try congruence; unfold bind at 1, read; rewrite Hfind;
    rewrite (bind_run _ _ _ _ _ (player_at_run _ _ _ Hp)); now rewrite Hgate.
Qed.

Lemma apply_action_accepted (pid action : string) (amount : Z) (st : Engine)
    (ph : Phase) (idx : nat) (p : PlayerState) (legal : list string) :
  phase st = Some ph -> ph <> COMPLETED ->
  find_player_index pid st = Ret idx -> players st !! idx = Some p ->
  is_folded p || is_all_in p = false ->
  legal_actions pid st = Ret legal ->
  exists highest,
    is_maximum highest (map committed (players st)) /\
    apply_action evaluate pid action amount st =
    if existsb (String.eqb action) legal
    then perform evaluate idx p pid action amount (highest - committed p) st
    else (Ret (RespError ("Illegal action: " +:+ action +:+ ". Allowed: "
                            +:+ repr_list legal)), st).
Proof.
  intros Hph Hne Hfind Hp Hgate Hlegal.
  assert (Hnil : map committed (players st) <> []).
  { destruct (players st); [discriminate Hp | discriminate]. }
  destruct (py_max_nonempty _ Hnil) as [h Hh]. exists h.
  split; [now apply py_max_spec|].
  unfold apply_action, bind at 1, get. rewrite Hph.
  destruct ph; try congruence; unfold bind at 1, read; rewrite Hfind;
    rewrite (bind_run _ _ _ _ _ (player_at_run _ _ _ Hp)); rewrite Hgate;
    unfold bind at 1; rewrite Hlegal;
    (destruct (existsb _ legal); simpl; [|reflexivity]);
    unfold bind at 1; rewrite Hh; reflexivity.
Qed.

End ApplyShape.

Lemma legal_actions_returns (pid : string) (st : Engine) (idx : nat) :
  find_player_index pid st = Ret idx ->
  exists legal, legal_actions pid st = Ret legal.
Proof.
  intros Hfind. destruct (find_player_index_lookup _ _ _ Hfind) as (p & Hp & _).
  unfold legal_actions. rewrite Hfind. simpl. unfold index. rewrite Hp. simpl.
  destruct (_ || _); [eauto|].
  assert (Hnil : map committed (players st) <> []).
  { destruct (players st); [discriminate Hp | discriminate]. }
  destruct (py_max_nonempty _ Hnil) as [h ->]. simpl.
  destruct (0 <? _); eauto.
Qed.

Section ApplyCases.

Variable evaluate : list string -> list string -> Z.

(** Every call of [apply_action] ends in one of three ways: an error
    answer in the state it was entered in, an exception in that same
    state, or the booking of one payment followed by the turn and street
    bookkeeping. *)
Lemma apply_action_cases (pid action : string) (amount : Z) (st : Engine) :
  (exists msg,
     apply_action evaluate pid action amount st = (Ret (RespError msg), st)) \/
  (exists e, apply_action evaluate pid action amount st = (Raise e, st)) \/
  (exists idx p q pay ph legal,
     phase st = Some ph /\ ph <> COMPLETED /\
     find_player_index pid st = Ret idx /\ players st !! idx = Some p /\
     is_folded p = false /\ is_all_in p = false /\
     legal_actions pid st = Ret legal /\ In action legal /\
     stack q = stack p - pay /\ committed q = committed p + pay /\
     (0 <= stack p -> 0 <= pay <= stack p) /\
     apply_action evaluate pid action amount st
     = finish_action evaluate (booked idx q pay (mkAction pid action pay) st)).
Proof.
  destruct (phase st) as [ph|] eqn:Hph;
    [|left; eexists; apply apply_action_no_hand; now left].
  assert (Hdec : ph = COMPLETED \/ ph <> COMPLETED)
    by (destruct ph; first [now left | now right]).
  destruct Hdec as [->|Hne];
    [left; eexists; apply apply_action_no_hand; now right|].
  destruct (find_player_index pid st) as [idx|e] eqn:Hfind;
    [|right; left; exists e; now apply (apply_action_unknown _ _ _ _ _ ph)].
  destruct (find_player_index_lookup _ _ _ Hfind) as (p & Hp & Hid).
  destruct (is_folded p || is_all_in p) eqn:Hgate;
    [left; eexists; now apply (apply_action_cannot_act _ _ _ _ _ ph idx p)|].
  destruct (legal_actions_returns _ _ _ Hfind) as [legal Hlegal].
  destruct (apply_action_accepted evaluate pid action amount st ph idx p legal
              Hph Hne Hfind Hp Hgate Hlegal) as (h & Hmax & Heq).
  destruct (existsb (String.eqb action) legal) eqn:Hin; [|left; eauto].
  apply action_in_legal in Hin.
  pose proof (max_committed_ge _ _ _ _ Hp Hmax) as Hge.
  apply orb_false_iff in Hgate as [Hf Ha].
  unfold perform in Heq.
  destruct (ledger_step_run idx p pid action amount (h - committed p) st Hp)
    as [(msg & Hrun & _) | [(q & pay & Hrun & Hq1 & Hq2 & _ & _ & _ & _ & Hpay)
                           | (Hrun & Hnot)]].
  - left. exists msg. rewrite Heq. now rewrite (bind_run _ _ _ _ _ Hrun).
  - right; right. exists idx, p, q, pay, ph, legal.
    repeat (split; [first [assumption | reflexivity]|]).
    split; [intros; apply Hpay; lia|].
    rewrite Heq. now rewrite (bind_run _ _ _ _ _ Hrun).
  - exfalso. apply Hnot. eapply legal_actions_names; eauto.
Qed.

(** Whatever the call, the chips on the table are the same afterwards,
    and a solvent table stays solvent. *)
Lemma apply_action_bank (pid action : string) (amount : Z) (st : Engine) :
  bank (snd (apply_action evaluate pid action amount st)) = bank st.
Proof.
  destruct (apply_action_cases pid action amount st)
    as [(msg & ->) | [(e & ->) | (idx & p & q & pay & ph & legal & _ & _ & _ & Hp
                                  & _ & _ & _ & _ & Hq & _ & _ & ->)]];
    try reflexivity.
  rewrite (settles_bank _ _ (finish_action_settles evaluate _)).
  now apply (booked_bank idx p).
Qed.

Lemma apply_action_solvent (pid action : string) (amount : Z) (st : Engine) :
  solvent st -> solvent (snd (apply_action evaluate pid action amount st)).
Proof.
  intros Hs.
  destruct (apply_action_cases pid action amount st)
    as [(msg & ->) | [(e & ->) | (idx & p & q & pay & ph & legal & _ & _ & _ & Hp
                                  & _ & _ & _ & _ & Hq & _ & Hpay & ->)]];
    try exact Hs.
  apply (settles_solvent _ _ (finish_action_settles evaluate _)).
  apply (booked_solvent idx p); [exact Hq | | exact Hs].
  apply Hpay. destruct Hs as [Hall _]. rewrite Forall_forall in Hall.
  apply Hall, list_elem_of_lookup. eauto.
Qed.

End ApplyCases.

(** ** The tied seats are the co-winners *)

Lemma zip_seq_filter (g : nat * PlayerState -> bool) (g' : nat -> bool)
    (ps : list PlayerState) (k : nat) :
  (forall j p, ps !! j = Some p -> g ((k + j)%nat, p) = g' (k + j)%nat) ->
  map fst (List.filter g (zip (seq k (length ps)) ps))
  = List.filter g' (seq k (length ps)).
Proof.
  revert k. induction ps as [|x ps IH]; intros k H; [reflexivity|].
  simpl. pose proof (H 0%nat x eq_refl) as H0. rewrite Nat.add_0_r in H0.
  rewrite <- H0.
  assert (Hrest : map fst (List.filter g (zip (seq (S k) (length ps)) ps))
                  = List.filter g' (seq (S k) (length ps))).
  { apply IH. intros j p Hj. specialize (H (S j) p Hj).
    now replace (S k + j)%nat with (k + S j)%nat by lia. }
  destruct (g (k, x)); simpl; now rewrite Hrest.
Qed.

Lemma enumerate_filter (g : nat * PlayerState -> bool) (g' : nat -> bool)
    (ps : list PlayerState) :
  (forall j p, ps !! j = Some p -> g (j, p) = g' j) ->
  map fst (List.filter g (enumerate ps)) = List.filter g' (seq 0 (length ps)).
Proof. intros H. unfold enumerate. now apply zip_seq_filter. Qed.

Lemma filter_filter {A} (f g : A -> bool) (l : list A) :
  List.filter f (List.filter g l) = List.filter (fun x => g x && f x) l.
Proof.
  induction l as [|x l IH]; [reflexivity|]. simpl.
  destruct (g x); simpl; [destruct (f x)|]; now rewrite IH.
Qed.

Lemma filter_map_swap {A B} (f : B -> bool) (h : A -> B) (l : list A) :
  List.filter f (map h l) = map h (List.filter (fun x => f (h x)) l).
Proof.
  induction l as [|x l IH]; [reflexivity|]. simpl.
  destruct (f (h x)); simpl; now rewrite IH.
Qed.

Section Tie.

Variable evaluate : list string -> list string -> Z.

(** The tied seats are the unfolded seats of least score, in seat order. *)
Lemma tied_as_filter (st : Engine) (best : Z) (x : nat * PlayerState)
    (r : list (Z * (nat * PlayerState))) :
  scored evaluate st = (best, x) :: r ->
  tied evaluate st
  = List.filter (fun ip => score_of evaluate st (snd ip) =? best) (unfolded st).
Proof.
  intros E. unfold tied. rewrite E. rewrite <- E. unfold scored.
  rewrite sort_by_score_filter, filter_map_swap, map_map. simpl.
  apply map_id.
Qed.

Lemma best_is_least (st : Engine) (best : Z) (x : nat * PlayerState)
    (r : list (Z * (nat * PlayerState))) :
  scored evaluate st = (best, x) :: r ->
  (forall ip, In ip (unfolded st) -> best <= score_of evaluate st (snd ip)) /\
  (exists ip, In ip (unfolded st) /\ score_of evaluate st (snd ip) = best).
Proof.
  intros E. split.
  - intros ip Hip.
    apply (sort_by_score_head _ _ _ E (score_of evaluate st (snd ip), ip)).
    apply in_map_iff. exists ip. auto.
  - assert (Hin : In (best, x) (scored evaluate st)) by (rewrite E; now left).
    apply sort_by_score_In, in_map_iff in Hin as (ip & [= Hs ->] & Hip).
    exists x. auto.
Qed.

Lemma is_co_winner_spec (st : Engine) (i : nat) :
  is_co_winner evaluate st i = true <-> co_winner evaluate st i.
Proof.
  unfold is_co_winner, co_winner. destruct (players st !! i) as [p|] eqn:Hp.
  - rewrite andb_true_iff, negb_true_iff, forallb_forall. split.
    + intros [Hf Hall]. exists p. repeat split; auto. intros j q Hq Hfq.
      assert (Hin : In q (players st))
        by (apply list_elem_of_In, list_elem_of_lookup; eauto).
      specialize (Hall q Hin). rewrite Hfq in Hall. simpl in Hall. lia.
    + intros (p' & [= <-] & Hf & Hall). split; [exact Hf|]. intros q Hq.
      apply list_elem_of_In, list_elem_of_lookup in Hq as [j Hj].
      destruct (is_folded q) eqn:Hfq; [reflexivity|]. simpl.
      apply Z.leb_le. eauto.
  - split; [discriminate | intros (p & [=] & _)].
Qed.

Lemma tied_seats (st : Engine) :
  map fst (tied evaluate st) = co_winners evaluate st.
Proof.
  unfold co_winners.
  destruct (scored evaluate st) as [|[best x] r] eqn:E.
  - (* nobody is left in the hand *)
    unfold scored in E. apply sort_by_score_nil, map_eq_nil in E.
    rewrite (tied_nil evaluate st E). simpl.
    rewrite <- (enumerate_filter (fun ip => negb (is_folded (snd ip)))).
    + fold (unfolded st). now rewrite E.
    + intros j p Hj. simpl. unfold is_co_winner. rewrite Hj.
      destruct (is_folded p) eqn:Hf; [reflexivity|]. exfalso.
      assert (Hin : In (j, p) (unfolded st)) by now apply unfolded_In.
      now rewrite E in Hin.
  - rewrite (tied_as_filter st best x r E). unfold unfolded.
    rewrite filter_filter. apply enumerate_filter. intros j p Hj. simpl.
    unfold is_co_winner. rewrite Hj.
    destruct (is_folded p) eqn:Hf; [reflexivity|]. simpl.
    destruct (best_is_least st best x r E) as [Hleast ([j0 p0] & Hin0 & Hbest0)].
    apply unfolded_In in Hin0 as [Hj0 Hf0]. simpl in Hbest0.
    assert (Hp : best <= score_of evaluate st p).
    { apply (Hleast (j, p)). now apply unfolded_In. }
    apply eq_true_iff_eq. rewrite Z.eqb_eq, forallb_forall. split.
    + intros Heq q Hq. apply list_elem_of_In, list_elem_of_lookup in Hq as [jq Hjq].
      destruct (is_folded q) eqn:Hfq; [reflexivity|]. simpl. apply Z.leb_le.
      rewrite Heq. apply (Hleast (jq, q)). now apply unfolded_In.
    + intros Hall.
      assert (Hq0 : In p0 (players st))
        by (apply list_elem_of_In, list_elem_of_lookup; eauto).
      specialize (Hall p0 Hq0). rewrite Hf0 in Hall. simpl in Hall.
      apply Z.leb_le in Hall. lia.
Qed.

Lemma co_winners_spec (st : Engine) (i : nat) :
  In i (co_winners evaluate st) <-> co_winner evaluate st i.
Proof.
  unfold co_winners. rewrite filter_In, is_co_winner_spec. split; [tauto|].
  intros H. split; [|exact H]. destruct H as (p & Hp & _).
  apply in_seq. apply lookup_lt_Some in Hp. lia.
Qed.

(** The first co-winner holds the lowest seat index among them. *)
Lemma co_winners_first (st : Engine) (w0 : nat) (rest : list nat) :
  co_winners evaluate st = w0 :: rest ->
  forall j, In j (co_winners evaluate st) -> (w0 <= j)%nat.
Proof.
  unfold co_winners. generalize (is_co_winner evaluate st) as g.
  generalize 0%nat as k. generalize (length (players st)) as n.
  induction n as [|n IH]; intros k g; simpl; [discriminate|].
  destruct (g k) eqn:Hg.
  - intros [= <- <-] j [<-|Hj]; [lia|].
    apply filter_In in Hj as [Hj _]. apply in_seq in Hj. lia.
  - apply IH.
Qed.

Lemma co_winners_NoDup (st : Engine) : List.NoDup (co_winners evaluate st).
Proof. apply List.NoDup_filter, List.seq_NoDup. Qed.

Lemma share_out_lookup (v : Z) (ws : list (nat * PlayerState))
    (ps : list PlayerState) (i : nat) :
  List.NoDup (map fst ws) ->
  (In i (map fst ws) ->
   share_out v ps ws !! i
   = (fun q => set_stack (stack q + v) q) <$> ps !! i) /\
  (~ In i (map fst ws) ->
   share_out v ps ws !! i = ps !! i).
Proof.
  revert ps. induction ws as [|w ws IH]; intros ps Hnd; simpl.
  - split; [intros [] | reflexivity].
  - apply List.NoDup_cons_iff in Hnd as [Hw Hnd].
    destruct (IH (credit (fst w) v ps) Hnd) as [IH1 IH2]. split.
    + intros [Heq|Hi].
      * subst i. rewrite (IH2 Hw). apply list_lookup_alter_eq.
      * rewrite (IH1 Hi). unfold credit. rewrite list_lookup_alter_ne; [reflexivity|].
        intros Heq. apply Hw. now rewrite Heq.
    + intros Hi. rewrite IH2 by tauto. unfold credit.
      apply list_lookup_alter_ne. tauto.
Qed.

Lemma zip_seq_snd (f : PlayerState -> bool) (ps : list PlayerState) (k : nat) :
  map snd (List.filter (fun ip => f (snd ip)) (zip (seq k (length ps)) ps))
  = List.filter f ps.
Proof.
  revert k. induction ps as [|x ps IH]; intros k; [reflexivity|]. simpl.
  destruct (f x); simpl; now rewrite IH.
Qed.

Lemma unfolded_count (st : Engine) :
  length (unfolded st)
  = length (List.filter (fun p => negb (is_folded p)) (players st)).
Proof.
  unfold unfolded, enumerate.
  rewrite <- (zip_seq_snd (fun p => negb (is_folded p)) (players st) 0).
  now rewrite length_map.
Qed.

Lemma tied_ids (st : Engine) :
  map (fun ip => player_id (snd ip)) (tied evaluate st)
  = seat_ids st (map fst (tied evaluate st)).
Proof.
  unfold seat_ids. rewrite map_map. apply map_ext_in. intros [i p] Hip.
  apply tied_unfolded, unfolded_In in Hip as [Hp _]. simpl. now rewrite Hp.
Qed.

Lemma set_stack_same (p : PlayerState) (a : Z) :
  a = 0 -> set_stack (stack p + a) p = p.
Proof. intros ->. destruct p; unfold set_stack; simpl. now rewrite Z.add_0_r. Qed.

(** C8.  When at least two seats have not folded at the showdown, the
    co-winners being the unfolded seats of least score (there is at least
    one, [k] of them), the distribution returns: it adds [pot div k] to
    the stack of every co-winner and [pot mod k] on top to the co-winner
    of lowest seat index, touches no other stack and no other field of a
    seat, appends one entry with the winners in seat order, the share and
    the remainder, and empties the pot.  This covers the case [k >= 2] of
    a tie. *)
Theorem tie_split (st : Engine) :
  (2 <= length (List.filter (fun p => negb (is_folded p)) (players st)))%nat ->
  let ws := co_winners evaluate st in
  let k := Z.of_nat (length ws) in
  (forall i, In i ws <-> co_winner evaluate st i) /\
  (forall w0 rest, ws = w0 :: rest -> forall j, In j ws -> (w0 <= j)%nat) /\
  (1 <= length ws)%nat /\
  exists st',
    evaluate_and_distribute evaluate st = (Ret tt, st') /\
    total_pot st' = 0 /\
    pot_history st'
    = pot_history st
      ++ [PotSplit (seat_ids st ws) (total_pot st / k) (total_pot st mod k)] /\
    length (players st') = length (players st) /\
    forall i p, players st !! i = Some p ->
      players st' !! i = Some (set_stack (stack p + payout evaluate st i) p).
Proof.
  intros Htwo. cbv zeta. rewrite <- unfolded_count in Htwo.
  split; [apply co_winners_spec|]. split; [apply co_winners_first|].
  assert (Hne : unfolded st <> []) by (destruct (unfolded st); simpl in *; [lia|discriminate]).
  pose proof (tied_nonempty evaluate st Hne) as Hty.
  pose proof (tied_seats st) as Hws.
  assert (Hlen : length (tied evaluate st) = length (co_winners evaluate st))
    by (rewrite <- Hws; now rewrite length_map).
  split.
  { rewrite <- Hlen. destruct (tied evaluate st); [congruence | simpl; lia]. }
  exists (split_among (tied evaluate st) st). split.
  { rewrite evaluate_and_distribute_run.
    destruct (unfolded st) as [|w [|w' rest]]; simpl in Htwo; try lia. reflexivity. }
  split; [reflexivity|]. split.
  { unfold split_among; simpl. now rewrite tied_ids, Hws, Hlen. }
  pose proof (co_winners_NoDup st) as Hnd. rewrite <- Hws in Hnd.
  unfold split_among, payout. rewrite <- Hlen, <- Hws.
  cbn [players set_total_pot set_pot_history set_players].
  set (share := total_pot st / Z.of_nat (length (tied evaluate st))).
  set (rem := total_pot st mod Z.of_nat (length (tied evaluate st))).
  split.
  { destruct (tied evaluate st) as [|first more]; [congruence|].
    now rewrite credit_length, share_out_length. }
  intros i p Hp.
  destruct (share_out_lookup share (tied evaluate st) (players st) i Hnd)
    as [Hin Hout].
  assert (Hcw : is_co_winner evaluate st i = true <-> In i (map fst (tied evaluate st))).
  { rewrite Hws. unfold co_winners. rewrite filter_In, in_seq.
    apply lookup_lt_Some in Hp. intuition lia. }
  destruct (tied evaluate st) as [|first more] eqn:Ety; [congruence|].
  cbn [map fst]. unfold credit at 1.
  destruct (Nat.eqb_spec i (fst first)) as [->|Hnf].
  - rewrite list_lookup_alter_eq, Hin by now left.
    rewrite (proj2 Hcw) by now left. rewrite Hp. simpl.
    f_equal. unfold set_stack; simpl. f_equal. lia.
  - rewrite list_lookup_alter_ne by congruence.
    destruct (is_co_winner evaluate st i) eqn:Hi.
    + rewrite Hin by now apply Hcw. rewrite Hp. simpl.
      f_equal. unfold set_stack; simpl. f_equal. lia.
    + rewrite Hout by (intros H; apply Hcw in H; congruence).
      rewrite Hp. f_equal. symmetry. now apply set_stack_same.
Qed.

End Tie.

(** ** Properties of a single call *)

Section Calls.

Variable evaluate : list string -> list string -> Z.

Lemma finish_action_answer (st st' : Engine) (r : Response) :
  finish_action evaluate st = (Ret r, st') ->
  exists ph, phase st' = Some ph /\ r = RespOk (Phase_value ph) (total_pot st').
Proof.
  unfold finish_action. intros H.
  apply bind_ret_inv in H as (? & s1 & _ & H).
  apply bind_ret_inv in H as (? & s2 & _ & H).
  apply bind_ret_inv in H as (? & s3 & _ & H).
  apply bind_ret_inv in H as (s4 & s5 & Hget & H).
  unfold get in Hget. injection Hget as <- <-.
  destruct (phase s3) as [ph|] eqn:Hph; [|discriminate].
  unfold ret in H. injection H as <- <-. eauto.
Qed.

Lemma committed_strip (ps : list PlayerState) :
  map committed (map strip ps) = map committed ps.
Proof. rewrite map_map. now apply map_ext. Qed.

Lemma settles_committed (st st' : Engine) :
  settles st st' -> map committed (players st') = map committed (players st).
Proof.
  intros H. rewrite <- (committed_strip (players st')), (settles_seats _ _ H).
  apply committed_strip.
Qed.

(** C10.  A successful call of [apply_action], street changes, fast-forward
    and showdown included, leaves the sum of the stacks plus the pot
    exactly as it was.  [committed] does not hold chips of its own: the
    call adds to the sum of [committed] the amount it logs, which has
    already been counted in the pot. *)
Theorem apply_action_conserves (pid action : string) (amount : Z)
    (st st' : Engine) (ph : string) (pot : Z) :
  apply_action evaluate pid action amount st = (Ret (RespOk ph pot), st') ->
  sum_stack st' + total_pot st' = sum_stack st + total_pot st /\
  exists pay,
    actions st' = actions st ++ [mkAction pid action pay] /\
    sum_committed st' = sum_committed st + pay.
Proof.
  intros H. split.
  - pose proof (apply_action_bank evaluate pid action amount st) as Hb.
    rewrite H in Hb. exact Hb.
  - destruct (apply_action_cases evaluate pid action amount st)
      as [(msg & E) | [(e & E) | (idx & p & q & pay & ph' & legal & _ & _ & _ & Hp
                                  & _ & _ & _ & _ & _ & Hq & _ & E)]];
      rewrite E in H; try discriminate.
    pose proof (finish_action_settles evaluate
                  (booked idx q pay (mkAction pid action pay) st)) as Hs.
    rewrite H in Hs. simpl in Hs. exists pay. split.
    + now rewrite (settles_actions _ _ Hs).
    + unfold sum_committed. rewrite (settles_committed _ _ Hs).
      unfold booked, moved; simpl. rewrite (sum_insert _ _ _ _ _ Hp). lia.
Qed.

(** A request outside the legal set, or a bet or raise of an amount that
    is not positive or exceeds the stack, is answered by an error in the
    unchanged state. *)
Lemma request_rejected (pid action : string) (amount : Z) (st : Engine)
    (idx : nat) (p : PlayerState) (legal : list string) :
  find_player_index pid st = Ret idx ->
  players st !! idx = Some p ->
  legal_actions pid st = Ret legal ->
  (~ In action legal \/
   ((action = "bet" \/ action = "raise") /\ (amount <= 0 \/ stack p < amount))) ->
  exists msg,
    apply_action evaluate pid action amount st = (Ret (RespError msg), st).
Proof.
  intros Hfind Hp Hlegal Hbad.
  destruct (phase st) as [ph|] eqn:Hph;
    [|eexists; apply apply_action_no_hand; now left].
  assert (Hdec : ph = COMPLETED \/ ph <> COMPLETED)
    by (destruct ph; first [now left | now right]).
  destruct Hdec as [->|Hne]; [eexists; apply apply_action_no_hand; now right|].
  destruct (is_folded p || is_all_in p) eqn:Hgate;
    [eexists; now apply (apply_action_cannot_act _ _ _ _ _ ph idx p)|].
  destruct (apply_action_accepted evaluate pid action amount st ph idx p legal
              Hph Hne Hfind Hp Hgate Hlegal) as (h & _ & Heq).
  destruct (existsb (String.eqb action) legal) eqn:Hin; [|eauto].
  apply action_in_legal in Hin.
  destruct Hbad as [Hout | [Hname Hamt]]; [contradiction|].
  unfold perform in Heq.
  destruct (ledger_step_run idx p pid action amount (h - committed p) st Hp)
    as [(m & Hrun & _) | [(q & pay & _ & _ & _ & _ & _ & _ & Hok & _) | (_ & Hnot)]].
  - exists m. rewrite Heq. now rewrite (bind_run _ _ _ _ _ Hrun).
  - specialize (Hok Hname). lia.
  - exfalso. apply Hnot. unfold action_names. simpl. intuition.
Qed.

(** An error answer always comes with the state the call was entered in. *)
Lemma error_leaves_state (pid action : string) (amount : Z) (st st' : Engine)
    (msg : string) :
  apply_action evaluate pid action amount st = (Ret (RespError msg), st') ->
  st' = st.
Proof.
  intros H.
  destruct (apply_action_cases evaluate pid action amount st)
    as [(m & E) | [(e & E) | (? & ? & ? & ? & ? & ? & _ & _ & _ & _ & _ & _ & _ & _
                              & _ & _ & _ & E)]];
    rewrite E in H; [congruence | discriminate |].
  apply finish_action_answer in H as (? & _ & ?). discriminate.
Qed.

(** C5.  A request that names an action outside the seat's legal set, or a
    bet or raise whose amount is not positive or exceeds the stack, is
    answered by an error and the engine is left exactly in the state it
    was in; and whenever the answer is an error, the state is the one the
    call was entered in. *)
Theorem rejection_leaves_state (pid action : string) (amount : Z) (st : Engine)
    (idx : nat) (p : PlayerState) (legal : list string) :
  find_player_index pid st = Ret idx ->
  players st !! idx = Some p ->
  legal_actions pid st = Ret legal ->
  (~ In action legal \/
   ((action = "bet" \/ action = "raise") /\ (amount <= 0 \/ stack p < amount))) ->
  (exists msg,
     apply_action evaluate pid action amount st = (Ret (RespError msg), st)) /\
  (forall msg st',
     apply_action evaluate pid action amount st = (Ret (RespError msg), st') ->
     st' = st).
Proof.
  intros Hfind Hp Hlegal Hbad. split.
  - now apply (request_rejected pid action amount st idx p legal).
  - intros msg st'. apply error_leaves_state.
Qed.

(** C9, as the code has it.  With no active hand (the phase unset or
    COMPLETED) the call is answered by the error [No active hand] and the
    state is untouched.  During a hand, a seat identifier that no seat
    carries makes the call leave by the exception [KeyError] of
    [find_player_index], with the state untouched as well. *)
Theorem structural_errors (pid action : string) (amount : Z) (st : Engine) :
  (phase st = None \/ phase st = Some COMPLETED ->
   apply_action evaluate pid action amount st
   = (Ret (RespError "No active hand"), st)) /\
  (forall ph, phase st = Some ph -> ph <> COMPLETED ->
   (forall p, In p (players st) -> player_id p <> pid) ->
   apply_action evaluate pid action amount st = (Raise (KeyError pid), st)).
Proof.
  split; [apply apply_action_no_hand|].
  intros ph Hph Hne Hids. apply (apply_action_unknown _ _ _ _ _ ph); auto.
  now apply find_from_none.
Qed.

Lemma legal_means_can_act (pid : string) (st : Engine) (idx : nat)
    (p : PlayerState) (legal : list string) (a : string) :
  find_player_index pid st = Ret idx -> players st !! idx = Some p ->
  legal_actions pid st = Ret legal -> In a legal ->
  is_folded p = false /\ is_all_in p = false.
Proof.
  intros Hfind Hp. unfold legal_actions. rewrite Hfind. simpl.
  unfold index. rewrite Hp. simpl.
  destruct (is_folded p), (is_all_in p); simpl; try (intros [= <-] []); auto.
Qed.

Lemma map_insert {A B} (f : A -> B) (l : list A) (i : nat) (x : A) :
  map f (<[i := x]> l) = <[i := f x]> (map f l).
Proof.
  revert i. induction l as [|y l IH]; intros [|i]; simpl; try reflexivity.
  now rewrite IH.
Qed.

Lemma ledger_step_raise (idx : nat) (p : PlayerState) (pid : string)
    (amount to_call : Z) :
  ledger_step idx p pid "raise" amount to_call =
  if (amount <=? 0) || (stack p <? amount)
  then ret (Some (RespError "Invalid raise amount"))
  else
    (pay_in idx (Z.min (stack p) (to_call + amount)) ;;
     log_action pid "raise" (Z.min (stack p) (to_call + amount)) ;;
     ret None).
Proof. reflexivity. Qed.

(** C7.  When raise is legal for the seat, [apply_action] with the action
    [raise] answers [Invalid raise amount], changing nothing, exactly when
    the amount is not positive or exceeds the stack.  Otherwise it cannot
    answer an error: it moves [min(stack, to_call + amount)] chips from
    the stack of the seat to its [committed] and to the pot, marks the
    seat all-in when the stack has reached 0, logs the raise with the
    amount really moved, and goes on with the turn and the streets, which
    leave the log and every [committed] as the raise made them. *)
Theorem raise_semantics (pid : string) (amount : Z) (st : Engine) (ph : Phase)
    (idx : nat) (p : PlayerState) (legal : list string) :
  phase st = Some ph -> ph <> COMPLETED ->
  find_player_index pid st = Ret idx -> players st !! idx = Some p ->
  legal_actions pid st = Ret legal -> In "raise" legal ->
  exists highest,
    is_maximum highest (map committed (players st)) /\
    let to_call := highest - committed p in
    let pay := Z.min (stack p) (to_call + amount) in
    (amount <= 0 \/ stack p < amount ->
     apply_action evaluate pid "raise" amount st
     = (Ret (RespError "Invalid raise amount"), st)) /\
    (0 < amount <= stack p ->
     let q := mkPlayerState (player_id p) (stack p - pay) (hole_cards p)
                (committed p + pay) false (stack p - pay =? 0) (seat p) in
     let st1 := booked idx q pay (mkAction pid "raise" pay) st in
     apply_action evaluate pid "raise" amount st = finish_action evaluate st1 /\
     forall r st', finish_action evaluate st1 = (r, st') ->
       (forall msg, r <> Ret (RespError msg)) /\
       actions st' = actions st ++ [mkAction pid "raise" pay] /\
       map committed (players st')
       = <[idx := committed p + pay]> (map committed (players st))).
Proof.
  intros Hph Hne Hfind Hp Hlegal Hin.
  destruct (legal_means_can_act _ _ _ _ _ _ Hfind Hp Hlegal Hin) as [Hf Ha].
  assert (Hgate : is_folded p || is_all_in p = false) by now rewrite Hf, Ha.
  destruct (apply_action_accepted evaluate pid "raise" amount st ph idx p legal
              Hph Hne Hfind Hp Hgate Hlegal) as (h & Hmax & Heq).
  rewrite (proj2 (action_in_legal _ _) Hin) in Heq.
  exists h. split; [exact Hmax|]. cbv zeta. split.
  - intros Hbad. rewrite Heq. unfold perform. rewrite ledger_step_raise.
    destruct (Z.leb_spec amount 0), (Z.ltb_spec (stack p) amount);
      try reflexivity. lia.
  - intros Hok.
    set (pay := Z.min (stack p) (h - committed p + amount)).
    assert (Hq : paid_seat p pay
                 = mkPlayerState (player_id p) (stack p - pay) (hole_cards p)
                     (committed p + pay) false (stack p - pay =? 0) (seat p)).
    { unfold paid_seat. destruct p; simpl in *. subst.
      destruct (_ - pay =? 0); reflexivity. }
    rewrite <- Hq. split.
    + rewrite Heq. unfold perform. rewrite ledger_step_raise.
      destruct (Z.leb_spec amount 0), (Z.ltb_spec (stack p) amount); try lia.
      cbn [orb]. unfold bind at 1.
      rewrite (bind_run _ _ _ _ _ (pay_in_run _ _ _ _ Hp)). reflexivity.
    + intros r st' Hfin.
      pose proof (finish_action_settles evaluate
                    (booked idx (paid_seat p pay) pay (mkAction pid "raise" pay) st))
        as Hs.
      rewrite Hfin in Hs. simpl in Hs. split; [|split].
      * intros msg ->. apply finish_action_answer in Hfin as (? & _ & ?).
        discriminate.
      * now rewrite (settles_actions _ _ Hs).
      * rewrite (settles_committed _ _ Hs). unfold booked, moved; simpl.
        rewrite map_insert. f_equal. rewrite Hq. reflexivity.
Qed.

End Calls.

(** ** Streets: one at a time, and all at once *)

Lemma some_active_spec (ps : list PlayerState) :
  (exists p, In p ps /\ is_folded p = false /\ is_all_in p = false) ->
  (length (List.filter can_act ps) =? 0)%nat = false.
Proof.
  intros (p & Hp & Hact). apply can_act_spec in Hact.
  destruct (length (List.filter can_act ps) =? 0)%nat eqn:E; [|reflexivity].
  apply Nat.eqb_eq in E.
  assert (Hin : In p (List.filter can_act ps)) by (apply filter_In; auto).
  destruct (List.filter can_act ps); [destruct Hin | discriminate].
Qed.

Section Streets.

Variable evaluate : list string -> list string -> Z.

Lemma fast_forward_unfold (fuel : nat) :
  fast_forward evaluate (S fuel) =
  (st <- get ;;
   if phase_is SHOWDOWN st || phase_is COMPLETED st then ret tt
   else
     nxt <- read next_phase ;;
     modify (set_phase (Some nxt)) ;;
     match nxt with
     | TURN => deal_one ;; fast_forward evaluate fuel
     | RIVER => deal_one ;; fast_forward evaluate fuel
     | SHOWDOWN => showdown evaluate
     | _ => fast_forward evaluate fuel
     end).
Proof. reflexivity. Qed.

(** One turn of the loop from the river: the showdown. *)
Lemma fast_forward_river (fuel : nat) (s : Engine) :
  phase s = Some RIVER ->
  fast_forward evaluate (S fuel) s
  = showdown evaluate (set_phase (Some SHOWDOWN) s).
Proof.
  intros Hph. rewrite fast_forward_unfold.
  destruct s as [ps ph0 bi ca dk cc hid hist acts sb bb pot seed].
  simpl in Hph. subst ph0. reflexivity.
Qed.

(** One turn of the loop from the flop or the turn: burn one, reveal one. *)
Lemma fast_forward_deal (fuel : nat) (s : Engine) (ph : Phase) :
  phase s = Some ph -> ph = FLOP \/ ph = TURN ->
  match spec_enter ph (community_cards s) (deck s) with
  | Some (ph', cc', dk') =>
      fast_forward evaluate (S fuel) s
      = fast_forward evaluate fuel (with_board ph' cc' dk' s)
  | None => exists s1, fast_forward evaluate (S fuel) s = (Raise IndexError, s1)
  end.
Proof.
  intros Hph Hstreet. rewrite fast_forward_unfold.
  destruct s as [ps ph0 bi ca dk cc hid hist acts sb bb pot seed].
  simpl in Hph. subst ph0.
  destruct Hstreet as [->| ->]; cbn [spec_enter community_cards deck];
    destruct dk as [|b [|c d]]; try (eexists; reflexivity); reflexivity.
Qed.

Lemma with_board_twice (ph1 ph2 : Phase) (cc1 cc2 dk1 dk2 : list string)
    (s : Engine) :
  with_board ph2 cc2 dk2 (with_board ph1 cc1 dk1 s) = with_board ph2 cc2 dk2 s.
Proof. reflexivity. Qed.

Lemma with_board_showdown (s : Engine) :
  set_phase (Some SHOWDOWN) s
  = with_board SHOWDOWN (community_cards s) (deck s) s.
Proof. now destruct s. Qed.

Lemma spec_enter_next (ph ph' : Phase) (cc dk cc' dk' : list string) :
  spec_enter ph cc dk = Some (ph', cc', dk') ->
  streets_left ph = S (streets_left ph').
Proof.
  destruct ph; simpl; try discriminate.
  - destruct dk as [|? [|? [|? [|? ?]]]]; try discriminate. now intros [= <- _ _].
  - destruct dk as [|? [|? ?]]; try discriminate. now intros [= <- _ _].
  - destruct dk as [|? [|? ?]]; try discriminate. now intros [= <- _ _].
  - now intros [= <- _ _].
Qed.

Lemma spec_path_S (n : nat) (ph : Phase) (cc dk : list string) :
  spec_path (S n) ph cc dk =
  match spec_enter ph cc dk with
  | Some (ph', cc', dk') => spec_path n ph' cc' dk'
  | None => None
  end.
Proof. reflexivity. Qed.

(** The loop, entered after the flop, runs the rule out to the showdown;
    its fuel is never what ends it. *)
Lemma fast_forward_run_out (n fuel : nat) (s : Engine) (ph : Phase) :
  phase s = Some ph -> ph <> PRE_FLOP -> streets_left ph = S n ->
  (S n <= fuel)%nat ->
  match spec_path (S n) ph (community_cards s) (deck s) with
  | Some (_, cc', dk') =>
      fast_forward evaluate fuel s = showdown evaluate (with_board SHOWDOWN cc' dk' s)
  | None => exists s1, fast_forward evaluate fuel s = (Raise IndexError, s1)
  end.
Proof.
  revert fuel s ph. induction n as [|n IH]; intros fuel s ph Hph Hpre Hleft Hfuel;
    (destruct fuel as [|fuel]; [lia|]).
  - assert (ph = RIVER) as -> by (destruct ph; simpl in Hleft; congruence).
    cbn [spec_path spec_enter]. rewrite (fast_forward_river _ _ Hph).
    now rewrite with_board_showdown.
  - assert (Hstreet : ph = FLOP \/ ph = TURN)
      by (destruct ph; simpl in Hleft; auto; congruence).
    pose proof (fast_forward_deal fuel s ph Hph Hstreet) as Hdeal.
    rewrite spec_path_S.
    destruct (spec_enter ph (community_cards s) (deck s)) as [[[ph' cc1] dk1]|] eqn:E;
      [|exact Hdeal].
    pose proof (spec_enter_next _ _ _ _ _ _ E) as Hnext.
    assert (Hph' : ph' <> PRE_FLOP)
      by (destruct Hstreet as [->| ->], ph'; simpl in Hnext; congruence).
    specialize (IH fuel (with_board ph' cc1 dk1 s) ph' eq_refl Hph'
                  ltac:(lia) ltac:(lia)).
    change (community_cards (with_board ph' cc1 dk1 s)) with cc1 in IH.
    change (deck (with_board ph' cc1 dk1 s)) with dk1 in IH.
    destruct (spec_path (S n) ph' cc1 dk1) as [[[ph2 cc2] dk2]|].
    + rewrite Hdeal, IH. now rewrite with_board_twice.
    + destruct IH as [s1 IH]. exists s1. now rewrite Hdeal.
Qed.

(** The first phase change of [_advance_phase], before it looks at who can
    still act. *)
Lemma advance_first (s : Engine) (ph : Phase) :
  phase s = Some ph -> ph = PRE_FLOP \/ ph = FLOP \/ ph = TURN ->
  match spec_enter ph (community_cards s) (deck s) with
  | Some (ph', cc', dk') =>
      _advance_phase evaluate s =
      if (length (List.filter can_act (players s)) =? 0)%nat
      then fast_forward evaluate (length _phase_order) (with_board ph' cc' dk' s)
      else (Ret tt, with_board ph' cc' dk' s)
  | None => exists s1, _advance_phase evaluate s = (Raise IndexError, s1)
  end.
Proof.
  intros Hph Hstreet.
  destruct s as [ps ph0 bi ca dk cc hid hist acts sb bb pot seed].
  simpl in Hph. subst ph0.
  destruct Hstreet as [->|[->| ->]]; cbn [spec_enter community_cards deck].
  - destruct dk as [|b [|c1 [|c2 [|c3 d]]]];
      try (eexists; reflexivity).
    cbn -[evaluate_and_distribute fast_forward].
    now destruct (length (List.filter can_act ps) =? 0)%nat.
  - destruct dk as [|b [|c d]]; try (eexists; reflexivity).
    cbn -[evaluate_and_distribute fast_forward].
    now destruct (length (List.filter can_act ps) =? 0)%nat.
  - destruct dk as [|b [|c d]]; try (eexists; reflexivity).
    cbn -[evaluate_and_distribute fast_forward].
    now destruct (length (List.filter can_act ps) =? 0)%nat.
Qed.

(** After the river the showdown runs, whoever can act. *)
Lemma advance_river (s : Engine) :
  phase s = Some RIVER ->
  _advance_phase evaluate s = showdown evaluate (set_phase (Some SHOWDOWN) s).
Proof.
  intros Hph. destruct s as [ps ph0 bi ca dk cc hid hist acts sb bb pot seed].
  simpl in Hph. subst ph0. reflexivity.
Qed.

(** A completed round with nobody left to act: all the remaining phase
    changes at once. *)
Lemma advance_fast (s : Engine) (ph : Phase) :
  phase s = Some ph -> is_street ph ->
  (length (List.filter can_act (players s)) =? 0)%nat = true ->
  match spec_run_out ph (community_cards s) (deck s) with
  | Some (_, cc', dk') =>
      _advance_phase evaluate s = showdown evaluate (with_board SHOWDOWN cc' dk' s)
  | None => exists s1, _advance_phase evaluate s = (Raise IndexError, s1)
  end.
Proof.
  intros Hph Hstreet Hact. unfold spec_run_out.
  assert (Hcases : ph = RIVER \/ (ph = PRE_FLOP \/ ph = FLOP \/ ph = TURN)).
  { unfold is_street in Hstreet. destruct ph; simpl in Hstreet; auto; lia. }
  destruct Hcases as [->|Hearly].
  - cbn [streets_left spec_path spec_enter]. rewrite (advance_river _ Hph).
    now rewrite with_board_showdown.
  - pose proof (advance_first s ph Hph Hearly) as Hfirst. rewrite Hact in Hfirst.
    destruct (streets_left ph) as [|n] eqn:Hleft;
      [destruct Hearly as [->|[->| ->]]; discriminate|].
    rewrite spec_path_S.
    destruct (spec_enter ph (community_cards s) (deck s)) as [[[ph' cc1] dk1]|] eqn:E;
      [|exact Hfirst].
    pose proof (spec_enter_next _ _ _ _ _ _ E) as Hnext.
    assert (Hph' : ph' <> PRE_FLOP)
      by (destruct Hearly as [->|[->| ->]], ph'; simpl in Hnext; congruence).
    destruct n as [|n]; [destruct Hearly as [->|[->| ->]]; discriminate|].
    pose proof (fast_forward_run_out n (length _phase_order)
                  (with_board ph' cc1 dk1 s) ph' eq_refl Hph' ltac:(lia)) as Hrun.
    assert (Hfuel : (S n <= length _phase_order)%nat).
    { destruct Hearly as [->|[->| ->]]; simpl in Hleft; simpl; lia. }
    specialize (Hrun Hfuel).
    change (community_cards (with_board ph' cc1 dk1 s)) with cc1 in Hrun.
    change (deck (with_board ph' cc1 dk1 s)) with dk1 in Hrun.
    destruct (spec_path (S n) ph' cc1 dk1) as [[[ph2 cc2] dk2]|].
    + rewrite Hfirst, Hrun. now rewrite with_board_twice.
    + destruct Hrun as [s1 Hrun]. exists s1. now rewrite Hfirst.
Qed.

Lemma advance_completed (s : Engine) :
  phase s = Some COMPLETED -> _advance_phase evaluate s = (Raise IndexError, s).
Proof.
  intros Hph. destruct s as [ps ph0 bi ca dk cc hid hist acts sb bb pot seed].
  simpl in Hph. subst ph0. reflexivity.
Qed.

Lemma unfolded_nonempty (st : Engine) :
  (exists p, In p (players st) /\ is_folded p = false) -> unfolded st <> [].
Proof.
  intros (p & Hp & Hf) E.
  apply list_elem_of_In, list_elem_of_lookup in Hp as [i Hi].
  assert (Hin : In (i, p) (unfolded st)) by now apply unfolded_In.
  now rewrite E in Hin.
Qed.

(** With a seat left in the hand the showdown returns, and it leaves the
    board and the deck as they are. *)
Lemma showdown_returns (st : Engine) :
  (exists p, In p (players st) /\ is_folded p = false) ->
  exists st6,
    evaluate_and_distribute evaluate st = (Ret tt, st6) /\
    showdown evaluate st = (Ret tt, set_phase (Some COMPLETED) st6) /\
    community_cards st6 = community_cards st /\ deck st6 = deck st.
Proof.
  intros Hsome. apply unfolded_nonempty in Hsome.
  unfold showdown, bind. rewrite evaluate_and_distribute_run.
  destruct (unfolded st) as [|w [|w' rest]]; [congruence| |];
    eexists; repeat split; reflexivity.
Qed.

Lemma showdown_inv (st s1 : Engine) :
  showdown evaluate st = (Ret tt, s1) ->
  phase s1 = Some COMPLETED /\
  community_cards s1 = community_cards st /\ deck s1 = deck st.
Proof.
  unfold showdown, bind. rewrite evaluate_and_distribute_run.
  destruct (unfolded st) as [|w [|w' rest]]; [discriminate| |];
    intros [= <-]; repeat split; reflexivity.
Qed.

Lemma path_from_completed (s s' : Engine) :
  phase s = Some COMPLETED -> street_path evaluate s s' -> s' = s.
Proof.
  intros Hph Hpath. destruct Hpath as [s _|s s1 s2 s' _ Hadv _ _]; [reflexivity|].
  rewrite (advance_completed _ Hph) in Hadv. discriminate.
Qed.

Lemma spec_run_out_enter (ph ph' : Phase) (cc dk cc1 dk1 : list string) :
  spec_enter ph cc dk = Some (ph', cc1, dk1) ->
  spec_run_out ph cc dk = spec_run_out ph' cc1 dk1.
Proof.
  intros E. unfold spec_run_out. rewrite (spec_enter_next _ _ _ _ _ _ E).
  now rewrite spec_path_S, E.
Qed.

Lemma spec_enter_street (ph ph' : Phase) (cc dk cc1 dk1 : list string) :
  ph = PRE_FLOP \/ ph = FLOP \/ ph = TURN ->
  spec_enter ph cc dk = Some (ph', cc1, dk1) -> is_street ph'.
Proof.
  unfold is_street. intros [->|[->| ->]]; simpl.
  - destruct dk as [|? [|? [|? [|? ?]]]]; try discriminate. intros [= <- _ _]. simpl; lia.
  - destruct dk as [|? [|? ?]]; try discriminate. intros [= <- _ _]. simpl; lia.
  - destruct dk as [|? [|? ?]]; try discriminate. intros [= <- _ _]. simpl; lia.
Qed.

Lemma street_cases (ph : Phase) :
  is_street ph -> ph = RIVER \/ (ph = PRE_FLOP \/ ph = FLOP \/ ph = TURN).
Proof. unfold is_street. destruct ph; simpl; auto; lia. Qed.

(** The step-by-step path deals what the rule says. *)
Lemma street_path_run_out (s s' : Engine) :
  street_path evaluate s s' ->
  forall ph phx cc' dk',
    phase s = Some ph -> is_street ph ->
    spec_run_out ph (community_cards s) (deck s) = Some (phx, cc', dk') ->
    phase s' = Some COMPLETED /\ community_cards s' = cc' /\ deck s' = dk'.
Proof.
  induction 1 as [s Hend|s s1 s2 s' Hact Hadv Hboard Hpath IH];
    intros ph phx cc' dk' Hph Hstreet Hrun.
  - rewrite Hend in Hph. injection Hph as <-. unfold is_street in Hstreet.
    simpl in Hstreet. lia.
  - unfold board in Hboard. injection Hboard as Hb1 Hb2 Hb3.
    destruct (street_cases _ Hstreet) as [->|Hearly].
    + rewrite (advance_river _ Hph) in Hadv.
      apply showdown_inv in Hadv as (Hc & Hcc & Hdk). simpl in Hcc, Hdk.
      unfold spec_run_out in Hrun. simpl in Hrun. injection Hrun as _ <- <-.
      rewrite Hc in Hb1.
      rewrite (path_from_completed _ _ Hb1 Hpath). repeat split; congruence.
    + pose proof (advance_first s ph Hph Hearly) as Hfirst.
      rewrite (some_active_spec _ Hact) in Hfirst.
      destruct (spec_enter ph (community_cards s) (deck s))
        as [[[ph' cc1] dk1]|] eqn:E;
        [|destruct Hfirst as [x Hx]; rewrite Hx in Hadv; discriminate].
      rewrite Hfirst in Hadv. injection Hadv as <-.
      simpl in Hb1, Hb2, Hb3.
      apply (IH ph' phx); [exact Hb1 | eapply spec_enter_street; eauto|].
      rewrite Hb2, Hb3, <- Hrun. symmetry. now apply spec_run_out_enter.
Qed.

(** And there is such a path whenever the deck is long enough. *)
Lemma street_path_exists (n : nat) :
  forall (s : Engine) (ph phx : Phase) (cc' dk' : list string),
    streets_left ph = S n -> phase s = Some ph ->
    (exists p, In p (players s) /\ is_folded p = false /\ is_all_in p = false) ->
    spec_run_out ph (community_cards s) (deck s) = Some (phx, cc', dk') ->
    exists s', street_path evaluate s s'.
Proof.
  induction n as [|n IH]; intros s ph phx cc' dk' Hleft Hph Hact Hrun.
  - assert (ph = RIVER) as -> by (destruct ph; simpl in Hleft; congruence).
    destruct (showdown_returns (set_phase (Some SHOWDOWN) s)) as (st6 & _ & Hshow & _).
    { destruct Hact as (p & Hp & Hf & _). exists p. auto. }
    eexists. eapply path_street; [exact Hact | | reflexivity |].
    + rewrite (advance_river _ Hph). exact Hshow.
    + now apply path_end.
  - assert (Hearly : ph = PRE_FLOP \/ ph = FLOP \/ ph = TURN)
      by (destruct ph; simpl in Hleft; auto; congruence).
    pose proof (advance_first s ph Hph Hearly) as Hfirst.
    rewrite (some_active_spec _ Hact) in Hfirst.
    unfold spec_run_out in Hrun. rewrite Hleft, spec_path_S in Hrun.
    destruct (spec_enter ph (community_cards s) (deck s))
      as [[[ph' cc1] dk1]|] eqn:E; [|discriminate].
    pose proof (spec_enter_next _ _ _ _ _ _ E) as Hnext.
    assert (Hleft' : streets_left ph' = S n) by lia.
    destruct (IH (with_board ph' cc1 dk1 s) ph' phx cc' dk' Hleft' eq_refl Hact)
      as [s' Hs'].
    { unfold spec_run_out. now rewrite Hleft'. }
    exists s'. eapply path_street; [exact Hact | exact Hfirst | reflexivity
                                    | exact Hs'].
Qed.

(** When the deck is too short for the rule, neither way gets to the
    showdown: the fast-forward leaves by [IndexError] of [pop], and no
    step-by-step path reaches COMPLETED. *)
Lemma short_deck_no_path (s s' : Engine) :
  street_path evaluate s s' ->
  forall ph, phase s = Some ph -> is_street ph ->
    spec_run_out ph (community_cards s) (deck s) <> None.
Proof.
  induction 1 as [s Hend|s s1 s2 s' Hact Hadv Hboard Hpath IH];
    intros ph Hph Hstreet Hnone.
  - rewrite Hend in Hph. injection Hph as <-. unfold is_street in Hstreet.
    simpl in Hstreet. lia.
  - unfold board in Hboard. injection Hboard as Hb1 Hb2 Hb3.
    destruct (street_cases _ Hstreet) as [->|Hearly]; [discriminate Hnone|].
    pose proof (advance_first s ph Hph Hearly) as Hfirst.
    rewrite (some_active_spec _ Hact) in Hfirst.
    destruct (spec_enter ph (community_cards s) (deck s))
      as [[[ph' cc1] dk1]|] eqn:E;
      [|destruct Hfirst as [x Hx]; rewrite Hx in Hadv; discriminate].
    rewrite Hfirst in Hadv. injection Hadv as <-. simpl in Hb1, Hb2, Hb3.
    apply (IH ph'); [exact Hb1 | eapply spec_enter_street; eauto|].
    rewrite Hb2, Hb3, <- Hnone. symmetry. now apply spec_run_out_enter.
Qed.

Lemma short_deck_raises (st : Engine) (ph : Phase) :
  phase st = Some ph -> is_street ph ->
  (forall p, In p (players st) -> ~ (is_folded p = false /\ is_all_in p = false)) ->
  spec_run_out ph (community_cards st) (deck st) = None ->
  exists s1, _advance_phase evaluate st = (Raise IndexError, s1).
Proof.
  intros Hph Hstreet Hnone Hshort.
  pose proof (advance_fast st ph Hph Hstreet (proj2 (no_active_spec _) Hnone)) as H.
  now rewrite Hshort in H.
Qed.

(** C6.  A betting round is complete when no seat is both unfolded and
    not all-in; if then a seat is left in the hand and the deck holds the
    cards the rule of the streets asks for, [_advance_phase] goes through
    all the remaining phases to COMPLETED.  The showdown receives the hand
    with exactly the board and the deck the rule produces, and every
    step-by-step path from the same phase, board and deck ends with that
    same board and deck.  From the pre-flop that is five cards, three for
    the flop, one for the turn and one for the river, each batch after one
    burnt card. *)
Theorem fast_forward_refines (st : Engine) (ph : Phase) (cc' dk' : list string) :
  phase st = Some ph -> is_street ph ->
  (forall p, In p (players st) -> ~ (is_folded p = false /\ is_all_in p = false)) ->
  (exists p, In p (players st) /\ is_folded p = false) ->
  spec_run_out ph (community_cards st) (deck st) = Some (SHOWDOWN, cc', dk') ->
  _is_betting_round_complete st = Ret true /\
  (exists st6,
     evaluate_and_distribute evaluate (with_board SHOWDOWN cc' dk' st) = (Ret tt, st6) /\
     _advance_phase evaluate st = (Ret tt, set_phase (Some COMPLETED) st6) /\
     community_cards st6 = cc' /\ deck st6 = dk') /\
  (forall s s',
     board s = board st -> street_path evaluate s s' ->
     phase s' = Some COMPLETED /\ community_cards s' = cc' /\ deck s' = dk') /\
  (forall s,
     board s = board st ->
     (exists p, In p (players s) /\ is_folded p = false /\ is_all_in p = false) ->
     exists s', street_path evaluate s s') /\
  (ph = PRE_FLOP ->
   exists b1 c1 c2 c3 b2 c4 b3 c5,
     deck st = b1 :: c1 :: c2 :: c3 :: b2 :: c4 :: b3 :: c5 :: dk' /\
     cc' = community_cards st ++ [c1; c2; c3; c4; c5]).
Proof.
  intros Hph Hstreet Hnone Hsome Hrun.
  pose proof (proj2 (no_active_spec _) Hnone) as Hact.
  split; [unfold _is_betting_round_complete; now rewrite Hact|].
  split; [|split; [|split]].
  - pose proof (advance_fast st ph Hph Hstreet Hact) as Hfast.
    rewrite Hrun in Hfast.
    destruct (showdown_returns (with_board SHOWDOWN cc' dk' st) Hsome)
      as (st6 & Hev & Hshow & Hcc & Hdk).
    exists st6. repeat split; [exact Hev | now rewrite Hfast | exact Hcc | exact Hdk].
  - intros s s' Hboard Hpath. unfold board in Hboard.
    injection Hboard as Hb1 Hb2 Hb3.
    apply (street_path_run_out s s' Hpath ph SHOWDOWN); [congruence | exact Hstreet|].
    now rewrite Hb2, Hb3.
  - intros s Hboard Hcan. unfold board in Hboard. injection Hboard as Hb1 Hb2 Hb3.
    destruct (streets_left ph) as [|n] eqn:Hleft;
      [unfold is_street in Hstreet; lia|].
    apply (street_path_exists n s ph SHOWDOWN cc' dk'); try assumption;
      [congruence | now rewrite Hb2, Hb3].
  - intros ->. unfold spec_run_out in Hrun. simpl in Hrun.
    destruct (deck st) as [|b1 [|c1 [|c2 [|c3 [|b2 [|c4 [|b3 [|c5 d]]]]]]]];
      try discriminate.
    injection Hrun as <- <-. exists b1, c1, c2, c3, b2, c4, b3, c5.
    split; [reflexivity|]. now rewrite <- !app_assoc.
Qed.

Lemma showdown_pot (st s1 : Engine) :
  showdown evaluate st = (Ret tt, s1) -> total_pot s1 = 0.
Proof.
  unfold showdown, bind. rewrite evaluate_and_distribute_run.
  destruct (unfolded st) as [|w [|w' rest]]; [discriminate| |];
    now intros [= <-].
Qed.

(** A phase change that returns leaves the hand in a street, or completed
    with an empty pot. *)
Lemma advance_phase_in_play (s s1 : Engine) (ph : Phase) :
  phase s = Some ph -> is_street ph ->
  _advance_phase evaluate s = (Ret tt, s1) -> in_play s1.
Proof.
  intros Hph Hstreet Hadv.
  assert (Hdone : forall x, showdown evaluate x = (Ret tt, s1) -> in_play s1).
  { intros x Hx. exists COMPLETED. split; [now apply showdown_inv in Hx|].
    right. split; [reflexivity | now apply showdown_pot in Hx]. }
  destruct (street_cases _ Hstreet) as [->|Hearly].
  - rewrite (advance_river _ Hph) in Hadv. eauto.
  - destruct (length (List.filter can_act (players s)) =? 0)%nat eqn:Hact.
    + pose proof (advance_fast s ph Hph Hstreet Hact) as Hfast.
      destruct (spec_run_out ph (community_cards s) (deck s)) as [[[? ?] ?]|].
      * rewrite Hfast in Hadv. eauto.
      * destruct Hfast as [x Hx]. rewrite Hx in Hadv. discriminate.
    + pose proof (advance_first s ph Hph Hearly) as Hfirst. rewrite Hact in Hfirst.
      destruct (spec_enter ph (community_cards s) (deck s))
        as [[[ph' cc1] dk1]|] eqn:E.
      * rewrite Hfirst in Hadv. injection Hadv as <-. exists ph'.
        split; [reflexivity|]. left. eapply spec_enter_street; eauto.
      * destruct Hfirst as [x Hx]. rewrite Hx in Hadv. discriminate.
Qed.

Lemma _advance_turn_same : preserves same_phase_pot _advance_turn.
Proof.
  assert (Hr : forall st, same_phase_pot st st) by (intros st; now split).
  assert (Ht : forall a b c, same_phase_pot a b -> same_phase_pot b c ->
                             same_phase_pot a c).
  { intros a b c [H1 H2] [H3 H4]. split; congruence. }
  unfold _advance_turn.
  apply (preserves_bind _ Ht); [apply (preserves_get _ Hr)|]. intros st.
  destruct (length _ =? 0)%nat; [apply (preserves_ret _ Hr)|].
  apply (preserves_bind _ Ht); [apply (preserves_read _ Hr)|]. intros [idx|].
  - apply preserves_modify. intros x. now split.
  - apply (preserves_ret _ Hr).
Qed.

Lemma finish_action_in_play (st st' : Engine) (r : Response) (ph : Phase) :
  phase st = Some ph -> is_street ph ->
  finish_action evaluate st = (Ret r, st') -> in_play st'.
Proof.
  intros Hph Hstreet H. unfold finish_action in H.
  apply bind_ret_inv in H as ([] & s1 & Hturn & H).
  pose proof (_advance_turn_same st) as [Hph1 _]. rewrite Hturn in Hph1.
  simpl in Hph1. rewrite Hph in Hph1.
  apply bind_ret_inv in H as (complete & s1' & Hread & H).
  unfold read in Hread. injection Hread as _ <-.
  apply bind_ret_inv in H as ([] & s2 & Hadv & H).
  apply bind_ret_inv in H as (s3 & s3' & Hget & H).
  unfold get in Hget. injection Hget as <- <-.
  assert (st' = s2) as ->.
  { destruct (phase s2); [|discriminate]. unfold ret in H. congruence. }
  destruct complete.
  - eapply advance_phase_in_play; eauto.
  - unfold ret in Hadv. injection Hadv as <-. exists ph. auto.
Qed.

End Streets.

(** ** Opening a hand *)

Lemma keeps_given_refl (c : Prop) (st : Engine) : keeps_given c st st.
Proof. now split. Qed.

Lemma keeps_given_trans (c : Prop) (x y z : Engine) :
  keeps_given c x y -> keeps_given c y z -> keeps_given c x z.
Proof. intros [B1 S1] [B2 S2]. split; [now rewrite B2 | auto]. Qed.

Lemma keeps_given_same (c : Prop) (st st' : Engine) :
  map stack (players st') = map stack (players st) ->
  total_pot st' = total_pot st -> small_blind st' = small_blind st ->
  big_blind st' = big_blind st -> keeps_given c st st'.
Proof.
  intros Hp Ht Hs Hb. split.
  - unfold bank, sum_stack. now rewrite Hp, Ht.
  - intros _ (Hall & Hpot & Hsb & Hbb). unfold solvent.
    rewrite Ht, Hs, Hb. repeat split; try assumption.
    apply (List.Forall_map stack (fun x => 0 <= x)). rewrite Hp.
    now apply (List.Forall_map stack (fun x => 0 <= x)).
Qed.

Lemma alter_keeps_stack (f : PlayerState -> PlayerState) (i : nat)
    (ps : list PlayerState) :
  (forall q, stack (f q) = stack q) ->
  map stack (alter f i ps) = map stack ps.
Proof.
  intros Hf. revert i. induction ps as [|x ps IH]; intros [|i]; simpl;
    try reflexivity; [now rewrite Hf | f_equal; apply IH].
Qed.

Lemma post_blind_run (idx : nat) (amount : Z) (label : string) (st : Engine)
    (p : PlayerState) :
  players st !! idx = Some p ->
  post_blind idx amount label st
  = (Ret tt,
     booked idx (paid_seat p (Z.min (stack p) amount)) (Z.min (stack p) amount)
       (mkAction (player_id p) ("post_" +:+ label) (Z.min (stack p) amount)) st).
Proof.
  intros Hp. unfold post_blind.
  rewrite (bind_run _ _ _ _ _ (player_at_run _ _ _ Hp)).
  unfold booked, moved, paid_seat, bind, update_player, modify.
  destruct st as [ps ph bi ca dk cc hid hist acts sb bb pot seed]; simpl in *.
  rewrite (alter_as_insert _ _ _ _ Hp).
  rewrite (alter_insert_same _ _ _ _ _ Hp).
  unfold player_at, read, index; simpl.
  rewrite list_lookup_insert_eq by (now apply lookup_lt_Some in Hp); simpl.
  destruct (stack p - Z.min (stack p) amount =? 0);
    unfold ret, set_players, set_actions; simpl; [|reflexivity].
  now rewrite (alter_insert_same _ _ _ _ _ Hp).
Qed.

Lemma post_blind_keeps (c : Prop) (idx : nat) (amount : Z) (label : string) :
  (c -> 0 <= amount) -> preserves (keeps_given c) (post_blind idx amount label).
Proof.
  intros Hc st. destruct (players st !! idx) as [p|] eqn:Hp.
  - rewrite (post_blind_run _ _ _ _ _ Hp). simpl. split.
    + apply (booked_bank idx p); [exact Hp|]. unfold paid_seat.
      destruct (_ =? 0); simpl; lia.
    + intros Hyes Hs. apply (booked_solvent idx p); [| |exact Hs].
      * unfold paid_seat. destruct (_ =? 0); simpl; lia.
      * specialize (Hc Hyes). destruct Hs as [Hall _]. rewrite Forall_forall in Hall.
        assert (0 <= stack p) by (apply Hall, list_elem_of_lookup; eauto). lia.
  - unfold post_blind, bind, player_at, read, index. rewrite Hp. simpl.
    apply keeps_given_refl.
Qed.

Section Opening.

Variable c : Prop.

Local Ltac keep_step :=
  first
    [ apply (preserves_bind (keeps_given c) (keeps_given_trans c)); [|intros ?]
    | apply (preserves_ret (keeps_given c) (keeps_given_refl c))
    | apply (preserves_raise (keeps_given c) (keeps_given_refl c))
    | apply (preserves_get (keeps_given c) (keeps_given_refl c))
    | apply (preserves_read (keeps_given c) (keeps_given_refl c))
    | apply (preserves_modify (keeps_given c)); intros ?; now apply keeps_given_same ].

Lemma pop_deck_keeps : preserves (keeps_given c) pop_deck.
Proof.
  intros st. unfold pop_deck. destruct (deck st); simpl.
  - apply keeps_given_refl.
  - now apply keeps_given_same.
Qed.

Lemma deal_pass_keeps (deal_start n : nat) :
  preserves (keeps_given c) (deal_pass deal_start n).
Proof.
  unfold deal_pass.
  apply (preserves_for_each (keeps_given c) (keeps_given_refl c) (keeps_given_trans c)).
  intros i. keep_step; [apply pop_deck_keeps|]. keep_step; [keep_step|].
  unfold update_player. apply (preserves_modify (keeps_given c)). intros st.
  apply keeps_given_same; try reflexivity. simpl. now apply alter_keeps_stack.
Qed.

Lemma open_hand_keeps (seed : string) (st : Engine) :
  (c -> 0 <= small_blind st /\ 0 <= big_blind st) ->
  keeps_given c st (snd (open_hand seed st)).
Proof.
  intros Hc. unfold open_hand. unfold bind at 1, get. cbv zeta.
  destruct (length (players st) =? 0)%nat; [apply keeps_given_refl|].
  match goal with
  | |- keeps_given _ _ (snd (?m _)) => assert (H : preserves (keeps_given c) m)
  end; [|apply H].
  keep_step; [apply post_blind_keeps; tauto|].
  keep_step; [apply post_blind_keeps; tauto|].
  keep_step.
  { apply (preserves_for_each (keeps_given c) (keeps_given_refl c)
             (keeps_given_trans c)). intros _. apply deal_pass_keeps. }
  keep_step; [keep_step|]. keep_step; [keep_step|].
  keep_step; [keep_step|]. keep_step; [keep_step|].
  keep_step; [match goal with |- context [match ?x with _ => _ end] =>
                destruct x end; keep_step|].
  keep_step; [keep_step|]. keep_step.
Qed.

End Opening.

(** ** The states of a hand *)

Section Hands.

Variable evaluate : list string -> list string -> Z.
Variable rng_shuffle : string -> list string -> list string.

Lemma reset_hand_run (seed : string) (st : Engine) :
  exists st0,
    reset_hand rng_shuffle seed st = (Ret tt, st0) /\
    map stack (players st0) = map stack (players st) /\
    total_pot st0 = 0 /\ small_blind st0 = small_blind st /\
    big_blind st0 = big_blind st.
Proof.
  eexists. split; [reflexivity|]. simpl. repeat split.
  rewrite map_map. now apply map_ext.
Qed.

(** However [start_hand] leaves, the chips on the table are the stacks it
    found, and if those and the blinds were not negative the table is
    solvent. *)
Lemma start_hand_ledger (seed : option string) (uuid : string) (e0 : Engine) :
  bank (snd (start_hand rng_shuffle seed uuid e0)) = sum_stack e0 /\
  (Forall (fun p => 0 <= stack p) (players e0) ->
   0 <= small_blind e0 -> 0 <= big_blind e0 ->
   solvent (snd (start_hand rng_shuffle seed uuid e0))).
Proof.
  unfold start_hand.
  set (sd := match seed with
             | Some s => if String.eqb s "" then uuid else s
             | None => uuid
             end).
  destruct (reset_hand_run sd e0) as (st0 & Hrun & Hst & Hpot & Hsb & Hbb).
  rewrite (bind_run _ _ _ _ _ Hrun).
  assert (Hbank0 : bank st0 = sum_stack e0).
  { unfold bank, sum_stack. rewrite Hst, Hpot. lia. }
  split.
  - destruct (open_hand_keeps False sd st0) as [Hb _]; [tauto | now rewrite Hb].
  - intros Hall H1 H2.
    destruct (open_hand_keeps True sd st0) as [_ Hs]; [rewrite Hsb, Hbb; auto|].
    apply Hs; [exact I|]. unfold solvent. rewrite Hpot, Hsb, Hbb.
    repeat split; try lia.
    apply (List.Forall_map stack (fun x => 0 <= x)). rewrite Hst.
    now apply (List.Forall_map stack (fun x => 0 <= x)).
Qed.

Lemma open_hand_phase (seed : string) (st e1 : Engine) (info : string * string) :
  open_hand seed st = (Ret info, e1) -> phase e1 = Some PRE_FLOP.
Proof.
  intros H. unfold open_hand in H.
  apply bind_ret_inv in H as (st' & s0 & Hget & H). unfold get in Hget.
  injection Hget as <- <-. cbv zeta in H.
  destruct (length (players st) =? 0)%nat; [discriminate|].
  apply bind_ret_inv in H as ([] & s1 & _ & H).
  apply bind_ret_inv in H as ([] & s2 & _ & H).
  apply bind_ret_inv in H as ([] & s3 & _ & H).
  apply bind_ret_inv in H as ([] & s4 & Hset & H).
  unfold modify in Hset. injection Hset as <-.
  set (R := fun a b : Engine => phase b = phase a).
  assert (Hr : forall x, R x x) by reflexivity.
  assert (Ht : forall a b c, R a b -> R b c -> R a c)
    by (unfold R; intros; congruence).
  match type of H with
  | ?m _ = _ => assert (Hkeep : preserves R m)
  end.
  { apply (preserves_bind _ Ht); [now apply preserves_modify|]. intros _.
    apply (preserves_bind _ Ht); [apply (preserves_get _ Hr)|]. intros x.
    apply (preserves_bind _ Ht); [apply (preserves_read _ Hr)|]. intros found.
    apply (preserves_bind _ Ht).
    { destruct found; [now apply preserves_modify | apply (preserves_ret _ Hr)]. }
    intros _. apply (preserves_bind _ Ht); [apply (preserves_get _ Hr)|].
    intros y. apply (preserves_ret _ Hr). }
  specialize (Hkeep (set_phase (Some PRE_FLOP) s3)). rewrite H in Hkeep.
  exact Hkeep.
Qed.

Lemma start_hand_phase (seed : option string) (uuid : string) (e0 e1 : Engine)
    (info : string * string) :
  start_hand rng_shuffle seed uuid e0 = (Ret info, e1) -> phase e1 = Some PRE_FLOP.
Proof.
  unfold start_hand. intros H. apply bind_ret_inv in H as (? & s & _ & H).
  now apply open_hand_phase in H.
Qed.

Lemma is_street_PRE_FLOP : is_street PRE_FLOP.
Proof. unfold is_street. simpl. lia. Qed.

Lemma in_play_not_completed (st : Engine) (ph : Phase) :
  in_play st -> phase st = Some ph -> ph <> COMPLETED -> is_street ph.
Proof.
  intros (q & Hq & [Hs|[-> _]]) Hph Hne; rewrite Hq in Hph; injection Hph as <-;
    [exact Hs | congruence].
Qed.

(** Every state of a hand is in play, holds the chips the seats brought,
    and is solvent if the seats and the blinds were. *)
Lemma hand_state_invariant (e0 e : Engine) :
  hand_state evaluate rng_shuffle e0 e ->
  in_play e /\ bank e = sum_stack e0 /\
  (Forall (fun p => 0 <= stack p) (players e0) ->
   0 <= small_blind e0 -> 0 <= big_blind e0 -> solvent e).
Proof.
  induction 1 as [seed uuid info e1 Hstart|e e' pid action amount ph pot _ IH Hact].
  - pose proof (start_hand_ledger seed uuid e0) as [Hb Hs]. rewrite Hstart in Hb, Hs.
    split; [|split; assumption].
    exists PRE_FLOP. split; [now apply start_hand_phase in Hstart|].
    left. apply is_street_PRE_FLOP.
  - destruct IH as (Hplay & Hb & Hs). split; [|split].
    + destruct (apply_action_cases evaluate pid action amount e)
        as [(msg & E) | [(x & E) | (idx & p & q & pay & ph' & legal & Hph & Hne & _
                                    & _ & _ & _ & _ & _ & _ & _ & _ & E)]];
        rewrite E in Hact; try discriminate.
      eapply (finish_action_in_play evaluate _ _ _ ph'); [| |exact Hact].
      * exact Hph.
      * now apply (in_play_not_completed e).
    + pose proof (apply_action_bank evaluate pid action amount e) as Hk.
      rewrite Hact in Hk. simpl in Hk. congruence.
    + intros H0 H1 H2.
      pose proof (apply_action_solvent evaluate pid action amount e (Hs H0 H1 H2)) as Hk.
      now rewrite Hact in Hk.
Qed.

(** C1, as the code has it.  In every state of a hand, reached by
    [start_hand] and any sequence of calls answered [ok], the sum of the
    stacks plus the pot equals the sum of the stacks before the blinds
    were posted, blind posting and distribution included; at hand
    completion the pot is empty and the stacks alone sum to that value.
    The sum of [committed] is not part of what is conserved: the quantity
    of the specification exceeds the chips on the table by it. *)
Theorem chips_conserved (e0 e : Engine) :
  hand_state evaluate rng_shuffle e0 e ->
  sum_stack e + total_pot e = sum_stack e0 /\
  (phase e = Some COMPLETED -> total_pot e = 0 /\ sum_stack e = sum_stack e0) /\
  spec_quantity e = sum_stack e0 + sum_committed e.
Proof.
  intros H. destruct (hand_state_invariant e0 e H) as (Hplay & Hb & _).
  unfold bank in Hb. split; [exact Hb|]. split.
  - intros Hc. destruct Hplay as (ph & Hph & [Hs|[_ Hpot]]).
    + rewrite Hc in Hph. injection Hph as <-. unfold is_street in Hs.
      simpl in Hs. lia.
    + split; [exact Hpot | lia].
  - unfold spec_quantity. lia.
Qed.

(** C4.  When the seats start with stacks that are not negative and the
    blinds are not negative, no stack is negative in any state of a hand,
    nor after any further call of [apply_action], whatever its answer; a
    call answered by an error has changed nothing; and a bet or a raise
    of more than the stack is answered by an error in the unchanged
    state. *)
Theorem stacks_never_negative (e0 e : Engine) :
  (forall p, In p (players e0) -> 0 <= stack p) ->
  0 <= small_blind e0 -> 0 <= big_blind e0 ->
  hand_state evaluate rng_shuffle e0 e ->
  (forall p, In p (players e) -> 0 <= stack p) /\
  forall pid action amount,
    (forall p, In p (players (snd (apply_action evaluate pid action amount e))) ->
               0 <= stack p) /\
    (forall msg e',
       apply_action evaluate pid action amount e = (Ret (RespError msg), e') ->
       e' = e) /\
    (forall idx p,
       find_player_index pid e = Ret idx -> players e !! idx = Some p ->
       action = "bet" \/ action = "raise" -> stack p < amount ->
       exists msg,
         apply_action evaluate pid action amount e = (Ret (RespError msg), e)).
Proof.
  intros Hall Hsb Hbb H.
  destruct (hand_state_invariant e0 e H) as (_ & _ & Hs).
  assert (Hsolv : solvent e).
  { apply Hs; try assumption. now apply List.Forall_forall. }
  split.
  - destruct Hsolv as [Hst _]. now apply List.Forall_forall.
  - intros pid action amount. split; [|split].
    + pose proof (apply_action_solvent evaluate pid action amount e Hsolv) as [Hst _].
      now apply List.Forall_forall.
    + intros msg e'. apply error_leaves_state.
    + intros idx p Hfind Hp Hname Hamt.
      destruct (legal_actions_returns _ _ _ Hfind) as [legal Hlegal].
      apply (request_rejected evaluate pid action amount e idx p legal); auto.
Qed.

End Hands.

(** ** No method leaves by want of fuel *)

Lemma pythonic_ret {A} (a : A) : pythonic (ret a).
Proof. intros st. discriminate. Qed.

Lemma pythonic_raise {A} (e : exn) : e <> OutOfFuel -> pythonic (@raise A e).
Proof. intros He st. simpl. congruence. Qed.

Lemma pythonic_get : pythonic get.
Proof. intros st. discriminate. Qed.

Lemma pythonic_modify (f : Engine -> Engine) : pythonic (modify f).
Proof. intros st. discriminate. Qed.

Lemma pythonic_read {A} (f : Engine -> outcome A) :
  (forall st, pythonic_value (f st)) -> pythonic (read f).
Proof. intros H st. apply H. Qed.

Lemma pythonic_bind {A B} (m : M A) (k : A -> M B) :
  pythonic m -> (forall a, pythonic (k a)) -> pythonic (bind m k).
Proof.
  intros Hm Hk st. unfold bind. specialize (Hm st).
  destruct (m st) as [[a|e] st1]; simpl in *; [apply Hk|].
  unfold pythonic_value in *. intros [= ->]. now apply Hm.
Qed.

Lemma pythonic_for_each {A} (l : list A) (body : A -> M unit) :
  (forall x, pythonic (body x)) -> pythonic (for_each l body).
Proof.
  intros H. induction l as [|x l IH]; simpl.
  - apply pythonic_ret.
  - apply pythonic_bind; auto.
Qed.

Lemma pythonic_index {A} (l : list A) (i : nat) : pythonic_value (index l i).
Proof. unfold index. destruct (l !! i); discriminate. Qed.

Lemma pythonic_py_max (l : list Z) : pythonic_value (py_max l).
Proof. destruct l; discriminate. Qed.

Lemma pythonic_obind {A B} (o : outcome A) (k : A -> outcome B) :
  pythonic_value o -> (forall a, pythonic_value (k a)) ->
  pythonic_value (obind o k).
Proof.
  intros Ho Hk. destruct o as [a|e]; simpl; [apply Hk|].
  unfold pythonic_value in *. intros [= ->]. now apply Ho.
Qed.

Lemma pythonic_find_from (pid : string) (ps : list PlayerState) (i : nat) :
  pythonic_value (find_from pid ps i).
Proof.
  revert i. induction ps as [|p ps IH]; intros i; simpl; [discriminate|].
  destruct (String.eqb _ _); [discriminate | apply IH].
Qed.

Lemma pythonic_first_able (ps : list PlayerState) (base n : nat) (offsets : list nat) :
  pythonic_value (first_able ps base n offsets).
Proof.
  induction offsets as [|i rest IH]; simpl; [discriminate|].
  apply pythonic_obind; [apply pythonic_index|]. intros p.
  destruct (can_act p); [discriminate | exact IH].
Qed.

Lemma pythonic_legal_actions (pid : string) (st : Engine) :
  pythonic_value (legal_actions pid st).
Proof.
  unfold legal_actions. apply pythonic_obind; [apply pythonic_find_from|].
  intros idx. apply pythonic_obind; [apply pythonic_index|]. intros p.
  destruct (_ || _); [discriminate|].
  apply pythonic_obind; [apply pythonic_py_max|]. intros h.
  destruct (0 <? _); discriminate.
Qed.

Lemma pythonic_round_complete (st : Engine) :
  pythonic_value (_is_betting_round_complete st).
Proof.
  unfold _is_betting_round_complete. destruct (length _ =? 0)%nat; [discriminate|].
  apply pythonic_obind; [apply pythonic_py_max | discriminate].
Qed.

Lemma pythonic_next_phase (st : Engine) : pythonic_value (next_phase st).
Proof.
  unfold next_phase. destruct (phase st) as [[]|]; discriminate.
Qed.

Local Ltac py_step :=
  first
    [ apply pythonic_bind; [|intros ?]
    | apply pythonic_ret
    | apply pythonic_get
    | apply pythonic_modify
    | apply pythonic_raise; discriminate
    | apply pythonic_read; intros ?;
      first [ apply pythonic_index | apply pythonic_py_max
            | apply pythonic_find_from | apply pythonic_first_able
            | apply pythonic_legal_actions | apply pythonic_round_complete
            | apply pythonic_next_phase ] ].

Lemma pythonic_pop_deck : pythonic pop_deck.
Proof. intros st. unfold pop_deck. destruct (deck st); discriminate. Qed.

Lemma pythonic_player_at (idx : nat) : pythonic (player_at idx).
Proof. unfold player_at. py_step. Qed.

Lemma pythonic_update_player (idx : nat) (f : PlayerState -> PlayerState) :
  pythonic (update_player idx f).
Proof. apply pythonic_modify. Qed.

Lemma pythonic_pay_in (idx : nat) (pay : Z) : pythonic (pay_in idx pay).
Proof.
  unfold pay_in. repeat (py_step; [apply pythonic_update_player|]).
  py_step; [py_step|]. py_step; [apply pythonic_player_at|].
  destruct (_ =? 0); [apply pythonic_update_player | py_step].
Qed.

Lemma pythonic_ledger_step (idx : nat) (p : PlayerState) (pid action : string)
    (amount to_call : Z) :
  pythonic (ledger_step idx p pid action amount to_call).
Proof.
  unfold ledger_step, log_action.
  repeat match goal with
         | |- pythonic (if ?b then _ else _) => destruct b
         end;
    repeat first [ apply pythonic_pay_in | apply pythonic_update_player | py_step ].
Qed.

Lemma pythonic_advance_turn : pythonic _advance_turn.
Proof.
  unfold _advance_turn. py_step; [py_step|].
  destruct (length _ =? 0)%nat; [py_step|].
  py_step; [py_step|].
  match goal with |- pythonic (match ?x with _ => _ end) => destruct x end; py_step.
Qed.

Section Fuel.

Variable evaluate : list string -> list string -> Z.

Lemma showdown_outcome (st : Engine) :
  fst (showdown evaluate st) = Ret tt \/
  fst (showdown evaluate st) = Raise IndexError.
Proof.
  unfold showdown, bind. rewrite evaluate_and_distribute_run.
  destruct (unfolded st) as [|w [|w' rest]]; simpl; auto.
Qed.

Lemma pythonic_showdown : pythonic (showdown evaluate).
Proof.
  intros st. destruct (showdown_outcome st) as [-> | ->]; discriminate.
Qed.

Lemma pythonic_evaluate_and_distribute :
  pythonic (evaluate_and_distribute evaluate).
Proof.
  intros st. rewrite evaluate_and_distribute_run.
  destruct (unfolded st) as [|w [|w' rest]]; discriminate.
Qed.

Lemma pythonic_deal_one : pythonic deal_one.
Proof.
  unfold deal_one. py_step; [apply pythonic_pop_deck|].
  py_step; [apply pythonic_pop_deck|]. py_step.
Qed.

Lemma pythonic_pop_cards (k : nat) : pythonic (pop_cards k).
Proof.
  induction k as [|k IH]; simpl; [py_step|].
  py_step; [apply pythonic_pop_deck|]. py_step; [exact IH | py_step].
Qed.

Lemma pythonic_deal_flop : pythonic deal_flop.
Proof.
  unfold deal_flop. py_step; [apply pythonic_pop_deck|].
  py_step; [apply pythonic_pop_cards | py_step].
Qed.

(** With a turn of fuel for every phase still to come, the loop ends by
    its own test, by the showdown or by a Python exception. *)
Lemma fast_forward_fuel (fuel : nat) :
  forall st, (turns_left (phase st) <= fuel)%nat ->
             pythonic_value (fst (fast_forward evaluate fuel st)).
Proof.
  induction fuel as [|fuel IH]; intros st Hfuel.
  - destruct st as [ps [[]|] bi ca dk cc hid hist acts sb bb pot seed];
      simpl in Hfuel; try lia; discriminate.
  - destruct (phase st) as [ph|] eqn:Hph.
    + destruct ph.
      * (* before the flop: the loop only moves the phase on *)
        assert (E : fast_forward evaluate (S fuel) st
                    = fast_forward evaluate fuel (set_phase (Some FLOP) st)).
        { rewrite fast_forward_unfold.
          destruct st as [ps ph0 bi ca dk cc hid hist acts sb bb pot seed].
          simpl in Hph. subst ph0. reflexivity. }
        rewrite E. apply IH. simpl in *. lia.
      * pose proof (fast_forward_deal evaluate fuel st FLOP Hph (or_introl eq_refl)) as H.
        destruct (spec_enter FLOP _ _) as [[[ph' cc1] dk1]|] eqn:E.
        -- rewrite H. apply IH. simpl.
           apply spec_enter_next in E. simpl in *. lia.
        -- destruct H as [s1 ->]. discriminate.
      * pose proof (fast_forward_deal evaluate fuel st TURN Hph (or_intror eq_refl)) as H.
        destruct (spec_enter TURN _ _) as [[[ph' cc1] dk1]|] eqn:E.
        -- rewrite H. apply IH. simpl.
           apply spec_enter_next in E. simpl in *. lia.
        -- destruct H as [s1 ->]. discriminate.
      * rewrite (fast_forward_river evaluate fuel st Hph). apply pythonic_showdown.
      * destruct st as [ps ph0 bi ca dk cc hid hist acts sb bb pot seed].
        simpl in Hph. subst ph0. discriminate.
      * destruct st as [ps ph0 bi ca dk cc hid hist acts sb bb pot seed].
        simpl in Hph. subst ph0. discriminate.
    + destruct st as [ps ph0 bi ca dk cc hid hist acts sb bb pot seed].
      simpl in Hph. subst ph0. discriminate.
Qed.

Lemma pythonic_fast_forward :
  pythonic (fast_forward evaluate (length _phase_order)).
Proof.
  intros st. apply fast_forward_fuel.
  destruct (phase st) as [[]|]; simpl; lia.
Qed.

Lemma pythonic_advance_phase : pythonic (_advance_phase evaluate).
Proof.
  unfold _advance_phase. py_step; [py_step|]. py_step; [py_step|].
  assert (Htail : pythonic
            (st <- get ;;
             if (length (List.filter can_act (players st)) =? 0)%nat
             then fast_forward evaluate (length _phase_order) else ret tt)).
  { py_step; [py_step|].
    destruct (length _ =? 0)%nat; [apply pythonic_fast_forward | py_step]. }
  destruct a; try apply pythonic_showdown.
  all: py_step; [|exact Htail].
  all: first [apply pythonic_deal_flop | apply pythonic_deal_one | py_step].
Qed.

(** [apply_action] returns or raises as the Python method does. *)
Lemma pythonic_apply_action (pid action : string) (amount : Z) :
  pythonic (apply_action evaluate pid action amount).
Proof.
  unfold apply_action. py_step; [py_step|].
  assert (Hrest : pythonic
    (idx <- read (find_player_index pid) ;;
     p <- player_at idx ;;
     if is_folded p || is_all_in p then ret (RespError "Player cannot act")
     else
       legal <- read (legal_actions pid) ;;
       if negb (existsb (String.eqb action) legal) then
         ret (RespError ("Illegal action: " +:+ action +:+ ". Allowed: "
                           +:+ repr_list legal))
       else
         highest <- read (fun s => py_max (map committed (players s))) ;;
         early <- ledger_step idx p pid action amount (highest - committed p) ;;
         match early with
         | Some r => ret r
         | None => finish_action evaluate
         end)).
  { py_step; [unfold find_player_index; py_step|].
    py_step; [apply pythonic_player_at|].
    destruct (_ || _); [py_step|].
    py_step; [py_step|]. destruct (negb _); [py_step|].
    py_step; [py_step|]. py_step; [apply pythonic_ledger_step|].
    match goal with |- pythonic (match ?x with _ => _ end) => destruct x end;
      [py_step|].
    unfold finish_action. py_step; [apply pythonic_advance_turn|].
    py_step; [py_step|].
    py_step; [match goal with |- pythonic (if ?b then _ else _) => destruct b end;
              [apply pythonic_advance_phase | py_step]|].
    py_step; [py_step|]. destruct (phase _); py_step. }
  destruct (phase a) as [[]|]; first [exact Hrest | py_step].
Qed.

End Fuel.

Section FuelOpening.

Variable rng_shuffle : string -> list string -> list string.

Lemma pythonic_post_blind (idx : nat) (amount : Z) (label : string) :
  pythonic (post_blind idx amount label).
Proof.
  unfold post_blind. py_step; [apply pythonic_player_at|]. cbv zeta.
  repeat (py_step; [first [apply pythonic_player_at | apply pythonic_update_player
                          | py_step]|]).
  destruct (_ =? 0); [apply pythonic_update_player | py_step].
Qed.

Lemma pythonic_deal_pass (deal_start n : nat) : pythonic (deal_pass deal_start n).
Proof.
  unfold deal_pass. apply pythonic_for_each. intros i.
  py_step; [apply pythonic_pop_deck|]. py_step; [apply pythonic_player_at|].
  apply pythonic_update_player.
Qed.

(** [start_hand] returns or raises as the Python method does. *)
Lemma pythonic_start_hand (seed : option string) (uuid : string) :
  pythonic (start_hand rng_shuffle seed uuid).
Proof.
  unfold start_hand. py_step.
  { unfold reset_hand. repeat (py_step; [py_step|]). py_step. }
  unfold open_hand. py_step; [py_step|]. cbv zeta.
  destruct (length _ =? 0)%nat; [py_step|].
  py_step; [apply pythonic_post_blind|]. py_step; [apply pythonic_post_blind|].
  py_step; [apply pythonic_for_each; intros _; apply pythonic_deal_pass|].
  py_step; [py_step|]. py_step; [py_step|]. py_step; [py_step|].
  py_step; [py_step|].
  py_step; [match goal with |- pythonic (match ?x with _ => _ end) => destruct x end;
            py_step|].
  py_step; [py_step|]. py_step.
Qed.

End FuelOpening.

(** * Worked hands *)

Lemma table2_built :
  new_engine ["A"; "B"] None 5 10 "hand-1" = Ret table2.
Proof. reflexivity. Qed.

Lemma table2_started_run :
  start_hand no_shuffle (Some "seed") "uuid" table2
  = (Ret ("hand-1", "seed"), table2_started).
Proof. vm_compute. reflexivity. Qed.

Lemma table2_started_reached :
  hand_state level_evaluate no_shuffle table2 table2_started.
Proof. eapply hand_started. exact table2_started_run. Qed.

Lemma table2_called_run :
  apply_action level_evaluate "A" "call" 0 table2_started
  = (Ret (RespOk "flop" 20), table2_called).
Proof. vm_compute. reflexivity. Qed.

Lemma table2_shoved_run :
  apply_action level_evaluate "A" "allin" 0 table2_started
  = (Ret (RespOk "preflop" 1010), table2_shoved).
Proof. vm_compute. reflexivity. Qed.

Lemma table2_run_out_run :
  apply_action level_evaluate "B" "allin" 0 table2_shoved
  = (Ret (RespOk "completed" 0), table2_run_out).
Proof. vm_compute. reflexivity. Qed.

Lemma table2_run_out_reached :
  hand_state level_evaluate no_shuffle table2 table2_run_out.
Proof.
  eapply hand_acted; [|exact table2_run_out_run].
  eapply hand_acted; [|exact table2_shoved_run].
  exact table2_started_reached.
Qed.

(** The second all-in goes through the ledger state in which both seats
    are all-in before the flop. *)
Lemma table2_both_in_run :
  apply_action level_evaluate "B" "allin" 0 table2_shoved
  = finish_action level_evaluate table2_both_in.
Proof. vm_compute. reflexivity. Qed.

(** Pot 100, three seats tied: 33 each, and the extra chip to seat 0. *)
Example tie_of_three :
  co_winners level_evaluate table3 = [0; 1; 2]%nat /\
  payout level_evaluate table3 0 = 34 /\
  payout level_evaluate table3 1 = 33 /\
  payout level_evaluate table3 2 = 33 /\
  map stack (players (snd (evaluate_and_distribute level_evaluate table3)))
  = [34; 43; 53] /\
  pot_history (snd (evaluate_and_distribute level_evaluate table3))
  = [PotSplit ["A"; "B"; "C"] 33 1].
Proof. vm_compute. repeat split. Qed.

(** C1, as stated, fails: the call of the small blind is neither the
    posting of a blind nor a distribution, and it raises the quantity of
    the specification from 2015 to 2020; and the quantity is 2000 before
    the blinds and 4000 when the hand of two all-ins is completed. *)
Lemma spec_quantity_counterexample :
  hand_state level_evaluate no_shuffle table2 table2_started /\
  apply_action level_evaluate "A" "call" 0 table2_started
  = (Ret (RespOk "flop" 20), table2_called) /\
  spec_quantity table2_started = 2015 /\
  spec_quantity table2_called = 2020 /\
  hand_state level_evaluate no_shuffle table2 table2_run_out /\
  phase table2_run_out = Some COMPLETED /\
  spec_quantity table2 = 2000 /\
  spec_quantity table2_run_out = 4000.
Proof.
  split; [exact table2_started_reached|]. split; [exact table2_called_run|].
  split; [reflexivity|]. split; [reflexivity|].
  split; [exact table2_run_out_reached|]. repeat split.
Qed.

(** C9, as stated, fails: during a hand a call for the unknown seat [Z]
    is not answered by an error, it leaves by [KeyError]. *)
Lemma unknown_seat_counterexample :
  phase table2_started = Some PRE_FLOP /\
  find_player_index "Z" table2_started = Raise (KeyError "Z") /\
  apply_action level_evaluate "Z" "call" 0 table2_started
  = (Raise (KeyError "Z"), table2_started).
Proof. repeat split. Qed.

(** No hand on the table, and a hand with an unknown seat. *)
Lemma structural_errors_witness :
  (phase table2 = None \/ phase table2 = Some COMPLETED) /\
  apply_action level_evaluate "A" "call" 0 table2
  = (Ret (RespError "No active hand"), table2) /\
  (forall p, In p (players table2_started) -> player_id p <> "Z") /\
  apply_action level_evaluate "Z" "call" 0 table2_started
  = (Raise (KeyError "Z"), table2_started).
Proof.
  assert (H1 : phase table2 = None \/ phase table2 = Some COMPLETED) by now left.
  assert (H2 : forall p, In p (players table2_started) -> player_id p <> "Z").
  { intros p [Hp|[Hp|[]]]; subst p; discriminate. }
  split; [exact H1|].
  split; [exact (proj1 (structural_errors level_evaluate "A" "call" 0 table2) H1)|].
  split; [exact H2|].
  exact (proj2 (structural_errors level_evaluate "Z" "call" 0 table2_started)
           PRE_FLOP eq_refl ltac:(discriminate) H2).
Defined.

(** The small blind of the two-seat table, facing the big blind. *)
Lemma legal_actions_spec_witness :
  (find_player_index "A" table2_started = Ret 0%nat) /\
  (players table2_started !! 0%nat = Some (seat_at 0 table2_started)) /\
  (exists acts,
    legal_actions "A" table2_started = Ret acts /\ List.NoDup acts /\
    (is_folded (seat_at 0 table2_started) = true \/ is_all_in (seat_at 0 table2_started) = true \/ phase table2_started = Some COMPLETED ->
     acts = []) /\
    (is_folded (seat_at 0 table2_started) = false -> is_all_in (seat_at 0 table2_started) = false -> phase table2_started <> Some COMPLETED ->
     exists highest,
       is_maximum highest (map committed (players table2_started)) /\
       let to_call := highest - committed (seat_at 0 table2_started) in
       (0 < to_call \/ to_call = 0) /\
       (0 < to_call ->
        forall a, In a acts <->
          a = "fold" \/ (a = "call" /\ to_call <= stack (seat_at 0 table2_started)) \/
          (a = "raise" /\ to_call < stack (seat_at 0 table2_started)) \/ (a = "allin" /\ 0 < stack (seat_at 0 table2_started))) /\
       (to_call = 0 ->
        forall a, In a acts <->
          a = "check" \/ ((a = "bet" \/ a = "allin") /\ 0 < stack (seat_at 0 table2_started))))).
Proof.
  assert (H1 : find_player_index "A" table2_started = Ret 0%nat).
  { reflexivity. }
  assert (H2 : players table2_started !! 0%nat = Some (seat_at 0 table2_started)).
  { reflexivity. }
  repeat (split; [assumption|]).
  exact (legal_actions_spec "A" table2_started 0%nat (seat_at 0 table2_started) H1 H2).
Defined.

(** The small blind asks to check while it owes the big blind. *)
Lemma rejection_leaves_state_witness :
  (find_player_index "A" table2_started = Ret 0%nat) /\
  (players table2_started !! 0%nat = Some (seat_at 0 table2_started)) /\
  (legal_actions "A" table2_started = Ret ["fold"; "call"; "raise"; "allin"]) /\
  ((~ In "check" ["fold"; "call"; "raise"; "allin"] \/
   (("check" = "bet" \/ "check" = "raise") /\ (0 <= 0 \/ stack (seat_at 0 table2_started) < 0)))) /\
  ((exists msg,
     apply_action level_evaluate "A" "check" 0 table2_started = (Ret (RespError msg), table2_started)) /\
  (forall msg st',
     apply_action level_evaluate "A" "check" 0 table2_started = (Ret (RespError msg), st') ->
     st' = table2_started)).
Proof.
  assert (H1 : find_player_index "A" table2_started = Ret 0%nat).
  { reflexivity. }
  assert (H2 : players table2_started !! 0%nat = Some (seat_at 0 table2_started)).
  { reflexivity. }
  assert (H3 : legal_actions "A" table2_started = Ret ["fold"; "call"; "raise"; "allin"]).
  { reflexivity. }
  assert (H4 : (~ In "check" ["fold"; "call"; "raise"; "allin"] \/
   (("check" = "bet" \/ "check" = "raise") /\ (0 <= 0 \/ stack (seat_at 0 table2_started) < 0)))).
  { left. simpl. intuition discriminate. }
  repeat (split; [assumption|]).
  exact (rejection_leaves_state level_evaluate "A" "check" 0 table2_started 0%nat (seat_at 0 table2_started) ["fold"; "call"; "raise"; "allin"] H1 H2 H3 H4).
Defined.

(** The small blind raises by 20 over the call. *)
Lemma raise_semantics_witness :
  (phase table2_started = Some PRE_FLOP) /\
  (PRE_FLOP <> COMPLETED) /\
  (find_player_index "A" table2_started = Ret 0%nat) /\
  (players table2_started !! 0%nat = Some (seat_at 0 table2_started)) /\
  (legal_actions "A" table2_started = Ret ["fold"; "call"; "raise"; "allin"]) /\
  (In "raise" ["fold"; "call"; "raise"; "allin"]) /\
  (exists highest,
    is_maximum highest (map committed (players table2_started)) /\
    let to_call := highest - committed (seat_at 0 table2_started) in
    let pay := Z.min (stack (seat_at 0 table2_started)) (to_call + 20) in
    (20 <= 0 \/ stack (seat_at 0 table2_started) < 20 ->
     apply_action level_evaluate "A" "raise" 20 table2_started
     = (Ret (RespError "Invalid raise amount"), table2_started)) /\
    (0 < 20 <= stack (seat_at 0 table2_started) ->
     let q := mkPlayerState (player_id (seat_at 0 table2_started)) (stack (seat_at 0 table2_started) - pay) (hole_cards (seat_at 0 table2_started))
                (committed (seat_at 0 table2_started) + pay) false (stack (seat_at 0 table2_started) - pay =? 0) (seat (seat_at 0 table2_started)) in
     let st1 := booked 0%nat q pay (mkAction "A" "raise" pay) table2_started in
     apply_action level_evaluate "A" "raise" 20 table2_started = finish_action level_evaluate st1 /\
     forall r st', finish_action level_evaluate st1 = (r, st') ->
       (forall msg, r <> Ret (RespError msg)) /\
       actions st' = actions table2_started ++ [mkAction "A" "raise" pay] /\
       map committed (players st')
       = <[0%nat := committed (seat_at 0 table2_started) + pay]> (map committed (players table2_started)))).
Proof.
  assert (H1 : phase table2_started = Some PRE_FLOP).
  { reflexivity. }
  assert (H2 : PRE_FLOP <> COMPLETED).
  { discriminate. }
  assert (H3 : find_player_index "A" table2_started = Ret 0%nat).
  { reflexivity. }
  assert (H4 : players table2_started !! 0%nat = Some (seat_at 0 table2_started)).
  { reflexivity. }
  assert (H5 : legal_actions "A" table2_started = Ret ["fold"; "call"; "raise"; "allin"]).
  { reflexivity. }
  assert (H6 : In "raise" ["fold"; "call"; "raise"; "allin"]).
  { simpl. tauto. }
  repeat (split; [assumption|]).
  exact (raise_semantics level_evaluate "A" 20 table2_started PRE_FLOP 0%nat (seat_at 0 table2_started) ["fold"; "call"; "raise"; "allin"] H1 H2 H3 H4 H5 H6).
Defined.

(** Three seats tie over a pot of 100. *)
Lemma tie_split_witness :
  ((2 <= length (List.filter (fun p => negb (is_folded p)) (players table3)))%nat) /\
  (let ws := co_winners level_evaluate table3 in
  let k := Z.of_nat (length ws) in
  (forall i, In i ws <-> co_winner level_evaluate table3 i) /\
  (forall w0 rest, ws = w0 :: rest -> forall j, In j ws -> (w0 <= j)%nat) /\
  (1 <= length ws)%nat /\
  exists st',
    evaluate_and_distribute level_evaluate table3 = (Ret tt, st') /\
    total_pot st' = 0 /\
    pot_history st'
    = pot_history table3
      ++ [PotSplit (seat_ids table3 ws) (total_pot table3 / k) (total_pot table3 mod k)] /\
    length (players st') = length (players table3) /\
    forall i p, players table3 !! i = Some p ->
      players st' !! i = Some (set_stack (stack p + payout level_evaluate table3 i) p)).
Proof.
  assert (H1 : (2 <= length (List.filter (fun p => negb (is_folded p)) (players table3)))%nat).
  { simpl. lia. }
  repeat (split; [assumption|]).
  exact (tie_split level_evaluate table3 H1).
Defined.

(** The second all-in, with the run-out and the showdown it triggers. *)
Lemma apply_action_conserves_witness :
  (apply_action level_evaluate "B" "allin" 0 table2_shoved = (Ret (RespOk "completed" 0), table2_run_out)) /\
  (sum_stack table2_run_out + total_pot table2_run_out = sum_stack table2_shoved + total_pot table2_shoved /\
  exists pay,
    actions table2_run_out = actions table2_shoved ++ [mkAction "B" "allin" pay] /\
    sum_committed table2_run_out = sum_committed table2_shoved + pay).
Proof.
  assert (H1 : apply_action level_evaluate "B" "allin" 0 table2_shoved = (Ret (RespOk "completed" 0), table2_run_out)).
  { vm_compute. reflexivity. }
  repeat (split; [assumption|]).
  exact (apply_action_conserves level_evaluate "B" "allin" 0 table2_shoved table2_run_out "completed" 0 H1).
Defined.

(** Both seats all-in before the flop. *)
Lemma fast_forward_refines_witness :
  (phase table2_both_in = Some PRE_FLOP) /\
  (is_street PRE_FLOP) /\
  ((forall p, In p (players table2_both_in) -> ~ (is_folded p = false /\ is_all_in p = false))) /\
  ((exists p, In p (players table2_both_in) /\ is_folded p = false)) /\
  (spec_run_out PRE_FLOP (community_cards table2_both_in) (deck table2_both_in) = Some (SHOWDOWN, ["3d"; "3h"; "3s"; "4d"; "4s"], (deck table2_run_out))) /\
  (_is_betting_round_complete table2_both_in = Ret true /\
  (exists st6,
     evaluate_and_distribute level_evaluate (with_board SHOWDOWN ["3d"; "3h"; "3s"; "4d"; "4s"] (deck table2_run_out) table2_both_in) = (Ret tt, st6) /\
     _advance_phase level_evaluate table2_both_in = (Ret tt, set_phase (Some COMPLETED) st6) /\
     community_cards st6 = ["3d"; "3h"; "3s"; "4d"; "4s"] /\ deck st6 = (deck table2_run_out)) /\
  (forall s s',
     board s = board table2_both_in -> street_path level_evaluate s s' ->
     phase s' = Some COMPLETED /\ community_cards s' = ["3d"; "3h"; "3s"; "4d"; "4s"] /\ deck s' = (deck table2_run_out)) /\
  (forall s,
     board s = board table2_both_in ->
     (exists p, In p (players s) /\ is_folded p = false /\ is_all_in p = false) ->
     exists s', street_path level_evaluate s s') /\
  (PRE_FLOP = PRE_FLOP ->
   exists b1 c1 c2 c3 b2 c4 b3 c5,
     deck table2_both_in = b1 :: c1 :: c2 :: c3 :: b2 :: c4 :: b3 :: c5 :: (deck table2_run_out) /\
     ["3d"; "3h"; "3s"; "4d"; "4s"] = community_cards table2_both_in ++ [c1; c2; c3; c4; c5])).
Proof.
  assert (H1 : phase table2_both_in = Some PRE_FLOP).
  { reflexivity. }
  assert (H2 : is_street PRE_FLOP).
  { unfold is_street. simpl. lia. }
  assert (H3 : (forall p, In p (players table2_both_in) -> ~ (is_folded p = false /\ is_all_in p = false))).
  { intros p [Hp|[Hp|[]]]; subst p; simpl; intros [_ Hp]; discriminate Hp. }
  assert (H4 : (exists p, In p (players table2_both_in) /\ is_folded p = false)).
  { exists (seat_at 0 table2_both_in). split; [now left | reflexivity]. }
  assert (H5 : spec_run_out PRE_FLOP (community_cards table2_both_in) (deck table2_both_in) = Some (SHOWDOWN, ["3d"; "3h"; "3s"; "4d"; "4s"], (deck table2_run_out))).
  { reflexivity. }
  repeat (split; [assumption|]).
  exact (fast_forward_refines level_evaluate table2_both_in PRE_FLOP ["3d"; "3h"; "3s"; "4d"; "4s"] (deck table2_run_out) H1 H2 H3 H4 H5).
Defined.

(** The hand of two all-ins, from the blinds to the split pot. *)
Lemma chips_conserved_witness :
  (hand_state level_evaluate no_shuffle table2 table2_run_out) /\
  (sum_stack table2_run_out + total_pot table2_run_out = sum_stack table2 /\
  (phase table2_run_out = Some COMPLETED -> total_pot table2_run_out = 0 /\ sum_stack table2_run_out = sum_stack table2) /\
  spec_quantity table2_run_out = sum_stack table2 + sum_committed table2_run_out).
Proof.
  assert (H1 : hand_state level_evaluate no_shuffle table2 table2_run_out).
  { exact table2_run_out_reached. }
  repeat (split; [assumption|]).
  exact (chips_conserved level_evaluate no_shuffle table2 table2_run_out H1).
Defined.

(** The two-seat table after the blinds. *)
Lemma stacks_never_negative_witness :
  ((forall p, In p (players table2) -> 0 <= stack p)) /\
  (0 <= small_blind table2) /\
  (0 <= big_blind table2) /\
  (hand_state level_evaluate no_shuffle table2 table2_started) /\
  ((forall p, In p (players table2_started) -> 0 <= stack p) /\
  forall pid action amount,
    (forall p, In p (players (snd (apply_action level_evaluate pid action amount table2_started))) ->
               0 <= stack p) /\
    (forall msg e',
       apply_action level_evaluate pid action amount table2_started = (Ret (RespError msg), e') ->
       e' = table2_started) /\
    (forall idx p,
       find_player_index pid table2_started = Ret idx -> players table2_started !! idx = Some p ->
       action = "bet" \/ action = "raise" -> stack p < amount ->
       exists msg,
         apply_action level_evaluate pid action amount table2_started = (Ret (RespError msg), table2_started))).
Proof.
  assert (H1 : (forall p, In p (players table2) -> 0 <= stack p)).
  { intros p [Hp|[Hp|[]]]; subst p; simpl; lia. }
  assert (H2 : 0 <= small_blind table2).
  { simpl. lia. }
  assert (H3 : 0 <= big_blind table2).
  { simpl. lia. }
  assert (H4 : hand_state level_evaluate no_shuffle table2 table2_started).
  { exact table2_started_reached. }
  repeat (split; [assumption|]).
  exact (stacks_never_negative level_evaluate no_shuffle table2 table2_started H1 H2 H3 H4).
Defined.


(** * More of the engine *)

(** ** Looking a seat up *)

Lemma find_from_first (pid : string) (ps : list PlayerState) (i j : nat) :
  find_from pid ps i = Ret j <->
  (i <= j)%nat /\
  (exists p, ps !! (j - i)%nat = Some p /\ player_id p = pid) /\
  (forall k q, (k < j - i)%nat -> ps !! k = Some q -> player_id q <> pid).
Proof.
  revert i. induction ps as [|x ps IH]; intros i; simpl.
  - split; [discriminate | intros (_ & (p & Hp & _) & _); discriminate].
  - destruct (String.eqb_spec (player_id x) pid) as [E|E].
    + split.
      * intros [= <-]. rewrite Nat.sub_diag. split; [lia|]. split; [eauto|].
        intros k q Hk. lia.
      * intros (Hle & (p & Hp & Hid) & Hfirst).
        destruct (j - i)%nat as [|d] eqn:Hd; [f_equal; lia|].
        exfalso. apply (Hfirst 0%nat x); [lia | reflexivity | exact E].
    + rewrite IH. split.
      * intros (Hle & (p & Hp & Hid) & Hfirst). split; [lia|].
        replace (j - i)%nat with (S (j - S i)) by lia. split; [eauto|].
        intros [|k] q Hk Hq; [simpl in Hq; congruence|].
        apply (Hfirst k q); [lia | exact Hq].
      * intros (Hle & (p & Hp & Hid) & Hfirst).
        assert (Hne : j <> i).
        { intros ->. rewrite Nat.sub_diag in Hp. simpl in Hp. congruence. }
        replace (j - i)%nat with (S (j - S i)) in Hp, Hfirst by lia.
        split; [lia|]. split; [eauto|].
        intros k q Hk Hq. apply (Hfirst (S k) q); [lia | exact Hq].
Qed.

Lemma find_from_raises (pid : string) (ps : list PlayerState) (i : nat) (e : exn) :
  find_from pid ps i = Raise e ->
  e = KeyError pid /\ forall p, In p ps -> player_id p <> pid.
Proof.
  revert i. induction ps as [|x ps IH]; intros i; simpl.
  - intros [= <-]. split; [reflexivity | intros p []].
  - destruct (String.eqb_spec (player_id x) pid) as [E|E]; [discriminate|].
    intros H. apply IH in H as [-> Hall]. split; [reflexivity|].
    intros p [<-|Hp]; auto.
Qed.

(** X1.  [find_player_index] answers the position of the first seat that
    carries the identifier, and of no other; it raises exactly when no
    seat carries it, and then it raises [KeyError] of that identifier. *)
Theorem find_player_index_first (pid : string) (st : Engine) :
  (forall idx,
     find_player_index pid st = Ret idx <->
     (exists p, players st !! idx = Some p /\ player_id p = pid) /\
     (forall k q, (k < idx)%nat -> players st !! k = Some q -> player_id q <> pid)) /\
  (forall e,
     find_player_index pid st = Raise e <->
     e = KeyError pid /\ forall p, In p (players st) -> player_id p <> pid).
Proof.
  unfold find_player_index. split.
  - intros idx. rewrite find_from_first, Nat.sub_0_r. intuition lia.
  - intros e. split; [apply find_from_raises|].
    intros [-> Hall]. now apply find_from_none.
Qed.

(** X2.  When no two seats carry the same identifier, looking up the
    identifier of the seat at a position answers that position. *)
Theorem find_player_index_round_trip (st : Engine) (i : nat) (p : PlayerState) :
  List.NoDup (map player_id (players st)) ->
  players st !! i = Some p ->
  find_player_index (player_id p) st = Ret i.
Proof.
  intros Hnd Hp. unfold find_player_index. apply find_from_first.
  rewrite Nat.sub_0_r. split; [lia|]. split; [eauto|].
  intros k q Hk Hq Heq.
  assert (Hi : map player_id (players st) !! i = Some (player_id p))
    by now rewrite list_lookup_fmap, Hp.
  assert (Hk' : map player_id (players st) !! k = Some (player_id p))
    by now rewrite list_lookup_fmap, Hq, <- Heq.
  apply NoDup_ListNoDup in Hnd.
  pose proof (NoDup_lookup _ _ _ _ Hnd Hi Hk'). lia.
Qed.

(** ** Building a table *)

Lemma build_seats (stacks : list Z) (ids : list string) (k : nat) :
  let build :=
    fix build (ids : list string) (i : nat) : outcome (list PlayerState) :=
      match ids with
      | [] => Ret []
      | pid :: ids' =>
          s <-? index stacks i ;;
          rest <-? build ids' (S i) ;;
          Ret (mkPlayerState pid s [] 0 false false i :: rest)
      end in
  ((k + length ids <= length stacks)%nat ->
   exists ps,
     build ids k = Ret ps /\ length ps = length ids /\
     forall i pid, ids !! i = Some pid ->
       exists s, stacks !! (k + i)%nat = Some s /\
                 ps !! i = Some (mkPlayerState pid s [] 0 false false (k + i))) /\
  ((k <= length stacks)%nat -> (length stacks < k + length ids)%nat ->
   build ids k = Raise IndexError).
Proof.
  intros build. revert k. induction ids as [|pid ids IH]; intros k.
  - split; [|simpl; lia]. intros _. exists []. repeat split. intros i x H.
    discriminate H.
  - destruct (IH (S k)) as [IHok IHbad]. split.
    + intros Hlen. simpl in Hlen.
      destruct (IHok ltac:(lia)) as (ps & Hps & Hl & Hseats).
      destruct (lookup_lt_is_Some_2 stacks k ltac:(lia)) as [s Hs].
      exists (mkPlayerState pid s [] 0 false false k :: ps).
      split; [|split].
      * simpl. unfold index at 1. rewrite Hs. simpl. fold build. now rewrite Hps.
      * simpl. now rewrite Hl.
      * intros [|i] x Hx; simpl in Hx.
        -- injection Hx as <-. exists s. rewrite Nat.add_0_r. auto.
        -- destruct (Hseats i x Hx) as (s' & Hs' & Hp').
           exists s'. replace (k + S i)%nat with (S k + i)%nat by lia. auto.
    + intros Hk Hlen. simpl in Hlen. simpl. unfold index at 1.
      destruct (stacks !! k) as [s|] eqn:Hs; [|reflexivity]. simpl. fold build.
      apply lookup_lt_Some in Hs. now rewrite IHbad by lia.
Qed.

(** X3.  [__init__] refuses fewer than two identifiers by its assertion;
    with a list of stacks shorter than the list of identifiers it leaves
    by [IndexError]; otherwise it builds one seat per identifier, in
    order, each with its stack (1000 when no stacks are given), nothing
    committed, no cards, not folded, not all-in and its position as
    [seat], with no phase, an empty pot, an empty deck and the button on
    seat 0. *)
Theorem new_engine_spec (ids : list string) (given : option (list Z))
    (sb bb : Z) (uuid : string) :
  let stacks := match given with
                | None => replicate (length ids) 1000
                | Some l => l
                end in
  ((length ids < 2)%nat -> new_engine ids given sb bb uuid = Raise AssertionError) /\
  ((2 <= length ids)%nat -> (length stacks < length ids)%nat ->
   new_engine ids given sb bb uuid = Raise IndexError) /\
  ((2 <= length ids)%nat -> (length ids <= length stacks)%nat ->
   exists e,
     new_engine ids given sb bb uuid = Ret e /\
     length (players e) = length ids /\
     (forall i pid, ids !! i = Some pid ->
        exists s, stacks !! i = Some s /\
                  players e !! i = Some (mkPlayerState pid s [] 0 false false i)) /\
     phase e = None /\ total_pot e = 0 /\ deck e = [] /\ community_cards e = [] /\
     actions e = [] /\ pot_history e = [] /\ button_index e = 0%nat /\
     current_actor_index e = 0%nat /\ small_blind e = sb /\ big_blind e = bb /\
     hand_id e = uuid /\ deck_seed e = None).
Proof.
  intros stacks. unfold new_engine. fold stacks. unfold default_stacks.
  assert (Hst : match given with
                | Some l => l
                | None => replicate (length ids) 1000
                end = stacks) by reflexivity.
  rewrite Hst.
  destruct (build_seats stacks ids 0) as [Hok Hbad]. simpl in Hok, Hbad.
  split; [|split].
  - intros H. apply Nat.ltb_lt in H. now rewrite H.
  - intros H2 Hlen. destruct (Nat.ltb_spec (length ids) 2); [lia|].
    now rewrite (Hbad ltac:(lia) Hlen).
  - intros H2 Hlen. destruct (Nat.ltb_spec (length ids) 2); [lia|].
    destruct (Hok Hlen) as (ps & Hps & Hl & Hseats). rewrite Hps. simpl.
    eexists. split; [reflexivity|]. simpl. repeat split; auto.
Qed.

(** ** A hand nobody can play *)

(** X4.  In a hand that is not completed and in which every seat is
    folded or all-in, nothing moves: every call of [apply_action] is
    answered [Player cannot act] (or leaves by [KeyError] for an unknown
    identifier), [legal_actions] offers nothing, [_advance_turn] does
    nothing, and the state stays as it is, so the hand cannot be brought
    to completion through these methods. *)
Theorem hand_without_actors (evaluate : list string -> list string -> Z)
    (st : Engine) (ph : Phase) :
  phase st = Some ph -> ph <> COMPLETED ->
  (forall p, In p (players st) -> ~ (is_folded p = false /\ is_all_in p = false)) ->
  _advance_turn st = (Ret tt, st) /\
  forall pid action amount,
    (apply_action evaluate pid action amount st
     = (Ret (RespError "Player cannot act"), st) /\
     legal_actions pid st = Ret []) \/
    (apply_action evaluate pid action amount st = (Raise (KeyError pid), st) /\
     legal_actions pid st = Raise (KeyError pid)).
Proof.
  intros Hph Hne Hnone. split.
  - unfold _advance_turn, bind, get.
    now rewrite (proj2 (no_active_spec _) Hnone).
  - intros pid action amount.
    destruct (find_player_index pid st) as [idx|e] eqn:Hfind.
    + left. destruct (find_player_index_lookup _ _ _ Hfind) as (p & Hp & _).
      assert (Hgate : is_folded p || is_all_in p = true).
      { assert (Hin : In p (players st))
          by (apply list_elem_of_In, list_elem_of_lookup; eauto).
        specialize (Hnone p Hin).
        destruct (is_folded p), (is_all_in p); simpl; auto; exfalso; auto. }
      split; [now apply (apply_action_cannot_act _ _ _ _ _ ph idx p)|].
      unfold legal_actions. rewrite Hfind. simpl. unfold index. rewrite Hp. simpl.
      apply orb_true_iff in Hgate as [-> | ->]; simpl; [reflexivity|].
      now rewrite orb_true_r.
    + right. apply find_from_raises in Hfind as Hkey. destruct Hkey as [-> _].
      split; [now apply (apply_action_unknown _ _ _ _ _ ph)|].
      unfold legal_actions. now rewrite Hfind.
Qed.

(** ** Whose turn it is *)

Lemma seat_can_act_In (st : Engine) :
  (exists i, seat_can_act st i = true) <->
  (exists p, In p (players st) /\ is_folded p = false /\ is_all_in p = false).
Proof.
  unfold seat_can_act. split.
  - intros [i Hi]. destruct (players st !! i) as [p|] eqn:Hp; [|discriminate].
    exists p. split; [apply list_elem_of_In, list_elem_of_lookup; eauto|].
    now apply can_act_spec.
  - intros (p & Hp & Hact). apply list_elem_of_In, list_elem_of_lookup in Hp as [i Hi].
    exists i. rewrite Hi. now apply can_act_spec.
Qed.

Lemma mod_reach (n cur idx : nat) :
  (idx < n)%nat ->
  exists k, (1 <= k <= n)%nat /\ ((cur + k) mod n)%nat = idx.
Proof.
  intros Hidx. pose proof (Nat.div_mod_eq cur n) as Hdm.
  assert (Hc : (cur mod n < n)%nat) by (apply Nat.mod_upper_bound; lia).
  destruct (Nat.lt_ge_cases (cur mod n) idx) as [Hlt|Hge].
  - exists (idx - cur mod n)%nat. split; [lia|]. symmetry.
    apply (Nat.mod_unique _ _ (cur / n)); [exact Hidx | lia].
  - exists (n + idx - cur mod n)%nat. split; [lia|]. symmetry.
    apply (Nat.mod_unique _ _ (S (cur / n))); [exact Hidx | lia].
Qed.

(** The scan of the seats [(base + k) % n] for [k] from [a] on. *)
Lemma first_able_seq (st : Engine) (base a len : nat) :
  (0 < length (players st))%nat ->
  (exists k, (a <= k < a + len)%nat /\
     first_able (players st) base (length (players st)) (seq a len)
     = Ret (Some ((base + k) mod length (players st))%nat) /\
     seat_can_act st ((base + k) mod length (players st)) = true /\
     forall j, (a <= j < k)%nat ->
       seat_can_act st ((base + j) mod length (players st)) = false) \/
  (first_able (players st) base (length (players st)) (seq a len) = Ret None /\
   forall j, (a <= j < a + len)%nat ->
     seat_can_act st ((base + j) mod length (players st)) = false).
Proof.
  intros Hn. revert a. induction len as [|len IH]; intros a.
  - right. split; [reflexivity | intros j Hj; lia].
  - simpl.
    assert (Hidx : ((base + a) mod length (players st) < length (players st))%nat)
      by (apply Nat.mod_upper_bound; lia).
    destruct (lookup_lt_is_Some_2 _ _ Hidx) as [p Hp].
    unfold index. rewrite Hp. simpl.
    destruct (can_act p) eqn:Hc.
    + left. exists a. split; [lia|]. split; [reflexivity|].
      split; [unfold seat_can_act; now rewrite Hp | intros j Hj; lia].
    + assert (Ha : seat_can_act st ((base + a) mod length (players st)) = false)
        by (unfold seat_can_act; now rewrite Hp).
      destruct (IH (S a)) as [(k & Hk & Hrun & Hable & Hfirst) | (Hrun & Hnone)].
      * left. exists k. split; [lia|]. split; [exact Hrun|]. split; [exact Hable|].
        intros j Hj. destruct (Nat.eq_dec j a) as [->|Hne]; [exact Ha|].
        apply Hfirst. lia.
      * right. split; [exact Hrun|]. intros j Hj.
        destruct (Nat.eq_dec j a) as [->|Hne]; [exact Ha|]. apply Hnone. lia.
Qed.

Lemma no_seat_can_act (st : Engine) :
  (length (List.filter can_act (players st)) =? 0)%nat = true <->
  forall i, seat_can_act st i = false.
Proof.
  rewrite no_active_spec. split.
  - intros H i. destruct (seat_can_act st i) eqn:Hi; [|reflexivity].
    exfalso. destruct (proj1 (seat_can_act_In st) (ex_intro _ i Hi)) as (p & Hp & Hact).
    exact (H p Hp Hact).
  - intros H p Hp Hact.
    destruct (proj2 (seat_can_act_In st) (ex_intro _ p (conj Hp Hact))) as [i Hi].
    rewrite H in Hi. discriminate.
Qed.

Lemma advance_turn_found (st : Engine) (i : nat) :
  seat_can_act st i = true ->
  exists k, (1 <= k <= length (players st))%nat /\
    _advance_turn st
    = (Ret tt, set_current_actor_index
                 ((current_actor_index st + k) mod length (players st))%nat st) /\
    seat_can_act st ((current_actor_index st + k) mod length (players st)) = true /\
    forall j, (1 <= j < k)%nat ->
      seat_can_act st ((current_actor_index st + j) mod length (players st)) = false.
Proof.
  intros Hi.
  assert (Hlt : (i < length (players st))%nat).
  { unfold seat_can_act in Hi. destruct (players st !! i) eqn:E; [|discriminate].
    now apply lookup_lt_Some in E. }
  assert (Hact : (length (List.filter can_act (players st)) =? 0)%nat = false).
  { destruct (length _ =? 0)%nat eqn:E; [|reflexivity].
    pose proof (proj1 (no_seat_can_act st) E i) as E'.
    rewrite E' in Hi. discriminate. }
  destruct (first_able_seq st (current_actor_index st) 1 (length (players st)))
    as [(k & Hk & Hrun & Hable & Hfirst) | (Hrun & Hnone)]; [lia| |].
  - exists k. split; [lia|]. split; [|split; assumption].
    unfold _advance_turn, bind at 1, get. rewrite Hact.
    unfold bind, read. now rewrite Hrun.
  - exfalso. destruct (mod_reach (length (players st)) (current_actor_index st) i Hlt)
      as (k & Hk & Hmod).
    rewrite <- Hmod in Hi. rewrite (Hnone k) in Hi by lia. discriminate.
Qed.

(** X5.  [_advance_turn] moves the pointer to the nearest seat, clockwise
    after the current one, that is neither folded nor all-in; after a
    full circle that can be the current seat itself.  When no seat can
    act it changes nothing. *)
Theorem advance_turn_next (st : Engine) :
  ((forall i, seat_can_act st i = false) -> _advance_turn st = (Ret tt, st)) /\
  (forall i, seat_can_act st i = true ->
   exists k, (1 <= k <= length (players st))%nat /\
     _advance_turn st
     = (Ret tt, set_current_actor_index
                  ((current_actor_index st + k) mod length (players st))%nat st) /\
     seat_can_act st ((current_actor_index st + k) mod length (players st)) = true /\
     forall j, (1 <= j < k)%nat ->
       seat_can_act st ((current_actor_index st + j) mod length (players st)) = false).
Proof.
  split; [|apply advance_turn_found].
  intros Hnone. apply (proj2 (no_seat_can_act st)) in Hnone.
  unfold _advance_turn, bind, get. now rewrite Hnone.
Qed.

Lemma mod_reach0 (n cur idx : nat) :
  (idx < n)%nat ->
  exists k, (k < n)%nat /\ ((cur + k) mod n)%nat = idx.
Proof.
  intros Hidx. destruct (mod_reach n cur idx Hidx) as (k & Hk & Hmod).
  destruct (Nat.eq_dec k n) as [->|Hne].
  - exists 0%nat. split; [lia|]. rewrite <- Hmod, Nat.add_0_r.
    replace (cur + n)%nat with (cur + 1 * n)%nat by lia.
    now rewrite Nat.Div0.mod_add.
  - exists k. split; [lia | exact Hmod].
Qed.

Lemma set_current_actor_index_same (st : Engine) :
  set_current_actor_index (current_actor_index st) st = st.
Proof. now destruct st. Qed.

(** [_advance_turn] always returns, and touches nothing but the pointer. *)
Lemma advance_turn_run (st : Engine) :
  exists k,
    _advance_turn st = (Ret tt, set_current_actor_index k st) /\
    (((forall i, seat_can_act st i = false) /\ k = current_actor_index st) \/
     (seat_can_act st k = true /\ (k < length (players st))%nat)).
Proof.
  destruct (length (List.filter can_act (players st)) =? 0)%nat eqn:Hact.
  - exists (current_actor_index st).
    split; [|left; split; [now apply no_seat_can_act | reflexivity]].
    unfold _advance_turn, bind, get. rewrite Hact.
    now rewrite set_current_actor_index_same.
  - assert (Hn : (0 < length (players st))%nat).
    { destruct (players st); [discriminate Hact | simpl; lia]. }
    destruct (first_able_seq st (current_actor_index st) 1 (length (players st)) Hn)
      as [(k & Hk & Hrun & Hable & _) | (_ & Hnone)].
    + eexists. split; [|right; split; [exact Hable|]].
      * unfold _advance_turn, bind at 1, get. rewrite Hact.
        unfold bind, read. now rewrite Hrun.
      * apply Nat.mod_upper_bound. lia.
    + exfalso. assert (Hall : forall i, seat_can_act st i = false).
      { intros i. destruct (seat_can_act st i) eqn:Hi; [|reflexivity].
        assert (Hlt : (i < length (players st))%nat).
        { unfold seat_can_act in Hi. destruct (players st !! i) eqn:E; [|discriminate].
          now apply lookup_lt_Some in E. }
        destruct (mod_reach _ (current_actor_index st) i Hlt) as (k & Hk & Hmod).
        rewrite <- Hmod, Hnone in Hi by lia. discriminate. }
      apply no_seat_can_act in Hall. congruence.
Qed.

Lemma same_actor_refl (st : Engine) : same_actor st st.
Proof. reflexivity. Qed.

Lemma same_actor_trans (a b c : Engine) :
  same_actor a b -> same_actor b c -> same_actor a c.
Proof. unfold same_actor. congruence. Qed.

Local Ltac actor_step :=
  first
    [ apply (preserves_bind same_actor same_actor_trans); [|intros ?]
    | apply (preserves_ret same_actor same_actor_refl)
    | apply (preserves_raise same_actor same_actor_refl)
    | apply (preserves_get same_actor same_actor_refl)
    | apply (preserves_read same_actor same_actor_refl)
    | apply (preserves_modify same_actor); intros ?; reflexivity ].

Lemma pop_deck_actor : preserves same_actor pop_deck.
Proof. intros st. unfold pop_deck. now destruct (deck st). Qed.

Lemma pop_cards_actor (k : nat) : preserves same_actor (pop_cards k).
Proof.
  induction k as [|k IH]; simpl.
  - actor_step.
  - actor_step; [apply pop_deck_actor|]. actor_step; [exact IH|]. actor_step.
Qed.

Lemma deal_flop_actor : preserves same_actor deal_flop.
Proof.
  unfold deal_flop. actor_step; [apply pop_deck_actor|].
  actor_step; [apply pop_cards_actor|]. actor_step.
Qed.

Lemma deal_one_actor : preserves same_actor deal_one.
Proof.
  unfold deal_one. actor_step; [apply pop_deck_actor|].
  actor_step; [apply pop_deck_actor|]. actor_step.
Qed.

Section Actor.

Variable evaluate : list string -> list string -> Z.

Lemma showdown_actor :
  preserves same_actor
    (evaluate_and_distribute evaluate ;; modify (set_phase (Some COMPLETED))).
Proof.
  actor_step; [|actor_step].
  intros st. rewrite evaluate_and_distribute_run.
  now destruct (unfolded st) as [|w [|w' rest]].
Qed.

Lemma fast_forward_actor (fuel : nat) :
  preserves same_actor (fast_forward evaluate fuel).
Proof.
  induction fuel as [|fuel IH]; simpl.
  - actor_step; [actor_step|]. destruct (_ || _); actor_step.
  - actor_step; [actor_step|]. destruct (_ || _); [actor_step|].
    actor_step; [actor_step|]. actor_step; [actor_step|].
    destruct a0; try exact IH; try apply showdown_actor.
    + actor_step; [apply deal_one_actor | exact IH].
    + actor_step; [apply deal_one_actor | exact IH].
Qed.

Lemma _advance_phase_actor : preserves same_actor (_advance_phase evaluate).
Proof.
  unfold _advance_phase. actor_step; [actor_step|].
  actor_step; [actor_step|].
  assert (Htail : preserves same_actor
            (st <- get ;;
             if (length (List.filter can_act (players st)) =? 0)%nat
             then fast_forward evaluate (length _phase_order) else ret tt)).
  { actor_step; [actor_step|].
    destruct (length _ =? 0)%nat; [apply fast_forward_actor | actor_step]. }
  destruct a; try apply showdown_actor.
  all: actor_step; [|exact Htail].
  all: first [apply deal_flop_actor | apply deal_one_actor | actor_step].
Qed.

Lemma seat_can_act_strip (s s' : Engine) :
  map strip (players s') = map strip (players s) ->
  forall i, seat_can_act s' i = seat_can_act s i.
Proof.
  intros H i. unfold seat_can_act.
  assert (E : map strip (players s') !! i = map strip (players s) !! i)
    by now rewrite H.
  rewrite !list_lookup_fmap in E.
  destruct (players s' !! i) as [p'|], (players s !! i) as [p|];
    cbv [fmap option_fmap option_map] in E; try discriminate; [|reflexivity].
  assert (E' : strip p' = strip p) by congruence.
  exact (f_equal can_act E').
Qed.

(** What the end of [apply_action] does to the turn, when it returns. *)
Lemma finish_action_turn (b s2 : Engine) (r : Response) (ph : Phase) :
  phase b = Some ph -> is_street ph ->
  finish_action evaluate b = (Ret r, s2) ->
  length (players s2) = length (players b) /\
  (forall i, seat_can_act s2 i = seat_can_act b i) /\
  (((forall i, seat_can_act b i = false) /\
    current_actor_index s2 = current_actor_index b /\ phase s2 = Some COMPLETED) \/
   (seat_can_act b (current_actor_index s2) = true /\
    (current_actor_index s2 < length (players b))%nat)).
Proof.
  intros Hph Hstreet H. unfold finish_action in H.
  apply bind_ret_inv in H as ([] & s1 & Hturn & H).
  destruct (advance_turn_run b) as (k & Hrun & Hk). rewrite Hrun in Hturn.
  injection Hturn as <-.
  apply bind_ret_inv in H as (complete & s1' & Hread & H).
  unfold read in Hread. injection Hread as Hcomplete <-.
  apply bind_ret_inv in H as ([] & s3 & Hadv & H).
  apply bind_ret_inv in H as (s4 & s4' & Hget & H).
  unfold get in Hget. injection Hget as <- <-.
  assert (s2 = s3) as ->.
  { destruct (phase s3); [|discriminate]. unfold ret in H. congruence. }
  set (s1 := set_current_actor_index k b) in *.
  assert (Hactor : current_actor_index s3 = k).
  { destruct complete; [|unfold ret in Hadv; now injection Hadv as <-].
    pose proof (_advance_phase_actor s1) as Hs. rewrite Hadv in Hs. exact Hs. }
  assert (Hstrip : map strip (players s3) = map strip (players b)).
  { destruct complete; [|unfold ret in Hadv; now injection Hadv as <-].
    pose proof (settles_seats _ _ (_advance_phase_settles evaluate s1)) as Hs.
    rewrite Hadv in Hs. exact Hs. }
  split; [|split].
  - rewrite <- (length_map strip (players s3)), Hstrip. apply length_map.
  - now apply seat_can_act_strip.
  - rewrite Hactor. destruct Hk as [[Hnone ->] | Hable]; [left | now right].
    split; [exact Hnone|]. split; [reflexivity|].
    assert (Hzero : (length (List.filter can_act (players s1)) =? 0)%nat = true)
      by now apply (no_seat_can_act b).
    unfold _is_betting_round_complete in Hcomplete. rewrite Hzero in Hcomplete.
    injection Hcomplete as <-.
    pose proof (advance_fast evaluate s1 ph Hph Hstreet Hzero) as Hfast.
    destruct (spec_run_out ph (community_cards s1) (deck s1)) as [[[? ?] ?]|].
    + rewrite Hfast in Hadv. now apply showdown_inv in Hadv.
    + destruct Hfast as [x Hx]. rewrite Hx in Hadv. discriminate.
Qed.

End Actor.

(** ** The turn at the start of a hand, and after every action *)

Lemma same_seats_refl (st : Engine) : same_seats st st.
Proof. reflexivity. Qed.

Lemma same_seats_trans (a b c : Engine) :
  same_seats a b -> same_seats b c -> same_seats a c.
Proof. unfold same_seats. congruence. Qed.

Local Ltac seats_step :=
  first
    [ apply (preserves_bind same_seats same_seats_trans); [|intros ?]
    | apply (preserves_ret same_seats same_seats_refl)
    | apply (preserves_raise same_seats same_seats_refl)
    | apply (preserves_get same_seats same_seats_refl)
    | apply (preserves_read same_seats same_seats_refl)
    | apply (preserves_modify same_seats); intros ?; unfold same_seats; simpl;
      first [reflexivity | apply length_alter] ].

Lemma update_player_seats (idx : nat) (f : PlayerState -> PlayerState) :
  preserves same_seats (update_player idx f).
Proof. unfold update_player. seats_step. Qed.

Lemma post_blind_seats (idx : nat) (amount : Z) (label : string) :
  preserves same_seats (post_blind idx amount label).
Proof.
  unfold post_blind. seats_step; [unfold player_at; seats_step|].
  seats_step; [apply update_player_seats|].
  seats_step; [apply update_player_seats|].
  seats_step; [seats_step|]. seats_step; [seats_step|].
  seats_step; [unfold player_at; seats_step|].
  destruct (_ =? 0); [apply update_player_seats | seats_step].
Qed.

Lemma pop_deck_seats : preserves same_seats pop_deck.
Proof. intros st. unfold pop_deck. now destruct (deck st). Qed.

Lemma deal_pass_seats (deal_start n : nat) :
  preserves same_seats (deal_pass deal_start n).
Proof.
  unfold deal_pass.
  apply (preserves_for_each same_seats same_seats_refl same_seats_trans).
  intros i. seats_step; [apply pop_deck_seats|].
  seats_step; [unfold player_at; seats_step | apply update_player_seats].
Qed.

Lemma open_hand_turn (seed : string) (st e1 : Engine) (info : string * string) :
  open_hand seed st = (Ret info, e1) ->
  (current_actor_index e1 < length (players e1))%nat /\
  ((exists i, seat_can_act e1 i = true) ->
   seat_can_act e1 (current_actor_index e1) = true).
Proof.
  intros H. unfold open_hand in H.
  apply bind_ret_inv in H as (st' & s0 & Hget & H). unfold get in Hget.
  injection Hget as <- <-. cbv zeta in H.
  destruct (length (players st) =? 0)%nat eqn:Hn0; [discriminate|].
  apply Nat.eqb_neq in Hn0.
  apply bind_ret_inv in H as ([] & s1 & H1 & H).
  apply bind_ret_inv in H as ([] & s2 & H2 & H).
  apply bind_ret_inv in H as ([] & s3 & H3 & H).
  assert (Hlen : length (players s3) = length (players st)).
  { match type of H1 with
    | ?m _ = _ => assert (L1 : same_seats st (snd (m st)))
                    by apply post_blind_seats
    end.
    rewrite H1 in L1.
    match type of H2 with
    | ?m _ = _ => assert (L2 : same_seats s1 (snd (m s1)))
                    by apply post_blind_seats
    end.
    rewrite H2 in L2.
    assert (L3 : same_seats s2 s3).
    { match type of H3 with
      | ?m _ = _ => assert (Hk : preserves same_seats m)
      end.
      { apply (preserves_for_each same_seats same_seats_refl same_seats_trans).
        intros _. apply deal_pass_seats. }
      specialize (Hk s2). now rewrite H3 in Hk. }
    unfold same_seats in *. simpl in *. congruence. }
  apply bind_ret_inv in H as ([] & s4 & Hset & H).
  unfold modify in Hset. injection Hset as <-.
  apply bind_ret_inv in H as ([] & s5 & Hset & H).
  unfold modify in Hset. injection Hset as <-.
  apply bind_ret_inv in H as (st1 & s6 & Hget & H).
  unfold get in Hget. injection Hget as <- <-.
  apply bind_ret_inv in H as (found & s7 & Hread & H).
  unfold read in Hread. injection Hread as Hfound <-.
  apply bind_ret_inv in H as ([] & s8 & Hmatch & H).
  apply bind_ret_inv in H as (st2 & s9 & Hget & H).
  unfold get in Hget. injection Hget as <- <-.
  unfold ret in H. injection H as _ <-.
  set (s5 := set_current_actor_index _ (set_phase (Some PRE_FLOP) s3)) in *.
  assert (Hlen5 : length (players s5) = length (players st)) by exact Hlen.
  assert (Hf : first_able (players s5) (current_actor_index s5)
                 (length (players s5)) (seq 0 (length (players s5))) = Ret found)
    by (rewrite Hlen5; exact Hfound).
  clear Hfound.
  destruct (first_able_seq s5 (current_actor_index s5) 0 (length (players s5))
              ltac:(lia))
    as [(k & Hk & Hrun & Hable & _) | (Hrun & Hnone)];
    rewrite Hrun in Hf; injection Hf as <-.
  - unfold modify in Hmatch. injection Hmatch as <-. split.
    + simpl. rewrite Hlen. apply Nat.mod_upper_bound. lia.
    + intros _. exact Hable.
  - unfold ret in Hmatch. injection Hmatch as <-. split.
    + simpl. rewrite Hlen. apply Nat.mod_upper_bound. lia.
    + intros [i Hi]. exfalso.
      assert (Hlt : (i < length (players s5))%nat).
      { unfold seat_can_act in Hi. destruct (players s5 !! i) eqn:E; [|discriminate].
        now apply lookup_lt_Some in E. }
      destruct (mod_reach0 _ (current_actor_index s5) i Hlt) as (k & Hk & Hmod).
      rewrite <- Hmod, Hnone in Hi by lia. discriminate.
Qed.

Section Turns.

Variable evaluate : list string -> list string -> Z.
Variable rng_shuffle : string -> list string -> list string.

Lemma start_hand_turn (seed : option string) (uuid : string) (e0 e1 : Engine)
    (info : string * string) :
  start_hand rng_shuffle seed uuid e0 = (Ret info, e1) ->
  (current_actor_index e1 < length (players e1))%nat /\
  ((exists i, seat_can_act e1 i = true) ->
   seat_can_act e1 (current_actor_index e1) = true).
Proof.
  unfold start_hand. intros H. apply bind_ret_inv in H as (? & s & _ & H).
  now apply open_hand_turn in H.
Qed.

Lemma hand_turn (e0 e : Engine) :
  hand_state evaluate rng_shuffle e0 e ->
  (current_actor_index e < length (players e))%nat /\
  ((exists i, seat_can_act e i = true) ->
   seat_can_act e (current_actor_index e) = true).
Proof.
  induction 1 as [seed uuid info e1 Hstart|e e' pid action amount ph pot Hhand IH Hact].
  - now apply start_hand_turn in Hstart.
  - destruct (hand_state_invariant evaluate rng_shuffle e0 e Hhand) as (Hplay & _).
    destruct (apply_action_cases evaluate pid action amount e)
      as [(msg & E) | [(x & E) | (idx & p & q & pay & ph' & legal & Hph & Hne & _
                                  & Hp & _ & _ & _ & _ & _ & _ & _ & E)]];
      rewrite E in Hact; try discriminate.
    pose proof (in_play_not_completed e ph' Hplay Hph Hne) as Hstreet.
    remember (booked idx q pay (mkAction pid action pay) e) as b eqn:Hb.
    assert (Hphb : phase b = Some ph') by now subst b.
    assert (Hcurb : current_actor_index b = current_actor_index e) by now subst b.
    assert (Hlenb : length (players b) = length (players e))
      by (subst b; apply length_insert).
    clear Hb E.
    destruct (finish_action_turn evaluate b e' _ ph' Hphb Hstreet Hact)
      as (Hlen & Hsame & Hturn).
    rewrite Hlenb in Hlen, Hturn.
    destruct Hturn as [(Hnone & Hcur & _) | (Hable & Hlt)].
    + split; [rewrite Hlen, Hcur, Hcurb; apply IH|].
      intros [i Hi]. rewrite Hsame, Hnone in Hi. discriminate.
    + split; [now rewrite Hlen|]. intros _. now rewrite Hsame.
Qed.

(** X6.  In every state of a hand the turn pointer designates a seat of
    the table, and that seat can act whenever any seat can: the engine
    never leaves the turn on a folded or all-in seat while another seat
    is still to act. *)
Theorem actor_can_act (e0 e : Engine) :
  hand_state evaluate rng_shuffle e0 e ->
  (current_actor_index e < length (players e))%nat /\
  ((exists i, seat_can_act e i = true) ->
   seat_can_act e (current_actor_index e) = true).
Proof. apply hand_turn. Qed.

(** X7.  Once an action has been accepted in a hand, the hand is either
    completed or waiting for a seat that can act: when the last seat able
    to act has acted, the same call runs the hand out to its showdown. *)
Theorem acted_hand_goes_on (e0 e e' : Engine) (pid action : string) (amount : Z)
    (ph : string) (pot : Z) :
  hand_state evaluate rng_shuffle e0 e ->
  apply_action evaluate pid action amount e = (Ret (RespOk ph pot), e') ->
  phase e' = Some COMPLETED \/ seat_can_act e' (current_actor_index e') = true.
Proof.
  intros Hhand Hact.
  destruct (hand_state_invariant evaluate rng_shuffle e0 e Hhand) as (Hplay & _).
  destruct (apply_action_cases evaluate pid action amount e)
    as [(msg & E) | [(x & E) | (idx & p & q & pay & ph' & legal & Hph & Hne & _
                                & Hp & _ & _ & _ & _ & _ & _ & _ & E)]];
    rewrite E in Hact; try discriminate.
  pose proof (in_play_not_completed e ph' Hplay Hph Hne) as Hstreet.
  remember (booked idx q pay (mkAction pid action pay) e) as b eqn:Hb.
  assert (Hphb : phase b = Some ph') by now subst b.
  clear Hb E.
  destruct (finish_action_turn evaluate b e' _ ph' Hphb Hstreet Hact)
    as (_ & Hsame & [(_ & _ & Hdone) | (Hable & _)]).
  - now left.
  - right. now rewrite Hsame.
Qed.

End Turns.

(** ** What is offered is accepted *)

Section Offers.

Variable evaluate : list string -> list string -> Z.

(** A call that passes the tests of [apply_action] books its action and
    is never answered by an error. *)
Lemma offered_books (pid action : string) (amount : Z) (st : Engine) (ph : Phase)
    (idx : nat) (p : PlayerState) (legal : list string) :
  phase st = Some ph -> ph <> COMPLETED ->
  find_player_index pid st = Ret idx -> players st !! idx = Some p ->
  legal_actions pid st = Ret legal -> In action legal ->
  (action = "bet" \/ action = "raise" -> 0 < amount <= stack p) ->
  exists q pay,
    apply_action evaluate pid action amount st
    = finish_action evaluate (booked idx q pay (mkAction pid action pay) st) /\
    forall r st',
      apply_action evaluate pid action amount st = (r, st') ->
      actions st' = actions st ++ [mkAction pid action pay] /\
      forall msg, r <> Ret (RespError msg).
Proof.
  intros Hph Hne Hfind Hp Hlegal Hin Hamt.
  destruct (legal_means_can_act pid st idx p legal action Hfind Hp Hlegal Hin)
    as [Hf Ha].
  assert (Hgate : is_folded p || is_all_in p = false) by now rewrite Hf, Ha.
  destruct (apply_action_accepted evaluate pid action amount st ph idx p legal
              Hph Hne Hfind Hp Hgate Hlegal) as (h & _ & Heq).
  rewrite (proj2 (action_in_legal action legal) Hin) in Heq.
  unfold perform in Heq.
  destruct (ledger_step_run idx p pid action amount (h - committed p) st Hp)
    as [(m & _ & Hname & Hbad) | [(q & pay & Hrun & _) | (_ & Hnot)]].
  - specialize (Hamt Hname). lia.
  - rewrite (bind_run _ _ _ _ _ Hrun) in Heq. exists q, pay.
    split; [exact Heq|]. intros r st' Hrun'. rewrite Heq in Hrun'.
    pose proof (settles_actions _ _ (finish_action_settles evaluate
                  (booked idx q pay (mkAction pid action pay) st))) as Hlog.
    rewrite Hrun' in Hlog. split; [exact Hlog|].
    intros msg ->. apply finish_action_answer in Hrun' as (? & _ & Hr).
    discriminate.
  - exfalso. apply Hnot. eapply legal_actions_names; eauto.
Qed.


(** X9.  The decision the agent falls back on when the answer of the
    language model cannot be read, [check] if it is offered and [fold]
    otherwise, with amount 0, is always one of the actions offered to a
    seat that can act, and the engine does not answer it by an error. *)
Theorem fallback_decision_legal (pid : string) (st : Engine) (ph : Phase)
    (idx : nat) (p : PlayerState) (legal : list string) :
  phase st = Some ph -> ph <> COMPLETED ->
  find_player_index pid st = Ret idx -> players st !! idx = Some p ->
  is_folded p = false -> is_all_in p = false ->
  legal_actions pid st = Ret legal ->
  snd (fallback_decision legal) = 0 /\
  In (fst (fallback_decision legal)) legal /\
  forall r st',
    apply_action evaluate pid (fst (fallback_decision legal))
      (snd (fallback_decision legal)) st = (r, st') ->
    forall msg, r <> Ret (RespError msg).
Proof.
  intros Hph Hne Hfind Hp Hf Ha Hlegal. split; [reflexivity|].
  assert (Hin : In (fst (fallback_decision legal)) legal).
  { unfold fallback_decision.
    destruct (existsb (String.eqb "check") legal) eqn:Hc; simpl.
    - now apply action_in_legal.
    - assert (Hnc : ~ In "check" legal).
      { intros Hyes. apply action_in_legal in Hyes. congruence. }
      unfold legal_actions in Hlegal. rewrite Hfind in Hlegal. simpl in Hlegal.
      unfold index in Hlegal. rewrite Hp in Hlegal. simpl in Hlegal.
      rewrite Hf, Ha in Hlegal. simpl in Hlegal.
      assert (Hnot : phase_is COMPLETED st = false).
      { unfold phase_is. rewrite Hph. now destruct ph. }
      rewrite Hnot in Hlegal.
      destruct (py_max _) as [h|]; simpl in Hlegal; [|discriminate].
      destruct (0 <? h - committed p); injection Hlegal as <-.
      + now left.
      + exfalso. apply Hnc. now left. }
  split; [exact Hin|].
  assert (Hamt : fst (fallback_decision legal) = "bet" \/
                 fst (fallback_decision legal) = "raise" ->
                 0 < snd (fallback_decision legal) <= stack p).
  { unfold fallback_decision. destruct (existsb _ legal); simpl;
      intros [E|E]; discriminate. }
  destruct (offered_books pid _ _ st ph idx p legal Hph Hne Hfind Hp Hlegal Hin Hamt)
    as (q & pay & _ & H).
  intros r st' Hrun. now apply (H r st').
Qed.

End Offers.

(** ** From street to street *)

Lemma some_seat_can_act (st : Engine) :
  (length (List.filter can_act (players st)) =? 0)%nat = false ->
  exists i, seat_can_act st i = true.
Proof.
  intros H. destruct (List.filter can_act (players st)) as [|x l] eqn:E;
    [discriminate|].
  assert (Hin : In x (List.filter can_act (players st))) by (rewrite E; now left).
  apply filter_In in Hin as [Hin Hact].
  apply list_elem_of_In, list_elem_of_lookup in Hin as [i Hi].
  exists i. unfold seat_can_act. now rewrite Hi.
Qed.

Section StreetByStreet.

Variable evaluate : list string -> list string -> Z.

Lemma showdown_seed (st s1 : Engine) :
  showdown evaluate st = (Ret tt, s1) -> deck_seed s1 = deck_seed st.
Proof.
  unfold showdown, bind. rewrite evaluate_and_distribute_run.
  destruct (unfolded st) as [|w [|w' rest]]; [discriminate| |];
    now intros [= <-].
Qed.

(** Where the end of [apply_action] leaves the hand when it returns: at
    its completion, which takes the river or a table where nobody can
    act, or else in the state it found but for the turn pointer, or one
    street further by the rule of the streets. *)
Lemma finish_action_street (b s2 : Engine) (r : Response) (ph : Phase) :
  phase b = Some ph -> is_street ph ->
  finish_action evaluate b = (Ret r, s2) ->
  (phase s2 = Some COMPLETED /\
   (ph = RIVER \/ forall i, seat_can_act b i = false) /\
   exists phx cc dk,
     spec_run_out ph (community_cards b) (deck b) = Some (phx, cc, dk) /\
     community_cards s2 = cc /\ deck s2 = dk /\ deck_seed s2 = deck_seed b) \/
  ((exists i, seat_can_act b i = true) /\
   exists k,
     (_is_betting_round_complete b = Ret false /\
      s2 = set_current_actor_index k b) \/
     exists ph' cc dk,
       _is_betting_round_complete b = Ret true /\
       (ph = PRE_FLOP \/ ph = FLOP \/ ph = TURN) /\
       spec_enter ph (community_cards b) (deck b) = Some (ph', cc, dk) /\
       s2 = with_board ph' cc dk (set_current_actor_index k b)).
Proof.
  intros Hph Hstreet H. unfold finish_action in H.
  apply bind_ret_inv in H as ([] & s1 & Hturn & H).
  destruct (advance_turn_run b) as (k & Hrun & _). rewrite Hrun in Hturn.
  injection Hturn as <-.
  apply bind_ret_inv in H as (complete & s1' & Hread & H).
  unfold read in Hread. injection Hread as Hcomplete <-.
  apply bind_ret_inv in H as ([] & s3 & Hadv & H).
  apply bind_ret_inv in H as (s4 & s4' & Hget & H).
  unfold get in Hget. injection Hget as <- <-.
  assert (s2 = s3) as ->.
  { destruct (phase s3); [|discriminate]. unfold ret in H. congruence. }
  clear H. set (s1 := set_current_actor_index k b) in *.
  destruct (length (List.filter can_act (players b)) =? 0)%nat eqn:Hact.
  - left. assert (Hnone : forall i, seat_can_act b i = false)
      by now apply no_seat_can_act.
    unfold _is_betting_round_complete in Hcomplete.
    change (players s1) with (players b) in Hcomplete. rewrite Hact in Hcomplete.
    injection Hcomplete as <-.
    pose proof (advance_fast evaluate s1 ph Hph Hstreet Hact) as Hfast.
    change (community_cards s1) with (community_cards b) in Hfast.
    change (deck s1) with (deck b) in Hfast.
    destruct (spec_run_out ph (community_cards b) (deck b)) as [[[phx cc] dk]|].
    + rewrite Hfast in Hadv.
      pose proof (showdown_seed _ _ Hadv) as Hseed.
      apply showdown_inv in Hadv as (Hdone & Hcc & Hdk).
      split; [exact Hdone|]. split; [now right|].
      exists phx, cc, dk. auto.
    + destruct Hfast as [x Hx]. rewrite Hx in Hadv. discriminate.
  - pose proof (some_seat_can_act b Hact) as Hsome.
    destruct complete.
    + destruct (street_cases _ Hstreet) as [->|Hearly].
      * left. rewrite (advance_river evaluate s1 Hph) in Hadv.
        pose proof (showdown_seed _ _ Hadv) as Hseed.
        apply showdown_inv in Hadv as (Hdone & Hcc & Hdk).
        split; [exact Hdone|]. split; [now left|].
        exists SHOWDOWN, (community_cards b), (deck b). auto.
      * right. split; [exact Hsome|]. exists k. right.
        pose proof (advance_first evaluate s1 ph Hph Hearly) as Hfirst.
        change (players s1) with (players b) in Hfirst. rewrite Hact in Hfirst.
        change (community_cards s1) with (community_cards b) in Hfirst.
        change (deck s1) with (deck b) in Hfirst.
        destruct (spec_enter ph (community_cards b) (deck b))
          as [[[ph' cc1] dk1]|] eqn:E.
        -- rewrite Hfirst in Hadv. injection Hadv as <-.
           exists ph', cc1, dk1. auto.
        -- destruct Hfirst as [x Hx]. rewrite Hx in Hadv. discriminate.
    + right. split; [exact Hsome|]. exists k. left.
      unfold ret in Hadv. injection Hadv as <-. auto.
Qed.


End StreetByStreet.

(** ** The books of a hand *)

Lemma keeps_balance_refl (st : Engine) : keeps_balance st st.
Proof. intros H. exact H. Qed.

Lemma keeps_balance_trans (a b c : Engine) :
  keeps_balance a b -> keeps_balance b c -> keeps_balance a c.
Proof. unfold keeps_balance. auto. Qed.

Lemma keeps_balance_same (st st' : Engine) :
  map committed (players st') = map committed (players st) ->
  total_pot st' = total_pot st -> actions st' = actions st ->
  keeps_balance st st'.
Proof.
  intros Hc Hp Ha. unfold keeps_balance, balanced, sum_committed, sum_logged.
  now rewrite Hc, Hp, Ha.
Qed.

Lemma alter_keeps_committed (f : PlayerState -> PlayerState) (i : nat)
    (ps : list PlayerState) :
  (forall q, committed (f q) = committed q) ->
  map committed (alter f i ps) = map committed ps.
Proof.
  intros Hf. revert i. induction ps as [|x ps IH]; intros [|i]; simpl;
    try reflexivity; [now rewrite Hf | f_equal; apply IH].
Qed.

Lemma booked_balanced (idx : nat) (p q : PlayerState) (pay : Z) (pid action : string)
    (st : Engine) :
  players st !! idx = Some p -> committed q = committed p + pay ->
  keeps_balance st (booked idx q pay (mkAction pid action pay) st).
Proof.
  intros Hp Hq [Hpot Hlog].
  unfold balanced, sum_committed, sum_logged, booked, moved in *. simpl.
  rewrite (sum_insert _ _ _ _ _ Hp), map_app, sumZ_app. simpl. lia.
Qed.

Local Ltac books_step :=
  first
    [ apply (preserves_bind keeps_balance keeps_balance_trans); [|intros ?]
    | apply (preserves_ret keeps_balance keeps_balance_refl)
    | apply (preserves_raise keeps_balance keeps_balance_refl)
    | apply (preserves_get keeps_balance keeps_balance_refl)
    | apply (preserves_read keeps_balance keeps_balance_refl)
    | apply (preserves_modify keeps_balance); intros ?;
      now apply keeps_balance_same ].

Lemma post_blind_books (idx : nat) (amount : Z) (label : string) :
  preserves keeps_balance (post_blind idx amount label).
Proof.
  intros st. destruct (players st !! idx) as [p|] eqn:Hp.
  - rewrite (post_blind_run _ _ _ _ _ Hp). simpl.
    apply (booked_balanced idx p); [exact Hp|].
    unfold paid_seat. now destruct (_ =? 0).
  - unfold post_blind, bind, player_at, read, index. rewrite Hp. simpl.
    apply keeps_balance_refl.
Qed.

Lemma pop_deck_books : preserves keeps_balance pop_deck.
Proof.
  intros st. unfold pop_deck. destruct (deck st); simpl.
  - apply keeps_balance_refl.
  - now apply keeps_balance_same.
Qed.

Lemma deal_pass_books (deal_start n : nat) :
  preserves keeps_balance (deal_pass deal_start n).
Proof.
  unfold deal_pass.
  apply (preserves_for_each keeps_balance keeps_balance_refl keeps_balance_trans).
  intros i. books_step; [apply pop_deck_books|]. books_step; [books_step|].
  unfold update_player. apply (preserves_modify keeps_balance). intros st.
  apply keeps_balance_same; try reflexivity. simpl.
  now apply alter_keeps_committed.
Qed.

Lemma open_hand_books (seed : string) (st : Engine) :
  keeps_balance st (snd (open_hand seed st)).
Proof.
  unfold open_hand. unfold bind at 1, get. cbv zeta.
  destruct (length (players st) =? 0)%nat; [apply keeps_balance_refl|].
  match goal with
  | |- keeps_balance _ (snd (?m _)) => assert (H : preserves keeps_balance m)
  end; [|apply H].
  books_step; [apply post_blind_books|].
  books_step; [apply post_blind_books|].
  books_step.
  { apply (preserves_for_each keeps_balance keeps_balance_refl keeps_balance_trans).
    intros _. apply deal_pass_books. }
  books_step; [books_step|]. books_step; [books_step|].
  books_step; [books_step|]. books_step; [books_step|].
  books_step; [match goal with |- context [match ?x with _ => _ end] =>
                destruct x end; books_step|].
  books_step; [books_step|]. books_step.
Qed.

Lemma sum_committed_reset (ps : list PlayerState) :
  sumZ (map committed
          (map (fun p => set_is_all_in false (set_is_folded false
                   (set_committed 0 (set_hole_cards [] p)))) ps)) = 0.
Proof. induction ps as [|x ps IH]; simpl; [reflexivity | rewrite IH; lia]. Qed.

Section Books.

Variable evaluate : list string -> list string -> Z.
Variable rng_shuffle : string -> list string -> list string.

Lemma start_hand_books (seed : option string) (uuid : string) (e0 : Engine) :
  balanced (snd (start_hand rng_shuffle seed uuid e0)).
Proof.
  unfold start_hand.
  set (sd := match seed with
             | Some s => if String.eqb s "" then uuid else s
             | None => uuid
             end).
  assert (Hrun : exists st0, reset_hand rng_shuffle sd e0 = (Ret tt, st0) /\
                             balanced st0).
  { eexists. split; [reflexivity|].
    unfold balanced, sum_committed, sum_logged. simpl.
    now rewrite sum_committed_reset. }
  destruct Hrun as (st0 & Hrun & Hbal).
  rewrite (bind_run _ _ _ _ _ Hrun). now apply open_hand_books.
Qed.

(** X11.  In every state of a hand the action log accounts for the chips
    the seats have committed, blinds included, and until the hand is
    completed the pot holds exactly those chips: [committed] is counted
    over the whole hand and is not cleared from street to street. *)
Theorem pot_is_committed (e0 e : Engine) :
  hand_state evaluate rng_shuffle e0 e ->
  sum_logged e = sum_committed e /\
  (phase e <> Some COMPLETED -> total_pot e = sum_committed e).
Proof.
  intros H.
  assert (Hinv : sum_logged e = sum_committed e /\
                 (phase e = Some COMPLETED \/ total_pot e = sum_committed e)).
  { induction H as [seed uuid info e1 Hstart
                   |e e' pid action amount ph pot Hhand IH Hact].
    - pose proof (start_hand_books seed uuid e0) as [Hpot Hlog].
      rewrite Hstart in Hpot, Hlog. auto.
    - destruct (hand_state_invariant evaluate rng_shuffle e0 e Hhand) as (Hplay & _).
      destruct (apply_action_cases evaluate pid action amount e)
        as [(msg & E) | [(x & E) | (idx & p & q & pay & ph' & legal & Hph & Hne & _
                                    & Hp & _ & _ & _ & _ & _ & Hq & _ & E)]];
        rewrite E in Hact; try discriminate.
      pose proof (in_play_not_completed e ph' Hplay Hph Hne) as Hstreet.
      destruct IH as [Hlog [Hdone|Hpot]]; [congruence|].
      pose proof (booked_balanced idx p q pay pid action e Hp Hq (conj Hpot Hlog))
        as [Hpotb Hlogb].
      remember (booked idx q pay (mkAction pid action pay) e) as b eqn:Hb.
      assert (Hphb : phase b = Some ph') by now subst b.
      clear Hb E.
      pose proof (finish_action_settles evaluate b) as Hs. rewrite Hact in Hs.
      simpl in Hs.
      assert (Hc : sum_committed e' = sum_committed b)
        by (unfold sum_committed; now rewrite (settles_committed _ _ Hs)).
      assert (Ha : sum_logged e' = sum_logged b)
        by (unfold sum_logged; now rewrite (settles_actions _ _ Hs)).
      split; [congruence|].
      destruct (finish_action_street evaluate b e' _ ph' Hphb Hstreet Hact)
        as [(Hdone & _) | (_ & k & [[_ ->]|(ph2 & cc & dk & _ & _ & _ & ->)])].
      + now left.
      + right. exact Hpotb.
      + right. exact Hpotb. }
  destruct Hinv as [Hlog Hor]. split; [exact Hlog|].
  intros Hne. destruct Hor; [contradiction | assumption].
Qed.

End Books.

(** ** Dealing the hole cards *)

Lemma mod_inj (n ds i j : nat) :
  (i < j < i + n)%nat -> ((ds + i) mod n)%nat <> ((ds + j) mod n)%nat.
Proof.
  intros Hij E.
  pose proof (Nat.div_mod_eq (ds + i) n) as Hi.
  pose proof (Nat.div_mod_eq (ds + j) n) as Hj.
  rewrite E in Hi.
  destruct (Nat.lt_ge_cases ((ds + i) / n) ((ds + j) / n)) as [Hlt|Hge].
  - pose proof (Nat.mul_le_mono_l _ _ n Hlt) as Hm.
    rewrite Nat.mul_succ_r in Hm. lia.
  - pose proof (Nat.mul_le_mono_l _ _ n Hge) as Hm. lia.
Qed.

Lemma deal_cards_length (ds n : nat) (cards : list string) :
  forall a ps, length (deal_cards ds n a cards ps) = length ps.
Proof.
  induction cards as [|c cs IH]; intros a ps; simpl; [reflexivity|].
  now rewrite IH, length_alter.
Qed.

Lemma deal_cards_untouched (ds n : nat) (cards : list string) :
  forall a ps s,
    (forall j, (j < length cards)%nat -> s <> ((ds + (a + j)) mod n)%nat) ->
    deal_cards ds n a cards ps !! s = ps !! s.
Proof.
  induction cards as [|c cs IH]; intros a ps s Hs; simpl; [reflexivity|].
  rewrite IH.
  - apply list_lookup_alter_ne. specialize (Hs 0%nat ltac:(simpl; lia)).
    rewrite Nat.add_0_r in Hs. auto.
  - intros j Hj. specialize (Hs (S j) ltac:(simpl; lia)).
    now replace (S a + j)%nat with (a + S j)%nat by lia.
Qed.

Lemma deal_cards_lookup (ds n : nat) (cards : list string) :
  forall a ps j c,
    (length cards <= n)%nat -> cards !! j = Some c ->
    deal_cards ds n a cards ps !! ((ds + (a + j)) mod n)%nat
    = give_card c <$> ps !! ((ds + (a + j)) mod n)%nat.
Proof.
  induction cards as [|x cs IH]; intros a ps j c Hlen Hj; [discriminate|].
  simpl in Hlen. destruct j as [|j]; simpl in Hj; simpl.
  - injection Hj as ->. rewrite Nat.add_0_r.
    rewrite deal_cards_untouched.
    + apply list_lookup_alter_eq.
    + intros j Hj. apply mod_inj. lia.
  - replace (a + S j)%nat with (S a + j)%nat by lia.
    rewrite (IH (S a) _ j c) by (lia || assumption).
    f_equal. apply list_lookup_alter_ne.
    apply lookup_lt_Some in Hj. apply mod_inj. lia.
Qed.

Lemma set_deck_players_same (st : Engine) :
  set_deck (deck st) (set_players (players st) st) = st.
Proof. now destruct st. Qed.

(** The dealing loop with enough cards in the deck. *)
Lemma deal_loop_run (ds n : nat) (cards : list string) :
  forall a st rest,
    deck st = cards ++ rest -> length (players st) = n -> (0 < n)%nat ->
    for_each (seq a (length cards))
      (fun i =>
         card <- pop_deck ;;
         _ <- player_at ((ds + i) mod n)%nat ;;
         update_player ((ds + i) mod n)%nat (give_card card)) st
    = (Ret tt, set_deck rest (set_players (deal_cards ds n a cards (players st)) st)).
Proof.
  induction cards as [|c cs IH]; intros a st rest Hdeck Hlen Hn.
  - simpl in *. unfold ret. rewrite <- Hdeck. now rewrite set_deck_players_same.
  - simpl in Hdeck. cbn [length seq for_each].
    assert (Hs : ((ds + a) mod n < length (players st))%nat)
      by (rewrite Hlen; apply Nat.mod_upper_bound; lia).
    destruct (lookup_lt_is_Some_2 _ _ Hs) as [p Hp].
    assert (Hbody :
      (card <- pop_deck ;;
       _ <- player_at ((ds + a) mod n)%nat ;;
       update_player ((ds + a) mod n)%nat (give_card card)) st
      = (Ret tt, set_players (alter (give_card c) ((ds + a) mod n)%nat (players st))
                   (set_deck (cs ++ rest) st))).
    { unfold bind at 1. unfold pop_deck. rewrite Hdeck.
      assert (Hp' : players (set_deck (cs ++ rest) st) !! ((ds + a) mod n)%nat = Some p)
        by exact Hp.
      rewrite (bind_run _ _ _ _ _ (player_at_run _ _ _ Hp')). reflexivity. }
    rewrite (bind_run _ _ _ _ _ Hbody).
    rewrite (IH (S a) _ rest); [now destruct st|reflexivity| |exact Hn].
    simpl. now rewrite length_alter.
Qed.

(** The dealing loop with too few cards. *)
Lemma deal_loop_short (ds n len : nat) :
  forall a st,
    (length (deck st) < len)%nat -> length (players st) = n -> (0 < n)%nat ->
    exists st',
      for_each (seq a len)
        (fun i =>
           card <- pop_deck ;;
           _ <- player_at ((ds + i) mod n)%nat ;;
           update_player ((ds + i) mod n)%nat (give_card card)) st
      = (Raise IndexError, st').
Proof.
  induction len as [|len IH]; intros a st Hshort Hlen Hn; [lia|].
  cbn [seq for_each].
  destruct (deck st) as [|c cs] eqn:Hdeck.
  - exists st. unfold bind at 1. unfold bind at 1. unfold pop_deck. now rewrite Hdeck.
  - assert (Hs : ((ds + a) mod n < length (players st))%nat)
      by (rewrite Hlen; apply Nat.mod_upper_bound; lia).
    destruct (lookup_lt_is_Some_2 _ _ Hs) as [p Hp].
    assert (Hbody :
      (card <- pop_deck ;;
       _ <- player_at ((ds + a) mod n)%nat ;;
       update_player ((ds + a) mod n)%nat (give_card card)) st
      = (Ret tt, set_players (alter (give_card c) ((ds + a) mod n)%nat (players st))
                   (set_deck cs st))).
    { unfold bind at 1. unfold pop_deck. rewrite Hdeck.
      assert (Hp' : players (set_deck cs st) !! ((ds + a) mod n)%nat = Some p)
        by exact Hp.
      rewrite (bind_run _ _ _ _ _ (player_at_run _ _ _ Hp')). reflexivity. }
    rewrite (bind_run _ _ _ _ _ Hbody).
    apply IH; simpl in *; [lia | now rewrite length_alter | exact Hn].
Qed.

Lemma deal_pass_run (ds n : nat) (cards rest : list string) (st : Engine) :
  deck st = cards ++ rest -> length cards = n -> length (players st) = n ->
  (0 < n)%nat ->
  deal_pass ds n st
  = (Ret tt, set_deck rest (set_players (deal_cards ds n 0 cards (players st)) st)).
Proof.
  intros Hdeck <- Hlen Hn. unfold deal_pass.
  now apply (deal_loop_run ds (length cards) cards 0 st rest).
Qed.

Lemma deal_pass_short (ds n : nat) (st : Engine) :
  (length (deck st) < n)%nat -> length (players st) = n -> (0 < n)%nat ->
  exists st', deal_pass ds n st = (Raise IndexError, st').
Proof.
  intros Hshort Hlen Hn. unfold deal_pass.
  now apply (deal_loop_short ds n n 0 st).
Qed.

(** ** The run of [start_hand] *)

Lemma post_blind_posted (idx : nat) (amount : Z) (label : string) (st : Engine) :
  (idx < length (players st))%nat ->
  post_blind idx amount label st = (Ret tt, posted idx amount label st).
Proof.
  intros Hidx. destruct (lookup_lt_is_Some_2 _ _ Hidx) as [p Hp].
  unfold posted. rewrite Hp. now apply post_blind_run.
Qed.

Lemma post_blind_fails (idx : nat) (amount : Z) (label : string) (st : Engine) :
  (length (players st) <= idx)%nat ->
  post_blind idx amount label st = (Raise IndexError, st).
Proof.
  intros Hidx. unfold post_blind, bind, player_at, read, index.
  now rewrite (proj2 (lookup_ge_None _ _) Hidx).
Qed.

Lemma posted_frame (idx : nat) (amount : Z) (label : string) (st : Engine) :
  length (players (posted idx amount label st)) = length (players st) /\
  deck (posted idx amount label st) = deck st /\
  hand_id (posted idx amount label st) = hand_id st.
Proof.
  unfold posted. destruct (players st !! idx); [|auto].
  repeat split. apply length_insert.
Qed.

Lemma blinds_posted_frame (st : Engine) :
  length (players (blinds_posted st)) = length (players st) /\
  deck (blinds_posted st) = deck st /\
  hand_id (blinds_posted st) = hand_id st.
Proof.
  unfold blinds_posted.
  destruct (posted_frame ((button_index st + 1) mod length (players st))
              (big_blind st) "bb" (posted (button_index st) (small_blind st) "sb" st))
    as (H1 & H2 & H3).
  destruct (posted_frame (button_index st) (small_blind st) "sb" st) as (H4 & H5 & H6).
  repeat split; congruence.
Qed.

Lemma first_able_returns (st : Engine) (base a len : nat) :
  (0 < length (players st))%nat ->
  exists found,
    first_able (players st) base (length (players st)) (seq a len) = Ret found.
Proof.
  intros Hn.
  destruct (first_able_seq st base a len Hn) as [(k & _ & H & _) | (H & _)]; eauto.
Qed.

Lemma set_deck_players_twice (d d' : list string) (ps ps' : list PlayerState)
    (st : Engine) :
  set_deck d' (set_players ps' (set_deck d (set_players ps st)))
  = set_deck d' (set_players ps' st).
Proof. now destruct st. Qed.

(** [open_hand] with the button on a seat and cards for everyone. *)
Lemma open_hand_run (seed : string) (st : Engine) (c1 c2 rest : list string) :
  (button_index st < length (players st))%nat ->
  deck st = c1 ++ c2 ++ rest ->
  length c1 = length (players st) -> length c2 = length (players st) ->
  exists k,
    open_hand seed st
    = (Ret (hand_id st, seed), set_current_actor_index k (hand_dealt c1 c2 rest st)).
Proof.
  intros Hb Hdeck Hl1 Hl2.
  assert (Hn : (0 < length (players st))%nat) by lia.
  unfold open_hand. unfold bind at 1, get. cbv zeta.
  destruct (Nat.eqb_spec (length (players st)) 0) as [E|_]; [lia|].
  rewrite (bind_run _ _ _ _ _ (post_blind_posted _ _ _ _ Hb)).
  set (s1 := posted (button_index st) (small_blind st) "sb" st).
  assert (Hlen1 : length (players s1) = length (players st)) by apply posted_frame.
  assert (Hbb : ((button_index st + 1) mod length (players st)
                 < length (players s1))%nat)
    by (rewrite Hlen1; apply Nat.mod_upper_bound; lia).
  rewrite (bind_run _ _ _ _ _ (post_blind_posted _ _ _ _ Hbb)).
  fold (blinds_posted st).
  destruct (blinds_posted_frame st) as (Hlen2 & Hdeck2 & Hid2).
  set (s2 := blinds_posted st) in *.
  set (ds := ((button_index st + 1) mod length (players st))%nat).
  set (n := length (players st)) in *.
  change (for_each (seq 0 2) (fun _ : nat => deal_pass ds n))
    with (deal_pass ds n ;; (deal_pass ds n ;; ret tt)).
  assert (Hd1 : deal_pass ds n s2
                = (Ret tt, set_deck (c2 ++ rest)
                             (set_players (deal_cards ds n 0 c1 (players s2)) s2))).
  { apply deal_pass_run; try assumption. now rewrite Hdeck2. }
  set (s2a := set_deck (c2 ++ rest) _) in Hd1.
  assert (Hd2 : deal_pass ds n s2a
                = (Ret tt, set_deck rest
                             (set_players (deal_cards ds n 0 c2 (players s2a)) s2a))).
  { apply deal_pass_run; try assumption; [reflexivity|].
    unfold s2a. simpl. now rewrite deal_cards_length. }
  set (s3 := set_deck rest
               (set_players (deal_cards ds n 0 c2 (deal_cards ds n 0 c1 (players s2)))
                  s2)).
  assert (Hdeal : (deal_pass ds n ;; (deal_pass ds n ;; ret tt)) s2 = (Ret tt, s3)).
  { rewrite (bind_run _ _ _ _ _ Hd1), (bind_run _ _ _ _ _ Hd2).
    unfold ret, s3, s2a. now rewrite set_deck_players_twice. }
  rewrite (bind_run _ _ _ _ _ Hdeal).
  assert (Hlen3 : length (players s3) = n)
    by (unfold s3; simpl; now rewrite !deal_cards_length).
  assert (Hfound : exists found,
            first_able (players s3) ((ds + 1) mod n)%nat n (seq 0 n) = Ret found).
  { pose proof (first_able_returns s3 ((ds + 1) mod n)%nat 0 n
                  ltac:(rewrite Hlen3; lia)) as H.
    now rewrite Hlen3 in H. }
  destruct Hfound as [found Hfound].
  assert (Hid3 : hand_id s3 = hand_id st) by exact Hid2.
  unfold hand_dealt. fold n ds s2 s3. clearbody s3 s2 ds n.
  unfold bind, ret, modify, get, read. cbn [players current_actor_index
    set_phase set_current_actor_index]. rewrite Hfound.
  destruct found as [k|]; eexists; cbn [hand_id set_current_actor_index set_phase];
    rewrite Hid3; reflexivity.
Qed.

Lemma bind_raise {A B} (m : M A) (k : A -> M B) (st st1 : Engine) (e : exn) :
  m st = (Raise e, st1) -> bind m k st = (Raise e, st1).
Proof. unfold bind. now intros ->. Qed.

Lemma open_hand_no_seats (seed : string) (st : Engine) :
  length (players st) = 0%nat -> open_hand seed st = (Raise ZeroDivisionError, st).
Proof.
  intros H. unfold open_hand. unfold bind at 1, get. cbv zeta. now rewrite H.
Qed.

Lemma open_hand_no_button (seed : string) (st : Engine) :
  (0 < length (players st))%nat -> (length (players st) <= button_index st)%nat ->
  open_hand seed st = (Raise IndexError, st).
Proof.
  intros Hn Hb. unfold open_hand. unfold bind at 1, get. cbv zeta.
  destruct (Nat.eqb_spec (length (players st)) 0) as [E|_]; [lia|].
  apply bind_raise. now apply post_blind_fails.
Qed.

Lemma open_hand_short_deck (seed : string) (st : Engine) :
  (button_index st < length (players st))%nat ->
  (length (deck st) < 2 * length (players st))%nat ->
  exists st', open_hand seed st = (Raise IndexError, st').
Proof.
  intros Hb Hshort.
  assert (Hn : (0 < length (players st))%nat) by lia.
  unfold open_hand. unfold bind at 1, get. cbv zeta.
  destruct (Nat.eqb_spec (length (players st)) 0) as [E|_]; [lia|].
  rewrite (bind_run _ _ _ _ _ (post_blind_posted _ _ _ _ Hb)).
  set (s1 := posted (button_index st) (small_blind st) "sb" st).
  assert (Hlen1 : length (players s1) = length (players st)) by apply posted_frame.
  assert (Hbb : ((button_index st + 1) mod length (players st)
                 < length (players s1))%nat)
    by (rewrite Hlen1; apply Nat.mod_upper_bound; lia).
  rewrite (bind_run _ _ _ _ _ (post_blind_posted _ _ _ _ Hbb)).
  fold (blinds_posted st).
  destruct (blinds_posted_frame st) as (Hlen2 & Hdeck2 & _).
  set (s2 := blinds_posted st) in *.
  set (ds := ((button_index st + 1) mod length (players st))%nat).
  set (n := length (players st)) in *.
  change (for_each (seq 0 2) (fun _ : nat => deal_pass ds n))
    with (deal_pass ds n ;; (deal_pass ds n ;; ret tt)).
  destruct (Nat.lt_ge_cases (length (deck st)) n) as [Hlt|Hge].
  - destruct (deal_pass_short ds n s2) as [st' Hs];
      [now rewrite Hdeck2 | exact Hlen2 | exact Hn |].
    exists st'. apply bind_raise. now apply bind_raise.
  - assert (Hd1 : deal_pass ds n s2
                  = (Ret tt, set_deck (drop n (deck st))
                               (set_players
                                  (deal_cards ds n 0 (take n (deck st)) (players s2))
                                  s2))).
    { apply deal_pass_run; try assumption.
      - rewrite Hdeck2. symmetry. apply take_drop.
      - now apply length_take_le. }
    set (s2a := set_deck (drop n (deck st)) _) in Hd1.
    destruct (deal_pass_short ds n s2a) as [st' Hs].
    + unfold s2a. simpl. rewrite length_drop. lia.
    + unfold s2a. simpl. now rewrite deal_cards_length.
    + exact Hn.
    + exists st'. apply bind_raise. rewrite (bind_run _ _ _ _ _ Hd1).
      now apply bind_raise.
Qed.

Section StartHand.

Variable rng_shuffle : string -> list string -> list string.

Lemma reset_hand_fields (seed : string) (e0 : Engine) :
  exists st0,
    reset_hand rng_shuffle seed e0 = (Ret tt, st0) /\
    players st0 = map reset_seat (players e0) /\
    deck st0 = rng_shuffle seed standard_deck /\
    button_index st0 = button_index e0 /\
    small_blind st0 = small_blind e0 /\ big_blind st0 = big_blind e0 /\
    hand_id st0 = hand_id e0 /\ total_pot st0 = 0 /\ actions st0 = [] /\
    community_cards st0 = [] /\ pot_history st0 = [] /\ deck_seed st0 = Some seed.
Proof. eexists. split; [reflexivity|]. repeat split. Qed.

Lemma start_hand_opens (seed : option string) (uuid : string) (e0 : Engine) :
  exists st0,
    start_hand rng_shuffle seed uuid e0 = open_hand (chosen_seed seed uuid) st0 /\
    players st0 = map reset_seat (players e0) /\
    deck st0 = rng_shuffle (chosen_seed seed uuid) standard_deck /\
    button_index st0 = button_index e0 /\
    small_blind st0 = small_blind e0 /\ big_blind st0 = big_blind e0 /\
    hand_id st0 = hand_id e0 /\ total_pot st0 = 0 /\ actions st0 = [] /\
    community_cards st0 = [] /\ pot_history st0 = [] /\
    deck_seed st0 = Some (chosen_seed seed uuid).
Proof.
  destruct (reset_hand_fields (chosen_seed seed uuid) e0) as (st0 & Hrun & H).
  exists st0. split; [|exact H].
  unfold start_hand. fold (chosen_seed seed uuid). cbv zeta.
  now rewrite (bind_run _ _ _ _ _ Hrun).
Qed.

(** X12.  [start_hand] returns the hand identifier and the seed it
    settled on exactly when the table has a seat, the button is on a seat
    and the shuffled deck holds two cards for every seat.  Without seats
    it leaves by [ZeroDivisionError]; with the button off the table or
    with too few cards, by [IndexError].  The deck it shuffles has 52
    cards. *)
Theorem start_hand_outcome (seed : option string) (uuid : string) (e0 : Engine) :
  let n := length (players e0) in
  let deck0 := rng_shuffle (chosen_seed seed uuid) standard_deck in
  length standard_deck = 52%nat /\
  (n = 0%nat ->
   fst (start_hand rng_shuffle seed uuid e0) = Raise ZeroDivisionError) /\
  ((0 < n)%nat -> (n <= button_index e0)%nat ->
   fst (start_hand rng_shuffle seed uuid e0) = Raise IndexError) /\
  ((button_index e0 < n)%nat -> (length deck0 < 2 * n)%nat ->
   fst (start_hand rng_shuffle seed uuid e0) = Raise IndexError) /\
  ((button_index e0 < n)%nat -> (2 * n <= length deck0)%nat ->
   fst (start_hand rng_shuffle seed uuid e0)
   = Ret (hand_id e0, chosen_seed seed uuid)).
Proof.
  intros n deck0. split; [reflexivity|].
  destruct (start_hand_opens seed uuid e0)
    as (st0 & -> & Hps & Hdeck & Hbtn & _ & _ & Hid & _).
  assert (Hlen : length (players st0) = n) by (rewrite Hps; apply length_map).
  split; [|split; [|split]].
  - intros H0. rewrite open_hand_no_seats; [reflexivity | lia].
  - intros Hn Hb. rewrite open_hand_no_button; [reflexivity | lia | lia].
  - intros Hb Hshort.
    destruct (open_hand_short_deck (chosen_seed seed uuid) st0) as [st' ->];
      [lia | rewrite Hdeck, Hlen; exact Hshort | reflexivity].
  - intros Hb Hlong.
    destruct (open_hand_run (chosen_seed seed uuid) st0
                (take n deck0) (take n (drop n deck0)) (drop (2 * n) deck0))
      as [k ->].
    + lia.
    + rewrite Hdeck. fold deck0.
      replace (2 * n)%nat with (n + n)%nat by lia.
      now rewrite <- drop_drop, !take_drop.
    + rewrite Hlen. apply length_take_le. lia.
    + rewrite Hlen. apply length_take_le. rewrite length_drop. lia.
    + simpl. now rewrite Hid.
Qed.

(** A call of [start_hand] that returns has dealt to the cleared table. *)
Lemma start_hand_inv (seed : option string) (uuid : string) (e0 e1 : Engine)
    (info : string * string) :
  start_hand rng_shuffle seed uuid e0 = (Ret info, e1) ->
  let n := length (players e0) in
  let deck0 := rng_shuffle (chosen_seed seed uuid) standard_deck in
  (button_index e0 < n)%nat /\ (2 * n <= length deck0)%nat /\
  info = (hand_id e0, chosen_seed seed uuid) /\
  exists st0 k,
    e1 = set_current_actor_index k
           (hand_dealt (take n deck0) (take n (drop n deck0)) (drop (2 * n) deck0) st0) /\
    players st0 = map reset_seat (players e0) /\
    button_index st0 = button_index e0 /\
    small_blind st0 = small_blind e0 /\ big_blind st0 = big_blind e0 /\
    total_pot st0 = 0 /\ actions st0 = [] /\
    community_cards st0 = [] /\ pot_history st0 = [] /\
    deck_seed st0 = Some (chosen_seed seed uuid).
Proof.
  intros Hrun n deck0.
  destruct (start_hand_opens seed uuid e0)
    as (st0 & Heq & Hps & Hdeck & Hbtn & Hsb & Hbb & Hid & Hpot & Hacts & Hcc & Hhist
        & Hseed).
  rewrite Heq in Hrun.
  assert (Hlen : length (players st0) = n) by (rewrite Hps; apply length_map).
  destruct (Nat.eq_dec n 0%nat) as [H0|Hpos].
  { rewrite open_hand_no_seats in Hrun by lia. discriminate. }
  destruct (Nat.lt_ge_cases (button_index e0) n) as [Hb|Hb].
  2:{ rewrite open_hand_no_button in Hrun by lia. discriminate. }
  destruct (Nat.lt_ge_cases (length deck0) (2 * n)) as [Hshort|Hlong].
  { destruct (open_hand_short_deck (chosen_seed seed uuid) st0) as [st' E];
      [lia | rewrite Hdeck, Hlen; exact Hshort |].
    rewrite E in Hrun. discriminate. }
  destruct (open_hand_run (chosen_seed seed uuid) st0
              (take n deck0) (take n (drop n deck0)) (drop (2 * n) deck0))
    as [k E].
  - lia.
  - rewrite Hdeck. fold deck0.
    replace (2 * n)%nat with (n + n)%nat by lia.
    now rewrite <- drop_drop, !take_drop.
  - rewrite Hlen. apply length_take_le. lia.
  - rewrite Hlen. apply length_take_le. rewrite length_drop. lia.
  - rewrite E in Hrun. injection Hrun as <- <-.
    split; [exact Hb|]. split; [exact Hlong|]. split; [now rewrite Hid|].
    exists st0, k. repeat split; assumption.
Qed.

Lemma posted_hole_cards (idx : nat) (amount : Z) (label : string) (st : Engine) :
  map hole_cards (players (posted idx amount label st)) = map hole_cards (players st).
Proof.
  unfold posted. destruct (players st !! idx) as [p|] eqn:Hp; [|reflexivity].
  simpl. rewrite map_insert. apply list_insert_id.
  rewrite list_lookup_fmap, Hp. simpl. f_equal.
  unfold paid_seat. now destruct (_ =? 0).
Qed.

Lemma reset_seat_hole_cards (ps : list PlayerState) (s : nat) (p : PlayerState) :
  map hole_cards (map reset_seat ps) !! s = Some (hole_cards p) ->
  hole_cards p = [].
Proof.
  rewrite !list_lookup_fmap. destruct (ps !! s); simpl; [|discriminate].
  now intros [= <-].
Qed.

Lemma start_hand_cards (seed : option string) (uuid : string) (e0 e1 : Engine)
    (info : string * string) :
  start_hand rng_shuffle seed uuid e0 = (Ret info, e1) ->
  let n := length (players e0) in
  let deck0 := rng_shuffle (chosen_seed seed uuid) standard_deck in
  deck e1 = drop (2 * n) deck0 /\ community_cards e1 = [] /\
  length (players e1) = n /\
  forall i, (i < n)%nat ->
    exists p c1 c2,
      players e1 !! ((button_index e0 + 1 + i) mod n)%nat = Some p /\
      deck0 !! i = Some c1 /\ deck0 !! (n + i)%nat = Some c2 /\
      hole_cards p = [c1; c2].
Proof.
  intros Hrun n deck0.
  destruct (start_hand_inv seed uuid e0 e1 info Hrun)
    as (Hb & Hlong & _ & st0 & k & -> & Hps & Hbtn & _ & _ & _ & _ & Hcc & _).
  fold n deck0 in Hb, Hlong |- *.
  assert (Hlen : length (players st0) = n) by (rewrite Hps; apply length_map).
  destruct (blinds_posted_frame st0) as (Hlen2 & _ & _).
  assert (Hcards : map hole_cards (players (blinds_posted st0))
                   = map hole_cards (map reset_seat (players e0))).
  { unfold blinds_posted. now rewrite !posted_hole_cards, Hps. }
  assert (Hcc2 : community_cards (blinds_posted st0) = []).
  { unfold blinds_posted, posted.
    destruct (players st0 !! button_index st0);
      destruct (_ !! ((button_index st0 + 1) mod length (players st0))%nat);
      exact Hcc. }
  unfold hand_dealt. cbn [deck community_cards players set_current_actor_index
    set_phase set_deck set_players]. rewrite Hlen, Hbtn.
  set (ds := ((button_index e0 + 1) mod n)%nat).
  set (c1 := take n deck0). set (c2 := take n (drop n deck0)).
  assert (Hl1 : length c1 = n) by (apply length_take_le; lia).
  assert (Hl2 : length c2 = n)
    by (apply length_take_le; rewrite length_drop; lia).
  split; [reflexivity|]. split; [exact Hcc2|].
  split; [now rewrite !deal_cards_length, Hlen2|].
  intros i Hi.
  assert (Hseat : ((button_index e0 + 1 + i) mod n = (ds + (0 + i)) mod n)%nat).
  { unfold ds. simpl. now rewrite Nat.Div0.add_mod_idemp_l. }
  rewrite Hseat.
  destruct (lookup_lt_is_Some_2 c1 i ltac:(lia)) as [x1 Hx1].
  destruct (lookup_lt_is_Some_2 c2 i ltac:(lia)) as [x2 Hx2].
  rewrite (deal_cards_lookup ds n c2 0 _ i x2 ltac:(lia) Hx2).
  rewrite (deal_cards_lookup ds n c1 0 _ i x1 ltac:(lia) Hx1).
  assert (Hs : ((ds + (0 + i)) mod n < length (players (blinds_posted st0)))%nat)
    by (rewrite Hlen2, Hlen; apply Nat.mod_upper_bound; lia).
  destruct (lookup_lt_is_Some_2 _ _ Hs) as [p Hp]. rewrite Hp.
  assert (Hnone : hole_cards p = []).
  { apply (reset_seat_hole_cards (players e0) ((ds + (0 + i)) mod n)).
    now rewrite <- Hcards, list_lookup_fmap, Hp. }
  exists (give_card x2 (give_card x1 p)), x1, x2.
  split; [reflexivity|]. split; [|split].
  - unfold c1 in Hx1. now rewrite lookup_take_lt in Hx1 by lia.
  - unfold c2 in Hx2. rewrite lookup_take_lt, lookup_drop in Hx2 by lia. exact Hx2.
  - simpl. now rewrite Hnone.
Qed.

(** X13.  When [start_hand] returns, every seat holds exactly two cards:
    counting the seats from the one after the button, the seat at count
    [i] holds card [i] of the shuffled deck and card [n + i], so the
    cards go round the table twice.  The deck is left with what follows
    those [2 n] cards, and no community card is out. *)
Theorem start_hand_deals (seed : option string) (uuid : string) (e0 e1 : Engine)
    (info : string * string) :
  start_hand rng_shuffle seed uuid e0 = (Ret info, e1) ->
  let n := length (players e0) in
  let deck0 := rng_shuffle (chosen_seed seed uuid) standard_deck in
  deck e1 = drop (2 * n) deck0 /\ community_cards e1 = [] /\
  length (players e1) = n /\
  forall i, (i < n)%nat ->
    exists p c1 c2,
      players e1 !! ((button_index e0 + 1 + i) mod n)%nat = Some p /\
      deck0 !! i = Some c1 /\ deck0 !! (n + i)%nat = Some c2 /\
      hole_cards p = [c1; c2].
Proof. apply start_hand_cards. Qed.

Lemma map_alter_same {B} (g : PlayerState -> B) (f : PlayerState -> PlayerState)
    (i : nat) (ps : list PlayerState) :
  (forall q, g (f q) = g q) -> map g (alter f i ps) = map g ps.
Proof.
  intros Hf. revert i. induction ps as [|x ps IH]; intros [|i]; simpl;
    try reflexivity; [now rewrite Hf | f_equal; apply IH].
Qed.

Lemma deal_cards_bare (ds n : nat) (cards : list string) :
  forall a ps, map bare (deal_cards ds n a cards ps) = map bare ps.
Proof.
  induction cards as [|c cs IH]; intros a ps; simpl; [reflexivity|].
  rewrite IH. now apply map_alter_same.
Qed.

Lemma bare_lookup (ps ps' : list PlayerState) (j : nat) (p : PlayerState) :
  map bare ps' = map bare ps -> ps !! j = Some p ->
  exists q, ps' !! j = Some q /\ bare q = bare p.
Proof.
  intros H Hp.
  assert (E : map bare ps' !! j = Some (bare p))
    by now rewrite H, list_lookup_fmap, Hp.
  rewrite list_lookup_fmap in E. destruct (ps' !! j) as [q|]; [|discriminate].
  exists q. split; [reflexivity|].
  cbv [fmap option_fmap option_map] in E. congruence.
Qed.

Lemma blinds_posted_run (st : Engine) (pb pbb : PlayerState) :
  (2 <= length (players st))%nat -> (button_index st < length (players st))%nat ->
  players st !! button_index st = Some pb ->
  players st !! ((button_index st + 1) mod length (players st))%nat = Some pbb ->
  ((button_index st + 1) mod length (players st))%nat <> button_index st /\
  blinds_posted st
  = booked ((button_index st + 1) mod length (players st))%nat
      (paid_seat pbb (Z.min (stack pbb) (big_blind st))) (Z.min (stack pbb) (big_blind st))
      (mkAction (player_id pbb) "post_bb" (Z.min (stack pbb) (big_blind st)))
      (booked (button_index st)
         (paid_seat pb (Z.min (stack pb) (small_blind st)))
         (Z.min (stack pb) (small_blind st))
         (mkAction (player_id pb) "post_sb" (Z.min (stack pb) (small_blind st))) st).
Proof.
  intros Hn Hb Hpb Hpbb.
  assert (Hne : ((button_index st + 1) mod length (players st))%nat <> button_index st).
  { pose proof (mod_inj (length (players st)) (button_index st) 0 1 ltac:(lia)) as H.
    rewrite Nat.add_0_r, Nat.mod_small in H by lia. auto. }
  split; [exact Hne|].
  unfold blinds_posted, posted at 2. rewrite Hpb. cbv zeta.
  unfold posted. cbn [players booked moved set_actions set_total_pot set_players].
  rewrite list_lookup_insert_ne by auto. rewrite Hpbb. reflexivity.
Qed.

(** X14.  When [start_hand] returns at a table of two seats or more, the
    button has posted the small blind and the seat after it the big
    blind, each capped by the stack of the seat; a seat whose stack the
    blind empties is all-in, also when the stack was empty before.  The
    other seats keep their stacks with nothing committed, nobody is
    folded, the pot holds the two blinds, and the log holds the two
    postings, the small blind first. *)
Theorem start_hand_blinds (seed : option string) (uuid : string) (e0 e1 : Engine)
    (info : string * string) :
  start_hand rng_shuffle seed uuid e0 = (Ret info, e1) ->
  (2 <= length (players e0))%nat ->
  exists pb pbb,
    players e0 !! button_index e0 = Some pb /\
    players e0 !! ((button_index e0 + 1) mod length (players e0))%nat = Some pbb /\
    total_pot e1
    = Z.min (stack pb) (small_blind e0) + Z.min (stack pbb) (big_blind e0) /\
    actions e1
    = [mkAction (player_id pb) "post_sb" (Z.min (stack pb) (small_blind e0));
       mkAction (player_id pbb) "post_bb" (Z.min (stack pbb) (big_blind e0))] /\
    forall j p0,
      players e0 !! j = Some p0 ->
      exists q,
        players e1 !! j = Some q /\
        player_id q = player_id p0 /\ seat q = seat p0 /\ is_folded q = false /\
        match blind_due e0 j with
        | Some b =>
            stack q = stack p0 - Z.min (stack p0) b /\
            committed q = Z.min (stack p0) b /\
            is_all_in q = (stack p0 - Z.min (stack p0) b =? 0)
        | None => stack q = stack p0 /\ committed q = 0 /\ is_all_in q = false
        end.
Proof.
  intros Hrun Hn.
  destruct (start_hand_inv seed uuid e0 e1 info Hrun)
    as (Hb & _ & _ & st0 & k & -> & Hps & Hbtn & Hsb & Hbb & Hpot & Hacts & _).
  assert (Hlen : length (players st0) = length (players e0))
    by (rewrite Hps; apply length_map).
  destruct (lookup_lt_is_Some_2 (players e0) (button_index e0) Hb) as [pb Hpb].
  assert (Hbbl : ((button_index e0 + 1) mod length (players e0)
                  < length (players e0))%nat)
    by (apply Nat.mod_upper_bound; lia).
  destruct (lookup_lt_is_Some_2 (players e0) _ Hbbl) as [pbb Hpbb].
  exists pb, pbb. split; [exact Hpb|]. split; [exact Hpbb|].
  assert (Hpb0 : players st0 !! button_index st0 = Some (reset_seat pb))
    by now rewrite Hps, Hbtn, list_lookup_fmap, Hpb.
  assert (Hpbb0 : players st0 !! ((button_index st0 + 1) mod length (players st0))%nat
                  = Some (reset_seat pbb))
    by now rewrite Hps, Hbtn, length_map, list_lookup_fmap, Hpbb.
  destruct (blinds_posted_run st0 (reset_seat pb) (reset_seat pbb)
              ltac:(lia) ltac:(lia) Hpb0 Hpbb0) as [Hne Hposted].
  unfold hand_dealt. rewrite Hposted.
  cbn [total_pot actions players set_current_actor_index set_phase set_deck
       set_players booked moved set_actions set_total_pot].
  rewrite Hpot, Hacts, Hsb, Hbb, Hbtn, Hlen. cbn [reset_seat stack player_id
    set_is_all_in set_is_folded set_committed set_hole_cards].
  split; [lia|]. split; [reflexivity|].
  intros j p0 Hp0.
  set (b := button_index e0) in *.
  set (bb := ((b + 1) mod length (players e0))%nat) in *.
  rewrite Hbtn, Hlen in Hne. fold b bb in Hne.
  set (ps2 := <[bb := _]> (<[b := _]> (players st0))).
  assert (Hp2 : exists p2, ps2 !! j = Some p2 /\
            player_id p2 = player_id p0 /\ seat p2 = seat p0 /\
            is_folded p2 = false /\
            match blind_due e0 j with
            | Some x =>
                stack p2 = stack p0 - Z.min (stack p0) x /\
                committed p2 = Z.min (stack p0) x /\
                is_all_in p2 = (stack p0 - Z.min (stack p0) x =? 0)
            | None => stack p2 = stack p0 /\ committed p2 = 0 /\ is_all_in p2 = false
            end).
  { unfold ps2, blind_due. fold b bb.
    assert (Hlj : (j < length (players st0))%nat)
      by (rewrite Hlen; now apply lookup_lt_Some in Hp0).
    destruct (Nat.eqb_spec j b) as [->|Hjb].
    - rewrite list_lookup_insert_ne by auto.
      rewrite list_lookup_insert_eq by (fold b in Hb; lia).
      assert (p0 = pb) as -> by congruence.
      eexists. split; [reflexivity|]. unfold paid_seat. simpl.
      destruct (stack pb - Z.min (stack pb) (small_blind e0) =? 0); simpl;
        repeat split; lia.
    - destruct (Nat.eqb_spec j bb) as [->|Hjbb].
      + rewrite list_lookup_insert_eq by (rewrite length_insert; lia).
        assert (p0 = pbb) as -> by congruence.
        eexists. split; [reflexivity|]. unfold paid_seat. simpl.
        destruct (stack pbb - Z.min (stack pbb) (big_blind e0) =? 0); simpl;
          repeat split; lia.
      + rewrite !list_lookup_insert_ne by auto.
        rewrite Hps, list_lookup_fmap, Hp0. simpl.
        eexists. split; [reflexivity|]. simpl. repeat split. }
  destruct Hp2 as (p2 & Hp2 & Hid & Hseat & Hfold & Hdue).
  destruct (bare_lookup ps2 (deal_cards bb (length (players e0)) 0
                               (take (length (players e0))
                                  (drop (length (players e0))
                                     (rng_shuffle (chosen_seed seed uuid) standard_deck)))
                               (deal_cards bb (length (players e0)) 0
                                  (take (length (players e0))
                                     (rng_shuffle (chosen_seed seed uuid) standard_deck))
                                  ps2)) j p2)
    as (q & Hq & Hbare); [now rewrite !deal_cards_bare | exact Hp2 |].
  exists q. split; [exact Hq|].
  assert (Hs : stack q = stack p2) by exact (f_equal stack Hbare).
  assert (Hc : committed q = committed p2) by exact (f_equal committed Hbare).
  assert (Hi : player_id q = player_id p2) by exact (f_equal player_id Hbare).
  assert (Hf : is_folded q = is_folded p2) by exact (f_equal is_folded Hbare).
  assert (Ha : is_all_in q = is_all_in p2) by exact (f_equal is_all_in Hbare).
  assert (Hst : seat q = seat p2) by exact (f_equal seat Hbare).
  rewrite Hs, Hc, Hi, Hf, Ha, Hst.
  repeat (split; [assumption|]). exact Hdue.
Qed.

End StartHand.

(** ** A level round *)

Section LevelRound.

Variable evaluate : list string -> list string -> Z.

Lemma apply_check_run (pid : string) (amount : Z) (st : Engine) (ph : Phase)
    (idx : nat) (p : PlayerState) (legal : list string) :
  phase st = Some ph -> ph <> COMPLETED ->
  find_player_index pid st = Ret idx -> players st !! idx = Some p ->
  legal_actions pid st = Ret legal -> In "check" legal ->
  apply_action evaluate pid "check" amount st
  = finish_action evaluate (set_actions (actions st ++ [mkAction pid "check" 0]) st).
Proof.
  intros Hph Hne Hfind Hp Hlegal Hin.
  destruct (legal_means_can_act pid st idx p legal "check" Hfind Hp Hlegal Hin)
    as [Hf Ha].
  assert (Hgate : is_folded p || is_all_in p = false) by now rewrite Hf, Ha.
  destruct (apply_action_accepted evaluate pid "check" amount st ph idx p legal
              Hph Hne Hfind Hp Hgate Hlegal) as (h & _ & Heq).
  rewrite (proj2 (action_in_legal "check" legal) Hin) in Heq.
  rewrite Heq. reflexivity.
Qed.

(** X15.  The engine takes a betting round for complete as soon as the
    seats that can act are level with the highest commitment; it keeps no
    record of who has acted.  So when a round is level, one accepted
    check closes it: the same call deals the next street, or runs the
    showdown after the river, and the other seats are not asked. *)
Theorem check_closes_level_round (pid : string) (amount : Z) (st st' : Engine)
    (ph : Phase) (phv : string) (pot : Z) :
  phase st = Some ph -> is_street ph ->
  _is_betting_round_complete st = Ret true ->
  apply_action evaluate pid "check" amount st = (Ret (RespOk phv pot), st') ->
  phase st' = Some COMPLETED \/
  exists ph' cc dk,
    spec_enter ph (community_cards st) (deck st) = Some (ph', cc, dk) /\
    board st' = (Some ph', cc, dk).
Proof.
  intros Hph Hstreet Hlevel Hact.
  destruct (apply_action_cases evaluate pid "check" amount st)
    as [(msg & E) | [(x & E) | (idx & p & q & pay & ph' & legal & _ & Hne & Hfind
                                & Hp & _ & _ & Hlegal & Hin & _)]];
    [rewrite E in Hact; discriminate | rewrite E in Hact; discriminate |].
  assert (ph' <> COMPLETED -> ph <> COMPLETED) as Hne'.
  { intros _ ->. unfold is_street in Hstreet. simpl in Hstreet. lia. }
  rewrite (apply_check_run pid amount st ph idx p legal Hph (Hne' Hne) Hfind Hp
             Hlegal Hin) in Hact.
  remember (set_actions (actions st ++ [mkAction pid "check" 0]) st) as b eqn:Hb.
  assert (Hphb : phase b = Some ph) by now subst b.
  assert (Hlevelb : _is_betting_round_complete b = Ret true) by now subst b.
  assert (Hboard : community_cards b = community_cards st /\ deck b = deck st)
    by now subst b.
  destruct Hboard as [Hcc Hdk]. clear Hb.
  destruct (finish_action_street evaluate b st' _ ph Hphb Hstreet Hact)
    as [(Hdone & _) | (_ & k & [[Hnot _]|(ph2 & cc & dk & _ & _ & Henter & ->)])].
  - now left.
  - congruence.
  - right. exists ph2, cc, dk. rewrite <- Hcc, <- Hdk. auto.
Qed.

(** X16.  A street opens level: when an accepted action has moved the
    hand to a new street, the round of that street already counts as
    complete, before any seat has acted in it. *)
Theorem new_street_is_level (pid action : string) (amount : Z) (st st' : Engine)
    (ph : Phase) (phv : string) (pot : Z) :
  phase st = Some ph -> is_street ph ->
  apply_action evaluate pid action amount st = (Ret (RespOk phv pot), st') ->
  phase st' <> Some ph -> phase st' <> Some COMPLETED ->
  _is_betting_round_complete st' = Ret true.
Proof.
  intros Hph Hstreet Hact Hmoved Hopen.
  destruct (apply_action_cases evaluate pid action amount st)
    as [(msg & E) | [(x & E) | (idx & p & q & pay & ph' & legal & _ & _ & _
                                & _ & _ & _ & _ & _ & _ & _ & _ & E)]];
    rewrite E in Hact; try discriminate.
  remember (booked idx q pay (mkAction pid action pay) st) as b eqn:Hb.
  assert (Hphb : phase b = Some ph) by now subst b.
  clear Hb E.
  destruct (finish_action_street evaluate b st' _ ph Hphb Hstreet Hact)
    as [(Hdone & _) | (_ & k & [[_ ->]|(ph2 & cc & dk & Hlevel & _ & _ & ->)])].
  - contradiction.
  - exfalso. apply Hmoved. exact Hphb.
  - exact Hlevel.
Qed.

End LevelRound.

(** ** The last seat in the hand *)

Lemma zip_seq_all_folded (ps : list PlayerState) (k : nat) :
  (forall j q, ps !! j = Some q -> is_folded q = true) ->
  List.filter (fun ip : nat * PlayerState => negb (is_folded (snd ip)))
    (zip (seq k (length ps)) ps) = [].
Proof.
  revert k. induction ps as [|x ps IH]; intros k H; [reflexivity|].
  simpl. rewrite (H 0%nat x eq_refl). simpl. apply IH.
  intros j q Hq. exact (H (S j) q Hq).
Qed.

Lemma zip_seq_one_unfolded (ps : list PlayerState) (k i : nat) (p : PlayerState) :
  ps !! i = Some p -> is_folded p = false ->
  (forall j q, ps !! j = Some q -> is_folded q = false -> j = i) ->
  List.filter (fun ip : nat * PlayerState => negb (is_folded (snd ip)))
    (zip (seq k (length ps)) ps) = [((k + i)%nat, p)].
Proof.
  revert k i. induction ps as [|x ps IH]; intros k i Hp Hf Honly; [discriminate|].
  simpl. destruct i as [|i]; simpl in Hp.
  - injection Hp as ->. rewrite Hf. simpl. rewrite Nat.add_0_r. f_equal.
    apply zip_seq_all_folded. intros j q Hq.
    destruct (is_folded q) eqn:E; [reflexivity|].
    specialize (Honly (S j) q Hq E). discriminate.
  - destruct (is_folded x) eqn:E.
    + simpl. rewrite (IH (S k) i Hp Hf).
      * f_equal. f_equal. lia.
      * intros j q Hq Hfq. specialize (Honly (S j) q Hq Hfq). lia.
    + specialize (Honly 0%nat x eq_refl E). discriminate.
Qed.

(** X17.  When exactly one seat is left in the hand, the showdown gives
    it the whole pot without consulting the evaluator: its stack grows by
    the pot, the pot is emptied, the payment is recorded under its
    identifier, and no other seat changes. *)
Theorem lone_seat_takes_pot (st : Engine) (i : nat) (p : PlayerState) :
  players st !! i = Some p -> is_folded p = false ->
  (forall j q, players st !! j = Some q -> is_folded q = false -> j = i) ->
  exists st',
    (forall evaluate, evaluate_and_distribute evaluate st = (Ret tt, st')) /\
    players st' = <[i := set_stack (stack p + total_pot st) p]> (players st) /\
    total_pot st' = 0 /\
    pot_history st' = pot_history st ++ [PotWinner (player_id p) (total_pot st)] /\
    phase st' = phase st /\ community_cards st' = community_cards st /\
    deck st' = deck st /\ actions st' = actions st.
Proof.
  intros Hp Hf Honly.
  assert (Hone : unfolded st = [(i, p)]).
  { unfold unfolded, enumerate.
    now rewrite (zip_seq_one_unfolded (players st) 0 i p Hp Hf Honly). }
  exists (awarded (i, p) st). split.
  - intros evaluate. rewrite evaluate_and_distribute_run. now rewrite Hone.
  - unfold awarded, credit. simpl. repeat split.
    exact (alter_as_insert (fun q => set_stack (stack q + total_pot st) q) _ _ _ Hp).
Qed.

(** ** The board comes from the seed *)

Lemma spec_path_app (k m : nat) :
  forall ph0 cc0 dk0 ph cc dk,
    spec_path k ph0 cc0 dk0 = Some (ph, cc, dk) ->
    spec_path (k + m) ph0 cc0 dk0 = spec_path m ph cc dk.
Proof.
  induction k as [|k IH]; intros ph0 cc0 dk0 ph cc dk H.
  - simpl in H. now injection H as -> -> ->.
  - rewrite spec_path_S in H. replace (S k + m)%nat with (S (k + m)) by lia.
    rewrite spec_path_S.
    destruct (spec_enter ph0 cc0 dk0) as [[[ph1 cc1] dk1]|]; [|discriminate].
    now apply IH.
Qed.

Lemma spec_enter_phases (ph ph' : Phase) (cc dk cc' dk' : list string) :
  spec_enter ph cc dk = Some (ph', cc', dk') ->
  streets_done ph' = S (streets_done ph) /\ shown ph' = ph' /\
  (length cc = board_size ph -> length cc' = board_size ph').
Proof.
  destruct ph; simpl; try discriminate.
  - destruct dk as [|? [|? [|? [|? ?]]]]; try discriminate.
    intros [= <- <- _]. repeat split. rewrite length_app. simpl. lia.
  - destruct dk as [|? [|? ?]]; try discriminate.
    intros [= <- <- _]. repeat split. rewrite length_app. simpl. lia.
  - destruct dk as [|? [|? ?]]; try discriminate.
    intros [= <- <- _]. repeat split. rewrite length_app. simpl. lia.
  - intros [= <- <- _]. repeat split. auto.
Qed.

Lemma spec_path_phases (k : nat) :
  forall ph cc dk phx ccx dkx,
    spec_path k ph cc dk = Some (phx, ccx, dkx) ->
    streets_done phx = (k + streets_done ph)%nat /\
    (0 < k -> shown phx = phx)%nat /\
    (length cc = board_size ph -> length ccx = board_size phx).
Proof.
  induction k as [|k IH]; intros ph cc dk phx ccx dkx H.
  - simpl in H. injection H as -> -> ->. repeat split; auto. lia.
  - rewrite spec_path_S in H.
    destruct (spec_enter ph cc dk) as [[[ph1 cc1] dk1]|] eqn:E; [|discriminate].
    destruct (spec_enter_phases _ _ _ _ _ _ E) as (Hd & Hs & Hl).
    destruct (IH _ _ _ _ _ _ H) as (Hd' & Hs' & Hl').
    split; [lia|]. split; [|auto].
    intros _. destruct k as [|k]; [|apply Hs'; lia].
    simpl in H. now injection H as <- _ _.
Qed.

Lemma posted_keeps (idx : nat) (amount : Z) (label : string) (st : Engine) :
  community_cards (posted idx amount label st) = community_cards st /\
  deck_seed (posted idx amount label st) = deck_seed st.
Proof. unfold posted. now destruct (players st !! idx). Qed.

Lemma hand_dealt_board (c1 c2 rest : list string) (st : Engine) (k : nat) :
  phase (set_current_actor_index k (hand_dealt c1 c2 rest st)) = Some PRE_FLOP /\
  community_cards (set_current_actor_index k (hand_dealt c1 c2 rest st))
  = community_cards st /\
  deck (set_current_actor_index k (hand_dealt c1 c2 rest st)) = rest /\
  deck_seed (set_current_actor_index k (hand_dealt c1 c2 rest st)) = deck_seed st.
Proof.
  unfold hand_dealt, blinds_posted. simpl.
  destruct (posted_keeps ((button_index st + 1) mod length (players st))%nat
              (big_blind st) "bb" (posted (button_index st) (small_blind st) "sb" st))
    as [H1 H2].
  destruct (posted_keeps (button_index st) (small_blind st) "sb" st) as [H3 H4].
  repeat split; congruence.
Qed.

Section Board.

Variable evaluate : list string -> list string -> Z.
Variable rng_shuffle : string -> list string -> list string.

(** The board and the deck of a hand are where the rule of the streets
    puts them, starting from the deck that is left when the hole cards
    have been dealt. *)
Lemma hand_board (e0 e : Engine) :
  hand_state evaluate rng_shuffle e0 e ->
  exists sd ph,
    deck_seed e = Some sd /\ phase e = Some ph /\
    (is_street ph \/ ph = COMPLETED) /\
    spec_path (streets_done ph) PRE_FLOP []
      (drop (2 * length (players e0)) (rng_shuffle sd standard_deck))
    = Some (shown ph, community_cards e, deck e).
Proof.
  induction 1 as [seed uuid info e1 Hstart|e e' pid action amount phv pot Hhand IH Hact].
  - destruct (start_hand_inv rng_shuffle seed uuid e0 e1 info Hstart)
      as (_ & _ & _ & st0 & k & -> & _ & _ & _ & _ & _ & _ & Hcc & _ & Hseed).
    destruct (hand_dealt_board
                (take (length (players e0))
                   (rng_shuffle (chosen_seed seed uuid) standard_deck))
                (take (length (players e0))
                   (drop (length (players e0))
                      (rng_shuffle (chosen_seed seed uuid) standard_deck)))
                (drop (2 * length (players e0))
                   (rng_shuffle (chosen_seed seed uuid) standard_deck)) st0 k)
      as (Hph & Hc & Hd & Hsd).
    exists (chosen_seed seed uuid), PRE_FLOP.
    split; [congruence|]. split; [exact Hph|].
    split; [left; apply is_street_PRE_FLOP|].
    cbn [streets_done spec_path shown]. rewrite Hc, Hd, Hcc. reflexivity.
  - destruct IH as (sd & ph & Hsd & Hph & Hkind & Hpath).
    destruct (apply_action_cases evaluate pid action amount e)
      as [(msg & E) | [(x & E) | (idx & p & q & pay & ph' & legal & Hph' & Hne & _
                                  & _ & _ & _ & _ & _ & _ & _ & _ & E)]];
      rewrite E in Hact; try discriminate.
    assert (ph' = ph) as -> by congruence.
    destruct Hkind as [Hstreet | ->]; [|contradiction].
    assert (Hshown : shown ph = ph)
      by (unfold is_street in Hstreet; destruct ph; simpl in *; auto; lia).
    rewrite Hshown in Hpath.
    remember (booked idx q pay (mkAction pid action pay) e) as b eqn:Hb.
    assert (Hphb : phase b = Some ph) by now subst b.
    assert (Hsame : community_cards b = community_cards e /\ deck b = deck e /\
                    deck_seed b = deck_seed e) by now subst b.
    destruct Hsame as (Hcc & Hdk & Hseed). clear Hb E.
    exists sd.
    destruct (finish_action_street evaluate b e' _ ph Hphb Hstreet Hact)
      as [(Hdone & _ & phx & cc & dk & Hrun & <- & <- & Hseed')
         | (_ & k & [[_ ->]|(ph2 & cc & dk & _ & Hearly & Henter & ->)])].
    + exists COMPLETED. split; [congruence|]. split; [exact Hdone|].
      split; [now right|].
      unfold spec_run_out in Hrun. rewrite Hcc, Hdk in Hrun.
      pose proof (spec_path_app _ (streets_left ph) _ _ _ _ _ _ Hpath) as Happ.
      rewrite Hrun in Happ.
      destruct (spec_path_phases _ _ _ _ _ _ _ Hrun) as (Hd & Hs & _).
      assert (Hsum : (streets_done ph + streets_left ph = 4)%nat)
        by (unfold is_street in Hstreet; destruct ph; simpl in *; lia).
      rewrite Hsum in Happ. cbn [streets_done shown]. rewrite Happ.
      assert (phx = SHOWDOWN) as ->; [|reflexivity].
      specialize (Hs Hstreet). destruct phx; simpl in *; try lia; try discriminate.
      reflexivity.
    + exists ph. split; [simpl; congruence|]. split; [exact Hphb|].
      split; [now left|]. rewrite Hshown.
      cbn [community_cards deck set_current_actor_index]. now rewrite Hcc, Hdk.
    + destruct (spec_enter_phases _ _ _ _ _ _ Henter) as (Hd & Hs & _).
      exists ph2. split; [simpl; congruence|]. split; [reflexivity|].
      split; [left; eapply spec_enter_street; eauto|].
      rewrite Hs, Hd. replace (S (streets_done ph)) with (streets_done ph + 1)%nat by lia.
      rewrite (spec_path_app _ 1 _ _ _ _ _ _ Hpath).
      rewrite Hcc, Hdk in Henter. rewrite spec_path_S, Henter. reflexivity.
Qed.

(** X18.  The cards of a hand are fixed by its seed and the number of
    seats: in every state of the hand, the community cards and the deck
    are what the rule of the streets makes of the shuffled deck once two
    cards a seat are off it, after as many phase changes as the phase
    tells.  What the seats do never changes which cards come. *)
Theorem board_from_seed (e0 e : Engine) :
  hand_state evaluate rng_shuffle e0 e ->
  exists sd ph,
    deck_seed e = Some sd /\ phase e = Some ph /\
    spec_path (streets_done ph) PRE_FLOP []
      (drop (2 * length (players e0)) (rng_shuffle sd standard_deck))
    = Some (shown ph, community_cards e, deck e).
Proof.
  intros H. destruct (hand_board e0 e H) as (sd & ph & Hsd & Hph & _ & Hpath).
  eauto.
Qed.

(** X19.  A hand shows no community card before the flop, three on the
    flop, four on the turn and five on the river; a completed hand shows
    five, also when all seats but one folded before the flop. *)
Theorem board_by_phase (e0 e : Engine) (ph : Phase) :
  hand_state evaluate rng_shuffle e0 e -> phase e = Some ph ->
  length (community_cards e) = board_size ph.
Proof.
  intros H Hph. destruct (hand_board e0 e H) as (sd & ph' & _ & Hph' & _ & Hpath).
  assert (ph' = ph) as -> by congruence.
  destruct (spec_path_phases _ _ _ _ _ _ _ Hpath) as (_ & _ & Hl).
  rewrite (Hl eq_refl). now destruct ph.
Qed.

End Board.

(** ** The acting seat *)

Lemma ledger_step_exact (idx : nat) (p : PlayerState) (pid action : string)
    (amount to_call : Z) (st : Engine) :
  players st !! idx = Some p -> In action action_names ->
  (action = "bet" \/ action = "raise" -> 0 < amount <= stack p) ->
  ledger_step idx p pid action amount to_call st
  = (Ret None,
     booked idx (acted_seat p action (payment p action amount to_call))
       (payment p action amount to_call)
       (mkAction pid action (payment p action amount to_call)) st).
Proof.
  intros Hp Hin Hamt. unfold action_names in Hin. simpl in Hin.
  destruct Hin as [<-|[<-|[<-|[<-|[<-|[<-|[]]]]]]];
    unfold ledger_step, payment, acted_seat; simpl.
  - unfold bind, update_player, log_action, modify, ret; simpl.
    f_equal. now apply booked_fold_eq.
  - rewrite (bind_run _ _ _ _ _ (pay_in_run _ _ _ _ Hp)). reflexivity.
  - unfold bind, log_action, modify, ret; simpl.
    f_equal. now apply booked_check_eq.
  - destruct (Z.leb_spec amount 0) as [Hle|_]; [specialize (Hamt ltac:(auto)); lia|].
    destruct (Z.ltb_spec (stack p) amount) as [Hlt|_];
      [specialize (Hamt ltac:(auto)); lia|]. simpl.
    rewrite (bind_run _ _ _ _ _ (pay_in_run _ _ _ _ Hp)). reflexivity.
  - destruct (Z.leb_spec amount 0) as [Hle|_]; [specialize (Hamt ltac:(auto)); lia|].
    destruct (Z.ltb_spec (stack p) amount) as [Hlt|_];
      [specialize (Hamt ltac:(auto)); lia|]. simpl.
    rewrite (bind_run _ _ _ _ _ (pay_in_run _ _ _ _ Hp)). reflexivity.
  - unfold bind, update_player, log_action, modify, ret; simpl.
    f_equal. destruct st; unfold booked, moved, set_actions, set_total_pot, set_players;
      simpl in *. f_equal. now apply allin_seat_eq.
Qed.

(** What [legal_actions] has checked of an action it offers. *)
Lemma legal_actions_inv (pid : string) (st : Engine) (idx : nat) (p : PlayerState)
    (h : Z) (legal : list string) (a : string) :
  find_player_index pid st = Ret idx -> players st !! idx = Some p ->
  py_max (map committed (players st)) = Ret h ->
  legal_actions pid st = Ret legal -> In a legal -> offered a p h.
Proof.
  intros Hfind Hp Hmax. unfold offered, legal_actions. rewrite Hfind. simpl.
  unfold index. rewrite Hp. simpl.
  destruct (_ || _); [intros [= <-] []|].
  rewrite Hmax. simpl.
  destruct (Z.ltb_spec 0 (h - committed p)), (Z.leb_spec (h - committed p) (stack p)),
           (Z.ltb_spec (h - committed p) (stack p)), (Z.ltb_spec 0 (stack p));
    intros [= <-]; simpl; intuition (subst; auto 10 with zarith).
Qed.

Lemma acted_seat_facts (p : PlayerState) (action : string) (amount h : Z) :
  offered action p h ->
  (action = "bet" \/ action = "raise" -> 0 < amount <= stack p) ->
  let pay := payment p action amount (h - committed p) in
  let q := acted_seat p action pay in
  0 <= pay /\ stack q = stack p - pay /\ committed q = committed p + pay /\
  hole_cards q = hole_cards p /\ player_id q = player_id p /\ seat q = seat p /\
  (action = "fold" -> is_folded q = true /\ pay = 0 /\ committed p < h) /\
  (action <> "fold" -> is_folded q = is_folded p).
Proof.
  intros Hoff Hamt pay q. subst pay q.
  destruct Hoff as [[-> H]|[[-> H]|[[-> H]|[[-> H]|[[-> H]|[-> H]]]]]];
    unfold payment, acted_seat, paid_seat; simpl;
    try (specialize (Hamt ltac:(auto)));
    try match goal with |- context [if ?c =? 0 then _ else _] => destruct (c =? 0) end;
    simpl; repeat split; try lia; try congruence; try (intros; lia).
Qed.

Section Shape.

Variable evaluate : list string -> list string -> Z.

(** Every call of [apply_action], with what it has checked when it books
    the action. *)
Lemma apply_action_shape (pid action : string) (amount : Z) (st : Engine) :
  (exists msg,
     apply_action evaluate pid action amount st = (Ret (RespError msg), st)) \/
  (apply_action evaluate pid action amount st = (Raise (KeyError pid), st) /\
   find_player_index pid st = Raise (KeyError pid)) \/
  (exists idx p h ph,
     phase st = Some ph /\ ph <> COMPLETED /\
     find_player_index pid st = Ret idx /\ players st !! idx = Some p /\
     is_folded p = false /\ is_all_in p = false /\
     py_max (map committed (players st)) = Ret h /\
     offered action p h /\
     (action = "bet" \/ action = "raise" -> 0 < amount <= stack p) /\
     apply_action evaluate pid action amount st
     = finish_action evaluate
         (booked idx
            (acted_seat p action (payment p action amount (h - committed p)))
            (payment p action amount (h - committed p))
            (mkAction pid action (payment p action amount (h - committed p))) st)).
Proof.
  destruct (phase st) as [ph|] eqn:Hph;
    [|left; eexists; apply apply_action_no_hand; now left].
  assert (Hdec : ph = COMPLETED \/ ph <> COMPLETED)
    by (destruct ph; first [now left | now right]).
  destruct Hdec as [->|Hne];
    [left; eexists; apply apply_action_no_hand; now right|].
  destruct (find_player_index pid st) as [idx|e] eqn:Hfind.
  2:{ right; left. apply find_from_raises in Hfind as Hkey. destruct Hkey as [-> _].
      split; [now apply (apply_action_unknown _ _ _ _ _ ph) | reflexivity]. }
  destruct (find_player_index_lookup _ _ _ Hfind) as (p & Hp & Hid).
  destruct (is_folded p || is_all_in p) eqn:Hgate;
    [left; eexists; now apply (apply_action_cannot_act _ _ _ _ _ ph idx p)|].
  destruct (legal_actions_returns _ _ _ Hfind) as [legal Hlegal].
  assert (Hnil : map committed (players st) <> []).
  { destruct (players st); [discriminate Hp | discriminate]. }
  destruct (py_max_nonempty _ Hnil) as [h Hh].
  assert (Heq : apply_action evaluate pid action amount st =
    if existsb (String.eqb action) legal
    then perform evaluate idx p pid action amount (h - committed p) st
    else (Ret (RespError ("Illegal action: " +:+ action +:+ ". Allowed: "
                            +:+ repr_list legal)), st)).
  { unfold apply_action, bind at 1, get. rewrite Hph.
    destruct ph; try congruence; unfold bind at 1, read; rewrite Hfind;
      rewrite (bind_run _ _ _ _ _ (player_at_run _ _ _ Hp)); rewrite Hgate;
      unfold bind at 1; rewrite Hlegal;
      (destruct (existsb _ legal); simpl; [|reflexivity]);
      unfold bind at 1; rewrite Hh; reflexivity. }
  destruct (existsb (String.eqb action) legal) eqn:Hin; [|left; eauto].
  apply action_in_legal in Hin.
  apply orb_false_iff in Hgate as [Hf Ha].
  unfold perform in Heq.
  destruct (ledger_step_run idx p pid action amount (h - committed p) st Hp)
    as [(msg & Hrun & _) | [(q & pay & _ & _ & _ & _ & _ & _ & Hamt & _)
                           | (Hrun & Hnot)]].
  - left. exists msg. rewrite Heq. now rewrite (bind_run _ _ _ _ _ Hrun).
  - right; right. exists idx, p, h, ph.
    repeat (split; [first [assumption | reflexivity]|]).
    split; [eapply legal_actions_inv; eauto|]. split; [exact Hamt|].
    rewrite Heq.
    rewrite (bind_run _ _ _ _ _
               (ledger_step_exact idx p pid action amount (h - committed p) st Hp
                  (legal_actions_names _ _ _ Hlegal _ Hin) Hamt)).
    reflexivity.
  - exfalso. apply Hnot. eapply legal_actions_names; eauto.
Qed.

End Shape.

Section Accepted.

Variable evaluate : list string -> list string -> Z.

(** An accepted action, seen from the seats. *)
Lemma accepted_action_seat (pid action : string) (amount : Z) (st st' : Engine)
    (phv : string) (pot : Z) :
  apply_action evaluate pid action amount st = (Ret (RespOk phv pot), st') ->
  exists idx p q h pay ph,
    phase st = Some ph /\ ph <> COMPLETED /\
    find_player_index pid st = Ret idx /\ players st !! idx = Some p /\
    is_folded p = false /\ is_all_in p = false /\
    py_max (map committed (players st)) = Ret h /\
    0 <= pay /\ stack q = stack p - pay /\ committed q = committed p + pay /\
    hole_cards q = hole_cards p /\
    (action = "fold" -> is_folded q = true /\ pay = 0 /\ committed p < h) /\
    (action <> "fold" -> is_folded q = false) /\
    map strip (players st') = map strip (<[idx := q]> (players st)) /\
    finish_action evaluate (booked idx q pay (mkAction pid action pay) st)
    = (Ret (RespOk phv pot), st').
Proof.
  intros Hact.
  destruct (apply_action_shape evaluate pid action amount st)
    as [(msg & E) | [(E & _) | (idx & p & h & ph & Hph & Hne & Hfind & Hp & Hf & Ha
                               & Hmax & Hoff & Hamt & E)]];
    rewrite E in Hact; try discriminate.
  destruct (acted_seat_facts p action amount h Hoff Hamt)
    as (Hpay & Hs & Hc & Hh & _ & _ & Hfold & Hnot).
  set (pay := payment p action amount (h - committed p)) in *.
  set (q := acted_seat p action pay) in *.
  exists idx, p, q, h, pay, ph.
  repeat (split; [assumption|]).
  split; [intros Hn; rewrite (Hnot Hn); exact Hf|].
  split; [|exact Hact].
  pose proof (settles_seats _ _ (finish_action_settles evaluate
                (booked idx q pay (mkAction pid action pay) st))) as Hseats.
  now rewrite Hact in Hseats.
Qed.

End Accepted.

(** ** No card twice *)

Lemma hole_cards_strip (ps : list PlayerState) :
  map hole_cards (map strip ps) = map hole_cards ps.
Proof. rewrite map_map. now apply map_ext. Qed.

Lemma insert_keeps_hole_cards (ps : list PlayerState) (i : nat) (p q : PlayerState) :
  ps !! i = Some p -> hole_cards q = hole_cards p ->
  map hole_cards (<[i := q]> ps) = map hole_cards ps.
Proof.
  intros Hp Hq. rewrite map_insert. apply list_insert_id.
  now rewrite list_lookup_fmap, Hp, Hq.
Qed.

Lemma spec_enter_cards (ph ph' : Phase) (cc dk cc' dk' : list string) :
  spec_enter ph cc dk = Some (ph', cc', dk') ->
  List.NoDup (cc ++ dk) ->
  List.NoDup (cc' ++ dk') /\ forall x, In x (cc' ++ dk') -> In x (cc ++ dk).
Proof.
  destruct ph; simpl; try discriminate.
  - destruct dk as [|b [|c1 [|c2 [|c3 d]]]]; try discriminate.
    intros [= _ <- <-] Hnd. rewrite <- app_assoc. simpl. split.
    + now apply NoDup_remove_1 in Hnd.
    + intros x. rewrite !in_app_iff. simpl. tauto.
  - destruct dk as [|b [|c d]]; try discriminate.
    intros [= _ <- <-] Hnd. rewrite <- app_assoc. simpl. split.
    + now apply NoDup_remove_1 in Hnd.
    + intros x. rewrite !in_app_iff. simpl. tauto.
  - destruct dk as [|b [|c d]]; try discriminate.
    intros [= _ <- <-] Hnd. rewrite <- app_assoc. simpl. split.
    + now apply NoDup_remove_1 in Hnd.
    + intros x. rewrite !in_app_iff. simpl. tauto.
  - intros [= _ <- <-] Hnd. auto.
Qed.

Lemma spec_path_cards (k : nat) :
  forall ph cc dk phx ccx dkx,
    spec_path k ph cc dk = Some (phx, ccx, dkx) ->
    List.NoDup (cc ++ dk) ->
    List.NoDup (ccx ++ dkx) /\ forall x, In x (ccx ++ dkx) -> In x (cc ++ dk).
Proof.
  induction k as [|k IH]; intros ph cc dk phx ccx dkx H Hnd.
  - simpl in H. injection H as _ <- <-. auto.
  - rewrite spec_path_S in H.
    destruct (spec_enter ph cc dk) as [[[ph1 cc1] dk1]|] eqn:E; [|discriminate].
    destruct (spec_enter_cards _ _ _ _ _ _ E Hnd) as [Hnd1 Hin1].
    destruct (IH _ _ _ _ _ _ H Hnd1) as [Hnd2 Hin2]. auto.
Qed.

Lemma NoDup_concat_lookup {A} (ls : list (list A)) :
  (forall i l, ls !! i = Some l -> List.NoDup l) ->
  (forall i j l l' x, i <> j -> ls !! i = Some l -> ls !! j = Some l' ->
     In x l -> ~ In x l') ->
  List.NoDup (concat ls).
Proof.
  induction ls as [|l ls IH]; intros Heach Hpair; simpl; [constructor|].
  apply List.NoDup_app.
  - exact (Heach 0%nat l eq_refl).
  - apply IH.
    + intros i l' Hl'. exact (Heach (S i) l' Hl').
    + intros i j l1 l2 x Hij H1 H2. apply (Hpair (S i) (S j)); auto.
  - intros x Hx Hc. apply in_concat in Hc as (l' & Hl' & Hxl').
    apply list_elem_of_In, list_elem_of_lookup in Hl' as [j Hj].
    exact (Hpair 0%nat (S j) l l' x ltac:(lia) eq_refl Hj Hx Hxl').
Qed.

Section Cards.

Variable evaluate : list string -> list string -> Z.
Variable rng_shuffle : string -> list string -> list string.

(** The hole cards stay where [start_hand] dealt them. *)
Lemma hand_cards (e0 e : Engine) :
  hand_state evaluate rng_shuffle e0 e ->
  exists sd,
    deck_seed e = Some sd /\
    (0 < length (players e0))%nat /\
    (2 * length (players e0) <= length (rng_shuffle sd standard_deck))%nat /\
    length (players e) = length (players e0) /\
    forall i, (i < length (players e0))%nat ->
      exists c1 c2,
        rng_shuffle sd standard_deck !! i = Some c1 /\
        rng_shuffle sd standard_deck !! (length (players e0) + i)%nat = Some c2 /\
        map hole_cards (players e)
          !! ((button_index e0 + 1 + i) mod length (players e0))%nat
        = Some [c1; c2].
Proof.
  induction 1 as [seed uuid info e1 Hstart|e e' pid action amount phv pot Hhand IH Hact].
  - destruct (start_hand_inv rng_shuffle seed uuid e0 e1 info Hstart)
      as (Hb & Hlong & _ & st0 & k & He1 & _ & _ & _ & _ & _ & _ & _ & _ & Hseed).
    destruct (start_hand_cards rng_shuffle seed uuid e0 e1 info Hstart)
      as (_ & _ & Hlen & Hcards).
    exists (chosen_seed seed uuid). split.
    { rewrite He1. destruct (hand_dealt_board
        (take (length (players e0))
           (rng_shuffle (chosen_seed seed uuid) standard_deck))
        (take (length (players e0))
           (drop (length (players e0))
              (rng_shuffle (chosen_seed seed uuid) standard_deck)))
        (drop (2 * length (players e0))
           (rng_shuffle (chosen_seed seed uuid) standard_deck)) st0 k)
        as (_ & _ & _ & Hsd). congruence. }
    split; [lia|]. split; [exact Hlong|]. split; [exact Hlen|].
    intros i Hi. destruct (Hcards i Hi) as (p & c1 & c2 & Hp & H1 & H2 & Hh).
    exists c1, c2. split; [exact H1|]. split; [exact H2|].
    now rewrite list_lookup_fmap, Hp, <- Hh.
  - destruct IH as (sd & Hsd & Hn & Hlong & Hlen & Hcards).
    destruct (accepted_action_seat evaluate pid action amount e e' phv pot Hact)
      as (idx & p & q & h & pay & ph & Hph & Hne & _ & Hp & _ & _ & _ & _ & _ & _
          & Hh & _ & _ & Hstrip & Hfin).
    assert (Hmap : map hole_cards (players e') = map hole_cards (players e)).
    { rewrite <- (hole_cards_strip (players e')), Hstrip, hole_cards_strip.
      now apply (insert_keeps_hole_cards _ _ p). }
    assert (Hseed : deck_seed e' = deck_seed e).
    { destruct (hand_state_invariant evaluate rng_shuffle e0 e Hhand) as (Hplay & _).
      pose proof (in_play_not_completed e ph Hplay Hph Hne) as Hstreet.
      remember (booked idx q pay (mkAction pid action pay) e) as b eqn:Hb.
      assert (Hphb : phase b = Some ph) by now subst b.
      assert (Hsb : deck_seed b = deck_seed e) by now subst b.
      clear Hb.
      destruct (finish_action_street evaluate b e' _ ph Hphb Hstreet Hfin)
        as [(_ & _ & phx & cc & dk & _ & _ & _ & Hs)
           | (_ & k & [[_ ->]|(ph2 & cc & dk & _ & _ & _ & ->)])];
        simpl; congruence. }
    exists sd. split; [congruence|]. split; [exact Hn|]. split; [exact Hlong|].
    split.
    + rewrite <- (length_map hole_cards), Hmap, length_map. exact Hlen.
    + intros i Hi. rewrite Hmap. now apply Hcards.
Qed.

(** X20.  When the shuffle leaves no card twice in the deck, no card is
    twice in play: in every state of a hand the hole cards of all the
    seats, the community cards and the cards left in the deck are all
    different. *)
Theorem no_card_twice (e0 e : Engine) :
  (forall sd, List.NoDup (rng_shuffle sd standard_deck)) ->
  hand_state evaluate rng_shuffle e0 e ->
  List.NoDup (cards_in_play e).
Proof.
  intros Hshuffle Hhand.
  destruct (hand_cards e0 e Hhand) as (sd & Hsd & Hn & Hlong & Hlen & Hcards).
  destruct (hand_board evaluate rng_shuffle e0 e Hhand)
    as (sd' & ph & Hsd' & Hph & _ & Hpath).
  assert (sd' = sd) as -> by congruence.
  set (n := length (players e0)) in *.
  set (deck0 := rng_shuffle sd standard_deck) in *.
  assert (Hnd : List.NoDup deck0) by apply Hshuffle.
  assert (Hnd' : NoDup deck0) by now apply NoDup_ListNoDup.
  (* a seat holds two of the first [2 n] cards of the deck *)
  assert (Hseat : forall s l, map hole_cards (players e) !! s = Some l ->
            exists i c1 c2, (i < n)%nat /\ s = ((button_index e0 + 1 + i) mod n)%nat /\
              deck0 !! i = Some c1 /\ deck0 !! (n + i)%nat = Some c2 /\ l = [c1; c2]).
  { intros s l Hl.
    assert (Hs : (s < n)%nat).
    { apply lookup_lt_Some in Hl. rewrite length_map in Hl. lia. }
    destruct (mod_reach0 n (button_index e0 + 1) s Hs) as (i & Hi & Hmod).
    destruct (Hcards i Hi) as (c1 & c2 & H1 & H2 & Hl').
    exists i, c1, c2. rewrite Hmod in Hl'. repeat split; auto; congruence. }
  (* the rest comes from behind them *)
  assert (Hrest : List.NoDup (community_cards e ++ deck e) /\
            forall x, In x (community_cards e ++ deck e) ->
                      In x (drop (2 * n) deck0)).
  { apply (spec_path_cards _ _ _ _ _ _ _ Hpath). simpl.
    rewrite <- (take_drop (2 * n) deck0) in Hnd.
    now apply NoDup_app_remove_l in Hnd. }
  destruct Hrest as [Hrest Hfrom].
  unfold cards_in_play. apply List.NoDup_app.
  - apply NoDup_concat_lookup.
    + intros s l Hl.
      destruct (Hseat s l Hl) as (i & c1 & c2 & Hi & _ & H1 & H2 & ->).
      constructor; [|constructor; [intros []|constructor]].
      intros [->|[]]. pose proof (NoDup_lookup _ _ _ _ Hnd' H1 H2). lia.
    + intros s s' l l' x Hss Hl Hl' Hx Hx'.
      destruct (Hseat s l Hl) as (i & c1 & c2 & Hi & -> & H1 & H2 & ->).
      destruct (Hseat s' l' Hl') as (i' & c1' & c2' & Hi' & -> & H1' & H2' & ->).
      assert (i <> i') by congruence.
      simpl in Hx, Hx'.
      destruct Hx as [<-|[<-|[]]]; destruct Hx' as [E|[E|[]]]; subst.
      * pose proof (NoDup_lookup _ _ _ _ Hnd' H1 H1'). lia.
      * pose proof (NoDup_lookup _ _ _ _ Hnd' H1 H2'). lia.
      * pose proof (NoDup_lookup _ _ _ _ Hnd' H2 H1'). lia.
      * pose proof (NoDup_lookup _ _ _ _ Hnd' H2 H2'). lia.
  - exact Hrest.
  - intros x Hx Hx'. apply Hfrom in Hx'.
    apply in_concat in Hx as (l & Hl & Hxl).
    apply list_elem_of_In, list_elem_of_lookup in Hl as [s Hs].
    destruct (Hseat s l Hs) as (i & c1 & c2 & Hi & _ & H1 & H2 & ->).
    apply list_elem_of_In, list_elem_of_lookup in Hx' as [m Hm].
    rewrite lookup_drop in Hm.
    simpl in Hxl. destruct Hxl as [<-|[<-|[]]].
    + pose proof (NoDup_lookup _ _ _ _ Hnd' H1 Hm). lia.
    + pose proof (NoDup_lookup _ _ _ _ Hnd' H2 Hm). lia.
Qed.

End Cards.

(** ** Somebody is always in the hand *)

Lemma exists_max_seat (ps : list PlayerState) :
  ps <> [] ->
  exists i p, ps !! i = Some p /\
    forall j q, ps !! j = Some q -> committed q <= committed p.
Proof.
  induction ps as [|x ps IH]; intros Hne; [congruence|].
  destruct ps as [|y ps'].
  - exists 0%nat, x. split; [reflexivity|].
    intros [|j] q Hq; simpl in Hq; [injection Hq as <-; lia | discriminate].
  - destruct (IH ltac:(discriminate)) as (i & p & Hp & Hmax).
    destruct (Z.le_gt_cases (committed x) (committed p)) as [Hle|Hgt].
    + exists (S i), p. split; [exact Hp|].
      intros [|j] q Hq; simpl in Hq; [injection Hq as <-; lia | eauto].
    + exists 0%nat, x. split; [reflexivity|].
      intros [|j] q Hq; simpl in Hq; [injection Hq as <-; lia|].
      specialize (Hmax j q Hq). lia.
Qed.

Lemma leads_strip (s s' : Engine) (i : nat) :
  map strip (players s') = map strip (players s) -> leads s i -> leads s' i.
Proof.
  intros H (p & Hp & Hf & Hmax).
  assert (Hlook : forall j q, players s !! j = Some q ->
            exists q', players s' !! j = Some q' /\ strip q' = strip q).
  { intros j q Hq.
    assert (E : map strip (players s') !! j = Some (strip q))
      by now rewrite H, list_lookup_fmap, Hq.
    rewrite list_lookup_fmap in E. destruct (players s' !! j) as [q'|]; [|discriminate].
    exists q'. split; [reflexivity|].
    cbv [fmap option_fmap option_map] in E. congruence. }
  assert (Hback : forall j q', players s' !! j = Some q' ->
            exists q, players s !! j = Some q /\ strip q' = strip q).
  { intros j q' Hq'.
    assert (E : map strip (players s) !! j = Some (strip q'))
      by now rewrite <- H, list_lookup_fmap, Hq'.
    rewrite list_lookup_fmap in E. destruct (players s !! j) as [q|]; [|discriminate].
    exists q. split; [reflexivity|].
    cbv [fmap option_fmap option_map] in E. congruence. }
  destruct (Hlook i p Hp) as (p' & Hp' & Ep).
  exists p'. split; [exact Hp'|].
  split; [exact (eq_trans (f_equal is_folded Ep) Hf)|].
  intros j q' Hq'. destruct (Hback j q' Hq') as (q & Hq & Eq).
  rewrite (f_equal committed Eq : committed q' = committed q).
  rewrite (f_equal committed Ep : committed p' = committed p). eauto.
Qed.

Lemma posted_folded (idx : nat) (amount : Z) (label : string) (st : Engine) :
  map is_folded (players (posted idx amount label st)) = map is_folded (players st).
Proof.
  unfold posted. destruct (players st !! idx) as [p|] eqn:Hp; [|reflexivity].
  simpl. rewrite map_insert. apply list_insert_id.
  rewrite list_lookup_fmap, Hp. simpl. f_equal.
  unfold paid_seat. now destruct (_ =? 0).
Qed.

Lemma is_folded_bare (ps : list PlayerState) :
  map is_folded (map bare ps) = map is_folded ps.
Proof. rewrite map_map. now apply map_ext. Qed.

Lemma hand_dealt_unfolded (c1 c2 rest : list string) (st : Engine) (k j : nat)
    (q : PlayerState) :
  (forall i p, players st !! i = Some p -> is_folded p = false) ->
  players (set_current_actor_index k (hand_dealt c1 c2 rest st)) !! j = Some q ->
  is_folded q = false.
Proof.
  intros Hall Hq. unfold hand_dealt in Hq. simpl in Hq.
  assert (E : map is_folded
                (deal_cards ((button_index st + 1) mod length (players st))
                   (length (players st)) 0 c2
                   (deal_cards ((button_index st + 1) mod length (players st))
                      (length (players st)) 0 c1 (players (blinds_posted st))))
              = map is_folded (players st)).
  { rewrite <- is_folded_bare, !deal_cards_bare, is_folded_bare.
    unfold blinds_posted. now rewrite !posted_folded. }
  assert (E' : map is_folded (players st) !! j = Some (is_folded q))
    by now rewrite <- E, list_lookup_fmap, Hq.
  rewrite list_lookup_fmap in E'. destruct (players st !! j) as [p|] eqn:Hp;
    [|discriminate].
  cbv [fmap option_fmap option_map] in E'. injection E' as E'.
  rewrite <- E'. eauto.
Qed.

(** The seat in front after an action was booked: the acting seat if it
    caught up, the seat that led before otherwise. *)
Lemma seated_leads (e s : Engine) (action : string) (idx i : nat)
    (p q : PlayerState) (h pay : Z) :
  players s = <[idx := q]> (players e) ->
  leads e i -> players e !! idx = Some p ->
  py_max (map committed (players e)) = Ret h ->
  0 <= pay -> committed q = committed p + pay ->
  (action = "fold" -> is_folded q = true /\ pay = 0 /\ committed p < h) ->
  (action <> "fold" -> is_folded q = false) ->
  exists i', leads s i'.
Proof.
  intros Hs (pi & Hpi & Hfi & Hmax) Hp Hh Hpay Hc Hfold Hnot.
  assert (Hhi : h = committed pi).
  { apply py_max_spec in Hh.
    pose proof (max_committed_ge _ _ _ _ Hpi Hh) as Hle.
    destruct Hh as [Hin _]. apply in_map_iff in Hin as (x & <- & Hx).
    apply list_elem_of_In, list_elem_of_lookup in Hx as [j Hj].
    specialize (Hmax j x Hj). lia. }
  assert (Hlt : (idx < length (players e))%nat) by now apply lookup_lt_Some in Hp.
  assert (Hstay : idx <> i -> committed q <= committed pi -> exists i', leads s i').
  { intros Hne Hle. exists i, pi. rewrite Hs.
    split; [now rewrite list_lookup_insert_ne by auto|]. split; [exact Hfi|].
    intros j qj Hqj. destruct (Nat.eq_dec j idx) as [->|Hj].
    - rewrite list_lookup_insert_eq in Hqj by exact Hlt. now injection Hqj as <-.
    - rewrite list_lookup_insert_ne in Hqj by auto. eauto. }
  destruct (String.eqb_spec action "fold") as [->|Hact'].
  - destruct (Hfold eq_refl) as (_ & -> & Hless).
    apply Hstay; [|lia]. intros ->.
    assert (p = pi) as -> by congruence. lia.
  - destruct (Z.le_gt_cases (committed pi) (committed q)) as [Hle|Hgt].
    + exists idx, q. rewrite Hs.
      split; [now apply list_lookup_insert_eq|]. split; [now apply Hnot|].
      intros j qj Hqj. destruct (Nat.eq_dec j idx) as [->|Hj].
      * rewrite list_lookup_insert_eq in Hqj by exact Hlt.
        injection Hqj as <-. lia.
      * rewrite list_lookup_insert_ne in Hqj by auto.
        specialize (Hmax j qj Hqj). lia.
    + apply Hstay; [|lia]. intros ->.
      assert (p = pi) as -> by congruence. lia.
Qed.

Section Leader.

Variable evaluate : list string -> list string -> Z.
Variable rng_shuffle : string -> list string -> list string.

(** In every state of a hand a seat that has not folded holds the highest
    commitment: the seat that leads never gets to fold. *)
Lemma hand_leads (e0 e : Engine) :
  hand_state evaluate rng_shuffle e0 e -> exists i, leads e i.
Proof.
  induction 1 as [seed uuid info e1 Hstart|e e' pid action amount phv pot Hhand IH Hact].
  - destruct (start_hand_inv rng_shuffle seed uuid e0 e1 info Hstart)
      as (Hb & _ & _ & st0 & k & He1 & Hps & _).
    destruct (start_hand_cards rng_shuffle seed uuid e0 e1 info Hstart)
      as (_ & _ & Hlen & _).
    assert (Hne : players e1 <> []).
    { intros E. rewrite E in Hlen. simpl in Hlen. lia. }
    destruct (exists_max_seat _ Hne) as (i & p & Hp & Hmax).
    exists i, p. split; [exact Hp|]. split; [|exact Hmax].
    rewrite He1 in Hp. eapply hand_dealt_unfolded; [|exact Hp].
    intros j q Hq. rewrite Hps, list_lookup_fmap in Hq.
    destruct (players e0 !! j); [|discriminate]. now injection Hq as <-.
  - destruct IH as [i (pi & Hpi & Hfi & Hmax)].
    destruct (accepted_action_seat evaluate pid action amount e e' phv pot Hact)
      as (idx & p & q & h & pay & ph & _ & _ & _ & Hp & Hf & _ & Hh & Hpay & _ & Hc
          & _ & Hfold & Hnot & Hstrip & _).
    destruct (seated_leads e (set_players (<[idx := q]> (players e)) e)
                action idx i p q h pay eq_refl (ex_intro _ pi (conj Hpi (conj Hfi Hmax)))
                Hp Hh Hpay Hc Hfold Hnot) as [i' Hi'].
    exists i'.
    now apply (leads_strip (set_players (<[idx := q]> (players e)) e)).
Qed.

(** X21.  In every state of a hand a seat that has not folded holds the
    highest commitment: [fold] is only offered to a seat that is behind,
    so the seat in front never folds and the pot always has a taker. *)
Theorem leader_never_folds (e0 e : Engine) :
  hand_state evaluate rng_shuffle e0 e ->
  exists i p,
    players e !! i = Some p /\ is_folded p = false /\
    is_maximum (committed p) (map committed (players e)).
Proof.
  intros H. destruct (hand_leads e0 e H) as (i & p & Hp & Hf & Hmax).
  exists i, p. split; [exact Hp|]. split; [exact Hf|]. split.
  - apply in_map. apply list_elem_of_In, list_elem_of_lookup. eauto.
  - intros x Hx. apply in_map_iff in Hx as (q & <- & Hq).
    apply list_elem_of_In, list_elem_of_lookup in Hq as [j Hj]. eauto.
Qed.

Lemma round_complete_returns (st : Engine) :
  players st <> [] -> exists c, _is_betting_round_complete st = Ret c.
Proof.
  intros Hne. unfold _is_betting_round_complete.
  destruct (length _ =? 0)%nat; [eauto|].
  assert (Hnil : map committed (players st) <> [])
    by (destruct (players st); [congruence | discriminate]).
  destruct (py_max_nonempty _ Hnil) as [h ->]. simpl. eauto.
Qed.

(** With a seat in the hand and cards enough for the streets to come, the
    end of [apply_action] returns. *)
Lemma finish_action_returns (b : Engine) (ph : Phase) (i : nat) :
  phase b = Some ph -> is_street ph -> leads b i ->
  spec_run_out ph (community_cards b) (deck b) <> None ->
  exists r s2, finish_action evaluate b = (Ret r, s2).
Proof.
  intros Hph Hstreet (p & Hp & Hf & _) Hdeck.
  assert (Hne : players b <> []) by (intros E; rewrite E in Hp; discriminate).
  assert (Hin : exists x, In x (players b) /\ is_folded x = false).
  { exists p. split; [apply list_elem_of_In, list_elem_of_lookup; eauto | exact Hf]. }
  unfold finish_action.
  destruct (advance_turn_run b) as (k & Hrun & _).
  rewrite (bind_run _ _ _ _ _ Hrun).
  set (s1 := set_current_actor_index k b).
  destruct (round_complete_returns s1 Hne) as [c Hc].
  unfold bind at 1, read. rewrite Hc.
  assert (Htail : forall s x, phase s = Some x ->
            exists r s2,
              (st <- get ;;
               match phase st with
               | None => raise AttributeError
               | Some ph0 => ret (RespOk (Phase_value ph0) (total_pot st))
               end) s = (Ret r, s2)).
  { intros s x Hx. unfold bind, get. rewrite Hx. unfold ret. eauto. }
  destruct c.
  - assert (Hadv : exists s3 x, _advance_phase evaluate s1 = (Ret tt, s3) /\
                                phase s3 = Some x).
    { destruct (street_cases _ Hstreet) as [->|Hearly].
      - rewrite (advance_river evaluate s1 Hph).
        destruct (showdown_returns evaluate (set_phase (Some SHOWDOWN) s1) Hin)
          as (s6 & _ & -> & _).
        eexists _, COMPLETED. split; reflexivity.
      - destruct (length (List.filter can_act (players b)) =? 0)%nat eqn:Hact.
        + pose proof (advance_fast evaluate s1 ph Hph Hstreet Hact) as Hfast.
          change (community_cards s1) with (community_cards b) in Hfast.
          change (deck s1) with (deck b) in Hfast.
          destruct (spec_run_out ph (community_cards b) (deck b))
            as [[[phx cc] dk]|]; [|congruence].
          rewrite Hfast.
          destruct (showdown_returns evaluate (with_board SHOWDOWN cc dk s1) Hin)
            as (s6 & _ & -> & _).
          eexists _, COMPLETED. split; reflexivity.
        + pose proof (advance_first evaluate s1 ph Hph Hearly) as Hfirst.
          change (players s1) with (players b) in Hfirst. rewrite Hact in Hfirst.
          change (community_cards s1) with (community_cards b) in Hfirst.
          change (deck s1) with (deck b) in Hfirst.
          unfold spec_run_out in Hdeck.
          destruct (streets_left ph) as [|m] eqn:Hleft;
            [destruct Hearly as [->|[->| ->]]; discriminate|].
          rewrite spec_path_S in Hdeck.
          destruct (spec_enter ph (community_cards b) (deck b))
            as [[[ph' cc] dk]|]; [|congruence].
          rewrite Hfirst. eexists _, ph'. split; reflexivity. }
    destruct Hadv as (s3 & x & Hadv & Hx).
    rewrite (bind_run _ _ _ _ _ Hadv). now apply (Htail s3 x).
  - unfold bind at 1, ret at 1. now apply (Htail s1 ph).
Qed.

Lemma spec_path_returns (d : list string) :
  (8 <= length d)%nat -> spec_path 4 PRE_FLOP [] d <> None.
Proof.
  intros H.
  destruct d as [|x1 [|x2 [|x3 [|x4 [|x5 [|x6 [|x7 [|x8 d]]]]]]]];
    simpl in H; try lia.
  discriminate.
Qed.

(** X22.  At a table of 22 seats at most, whose shuffle keeps the 52
    cards of the deck, the deck never runs out and the showdown always
    finds a seat: in every state of a hand, a call of [apply_action] in
    the name of a seat of the table returns an answer, whatever the
    action and the amount (the evaluator being a total function of the
    cards). *)
Theorem hand_calls_return (e0 e : Engine) (pid action : string) (amount : Z)
    (idx : nat) :
  (forall sd, length (rng_shuffle sd standard_deck) = 52%nat) ->
  (length (players e0) <= 22)%nat ->
  hand_state evaluate rng_shuffle e0 e ->
  find_player_index pid e = Ret idx ->
  exists r e', apply_action evaluate pid action amount e = (Ret r, e').
Proof.
  intros Hdeck Hseats Hhand Hfind.
  destruct (apply_action_shape evaluate pid action amount e)
    as [(msg & E) | [(_ & E) | (idx' & p & h & ph & Hph & Hne & _ & Hp & Hfp & _
                               & Hmax & Hoff & Hamt & E)]];
    [eauto | congruence |].
  rewrite E.
  destruct (hand_state_invariant evaluate rng_shuffle e0 e Hhand) as (Hplay & _).
  pose proof (in_play_not_completed e ph Hplay Hph Hne) as Hstreet.
  destruct (hand_board evaluate rng_shuffle e0 e Hhand)
    as (sd & ph' & _ & Hph' & _ & Hpath).
  assert (ph' = ph) as -> by congruence.
  assert (Hshown : shown ph = ph)
    by (unfold is_street in Hstreet; destruct ph; simpl in *; auto; lia).
  rewrite Hshown in Hpath.
  assert (Hrun : spec_run_out ph (community_cards e) (deck e) <> None).
  { unfold spec_run_out.
    rewrite <- (spec_path_app _ (streets_left ph) _ _ _ _ _ _ Hpath).
    replace (streets_done ph + streets_left ph)%nat with 4%nat
      by (unfold is_street in Hstreet; destruct ph; simpl in *; lia).
    apply spec_path_returns. rewrite length_drop, Hdeck. lia. }
  destruct (hand_leads e0 e Hhand) as [i Hi].
  destruct (acted_seat_facts p action amount h Hoff Hamt)
    as (Hpay & _ & Hc & _ & _ & _ & Hfold & Hnot).
  destruct (seated_leads e
              (booked idx'
                 (acted_seat p action (payment p action amount (h - committed p)))
                 (payment p action amount (h - committed p))
                 (mkAction pid action (payment p action amount (h - committed p))) e)
              action idx' i p _ h _ eq_refl Hi Hp Hmax Hpay Hc Hfold
              ltac:(intros Hn; rewrite (Hnot Hn); assumption)) as [i' Hi'].
  now apply (finish_action_returns _ ph i').
Qed.

End Leader.

(** ** The view of a seat *)

Lemma canonical_state_for_inv (pid : string) (st : Engine) (v : CanonicalState) :
  canonical_state_for pid st = Ret v ->
  cs_deck_seed v = deck_seed st /\
  cs_players v = map player_view (players st) /\
  cs_community_cards v = community_cards st /\
  cs_phase v = option_map Phase_value (phase st).
Proof.
  unfold canonical_state_for.
  destruct (find_player_index pid st) as [idx|]; simpl; [|discriminate].
  destruct (index (players st) idx) as [p|]; simpl; [|discriminate].
  destruct (match phase st with
            | Some COMPLETED | None => Ret None
            | Some _ => _
            end) as [a|]; simpl; [|discriminate].
  intros [= <-]. repeat split.
Qed.

Section Views.

Variable evaluate : list string -> list string -> Z.
Variable rng_shuffle : string -> list string -> list string.

(** X23.  In every state of a hand [canonical_state_for] returns the view
    of any seated identifier, with the cards of the first seat of that
    identifier.  The view names a seat to act exactly when the hand is
    not completed; it is the seat under the turn pointer, and that seat
    can act whenever any seat can. *)
Theorem view_in_hand (e0 e : Engine) (pid : string) (idx : nat) :
  hand_state evaluate rng_shuffle e0 e ->
  find_player_index pid e = Ret idx ->
  exists v p,
    canonical_state_for pid e = Ret v /\
    players e !! idx = Some p /\ cs_your_hole_cards v = hole_cards p /\
    cs_total_pot v = total_pot e /\
    match cs_to_act_player_id v with
    | None => phase e = Some COMPLETED
    | Some a =>
        phase e <> Some COMPLETED /\
        exists q, players e !! current_actor_index e = Some q /\ player_id q = a /\
                  ((exists i, seat_can_act e i = true) -> can_act q = true)
    end.
Proof.
  intros Hhand Hfind.
  destruct (find_player_index_lookup _ _ _ Hfind) as (p & Hp & _).
  destruct (hand_turn evaluate rng_shuffle e0 e Hhand) as [Hlt Hable].
  destruct (lookup_lt_is_Some_2 _ _ Hlt) as [q Hq].
  destruct (hand_state_invariant evaluate rng_shuffle e0 e Hhand)
    as ((ph & Hph & Hkind) & _).
  unfold canonical_state_for. rewrite Hfind. simpl.
  unfold index. rewrite Hp, Hq, Hph. simpl.
  destruct Hkind as [Hstreet | [-> _]].
  - assert (Hne : ph <> COMPLETED)
      by (intros ->; unfold is_street in Hstreet; simpl in Hstreet; lia).
    assert (Hact : (exists i, seat_can_act e i = true) -> can_act q = true).
    { intros Hsome. specialize (Hable Hsome). unfold seat_can_act in Hable.
      now rewrite Hq in Hable. }
    destruct ph; try congruence; simpl;
      (eexists _, p; repeat (split; [reflexivity|]); simpl;
       split; [congruence | exists q; auto]).
  - simpl. eexists _, p. repeat (split; [reflexivity|]). reflexivity.
Qed.

(** X24.  The view discloses the seed, and the seed fixes every card: two
    states of hands started with the button on the same seat whose views
    show the same seed and the same number of seats hold the same hole
    cards, seat by seat, and in the same phase the same community cards
    and the same deck. *)
Theorem view_fixes_cards (e0 e e0' e' : Engine) (pid pid' : string)
    (v v' : CanonicalState) :
  hand_state evaluate rng_shuffle e0 e ->
  hand_state evaluate rng_shuffle e0' e' ->
  button_index e0 = button_index e0' ->
  canonical_state_for pid e = Ret v ->
  canonical_state_for pid' e' = Ret v' ->
  cs_deck_seed v = cs_deck_seed v' ->
  length (cs_players v) = length (cs_players v') ->
  map hole_cards (players e) = map hole_cards (players e') /\
  (phase e = phase e' ->
   community_cards e = community_cards e' /\ deck e = deck e').
Proof.
  intros Hhand Hhand' Hbtn Hv Hv' Hseed Hcount.
  destruct (canonical_state_for_inv _ _ _ Hv) as (Hs & Hps & _).
  destruct (canonical_state_for_inv _ _ _ Hv') as (Hs' & Hps' & _).
  rewrite Hs, Hs' in Hseed. rewrite Hps, Hps', !length_map in Hcount.
  destruct (hand_cards evaluate rng_shuffle e0 e Hhand)
    as (sd & Hsd & Hn & _ & Hlen & Hcards).
  destruct (hand_cards evaluate rng_shuffle e0' e' Hhand')
    as (sd' & Hsd' & _ & _ & Hlen' & Hcards').
  assert (sd' = sd) as -> by congruence.
  assert (Hsame : length (players e0') = length (players e0)) by congruence.
  rewrite Hsame, <- Hbtn in Hcards'. split.
  - apply list_eq. intros s.
    destruct (Nat.lt_ge_cases s (length (players e0))) as [Hlt|Hge].
    + destruct (mod_reach0 _ (button_index e0 + 1) s Hlt) as (i & Hi & <-).
      destruct (Hcards i Hi) as (c1 & c2 & H1 & H2 & ->).
      destruct (Hcards' i Hi) as (c1' & c2' & H1' & H2' & ->).
      congruence.
    + rewrite !(proj2 (lookup_ge_None _ _)); [reflexivity | |];
        rewrite length_map; lia.
  - intros Hph.
    destruct (hand_board evaluate rng_shuffle e0 e Hhand)
      as (sd1 & ph & Hsd1 & Hph1 & _ & Hpath).
    destruct (hand_board evaluate rng_shuffle e0' e' Hhand')
      as (sd2 & ph' & Hsd2 & Hph2 & _ & Hpath').
    assert (sd1 = sd) as -> by congruence.
    assert (sd2 = sd) as -> by congruence.
    assert (ph' = ph) as -> by congruence.
    rewrite Hsame, Hpath in Hpath'. now injection Hpath' as -> ->.
Qed.

End Views.
(** * More worked hands *)

Lemma table2_called_reached :
  hand_state level_evaluate no_shuffle table2 table2_called.
Proof.
  eapply hand_acted; [|exact table2_called_run].
  exact table2_started_reached.
Qed.

Lemma table2_checked_run :
  apply_action level_evaluate "B" "check" 0 table2_called
  = (Ret (RespOk "turn" 20), table2_checked).
Proof. vm_compute. reflexivity. Qed.

Lemma standard_deck_NoDup : List.NoDup standard_deck.
Proof.
  apply NoDup_ListNoDup. apply (bool_decide_unpack _). vm_compute. reflexivity.
Qed.

(** The big blind of the two-seat table. *)
Lemma find_player_index_round_trip_witness :
  (List.NoDup (map player_id (players table2_started))) /\
  (players table2_started !! 1%nat = Some (seat_at 1 table2_started)) /\
  (find_player_index (player_id (seat_at 1 table2_started)) table2_started = Ret 1%nat).
Proof.
  assert (H1 : List.NoDup (map player_id (players table2_started))).
  { simpl. repeat constructor; simpl; intuition discriminate. }
  assert (H2 : players table2_started !! 1%nat = Some (seat_at 1 table2_started)).
  { reflexivity. }
  do 2 (split; [assumption|]).
  exact (find_player_index_round_trip table2_started 1%nat (seat_at 1 table2_started) H1 H2).
Defined.

(** Two seats that the blinds have put all-in. *)
Lemma hand_without_actors_witness :
  (phase table_broke_started = Some PRE_FLOP) /\
  (PRE_FLOP <> COMPLETED) /\
  ((forall p, In p (players table_broke_started) -> ~ (is_folded p = false /\ is_all_in p = false))) /\
  (_advance_turn table_broke_started = (Ret tt, table_broke_started) /\
  forall pid action amount,
    (apply_action level_evaluate pid action amount table_broke_started
     = (Ret (RespError "Player cannot act"), table_broke_started) /\
     legal_actions pid table_broke_started = Ret []) \/
    (apply_action level_evaluate pid action amount table_broke_started = (Raise (KeyError pid), table_broke_started) /\
     legal_actions pid table_broke_started = Raise (KeyError pid))).
Proof.
  assert (H1 : phase table_broke_started = Some PRE_FLOP).
  { reflexivity. }
  assert (H2 : PRE_FLOP <> COMPLETED).
  { discriminate. }
  assert (H3 : (forall p, In p (players table_broke_started) -> ~ (is_folded p = false /\ is_all_in p = false))).
  { intros p [Hp|[Hp|[]]]; subst p; simpl; intros [_ Hp]; discriminate Hp. }
  do 3 (split; [assumption|]).
  exact (hand_without_actors level_evaluate table_broke_started PRE_FLOP H1 H2 H3).
Defined.

(** The two-seat table after the blinds. *)
Lemma actor_can_act_witness :
  (hand_state level_evaluate no_shuffle table2 table2_started) /\
  ((current_actor_index table2_started < length (players table2_started))%nat /\
  ((exists i, seat_can_act table2_started i = true) ->
   seat_can_act table2_started (current_actor_index table2_started) = true)).
Proof.
  assert (H1 : hand_state level_evaluate no_shuffle table2 table2_started).
  { exact table2_started_reached. }
  do 1 (split; [assumption|]).
  exact (actor_can_act level_evaluate no_shuffle table2 table2_started H1).
Defined.

(** The small blind calls and the flop comes. *)
Lemma acted_hand_goes_on_witness :
  (hand_state level_evaluate no_shuffle table2 table2_started) /\
  (apply_action level_evaluate "A" "call" 0 table2_started = (Ret (RespOk "flop" 20), table2_called)) /\
  (phase table2_called = Some COMPLETED \/ seat_can_act table2_called (current_actor_index table2_called) = true).
Proof.
  assert (H1 : hand_state level_evaluate no_shuffle table2 table2_started).
  { exact table2_started_reached. }
  assert (H2 : apply_action level_evaluate "A" "call" 0 table2_started = (Ret (RespOk "flop" 20), table2_called)).
  { exact table2_called_run. }
  do 2 (split; [assumption|]).
  exact (acted_hand_goes_on level_evaluate no_shuffle table2 table2_started table2_called "A" "call" 0 "flop" 20 H1 H2).
Defined.


(** The small blind, facing the big blind, falls back on a fold. *)
Lemma fallback_decision_legal_witness :
  (phase table2_started = Some PRE_FLOP) /\
  (PRE_FLOP <> COMPLETED) /\
  (find_player_index "A" table2_started = Ret 0%nat) /\
  (players table2_started !! 0%nat = Some (seat_at 0 table2_started)) /\
  (is_folded (seat_at 0 table2_started) = false) /\
  (is_all_in (seat_at 0 table2_started) = false) /\
  (legal_actions "A" table2_started = Ret ["fold"; "call"; "raise"; "allin"]) /\
  (snd (fallback_decision ["fold"; "call"; "raise"; "allin"]) = 0 /\
  In (fst (fallback_decision ["fold"; "call"; "raise"; "allin"])) ["fold"; "call"; "raise"; "allin"] /\
  forall r st',
    apply_action level_evaluate "A" (fst (fallback_decision ["fold"; "call"; "raise"; "allin"]))
      (snd (fallback_decision ["fold"; "call"; "raise"; "allin"])) table2_started = (r, st') ->
    forall msg, r <> Ret (RespError msg)).
Proof.
  assert (H1 : phase table2_started = Some PRE_FLOP).
  { reflexivity. }
  assert (H2 : PRE_FLOP <> COMPLETED).
  { discriminate. }
  assert (H3 : find_player_index "A" table2_started = Ret 0%nat).
  { reflexivity. }
  assert (H4 : players table2_started !! 0%nat = Some (seat_at 0 table2_started)).
  { reflexivity. }
  assert (H5 : is_folded (seat_at 0 table2_started) = false).
  { reflexivity. }
  assert (H6 : is_all_in (seat_at 0 table2_started) = false).
  { reflexivity. }
  assert (H7 : legal_actions "A" table2_started = Ret ["fold"; "call"; "raise"; "allin"]).
  { reflexivity. }
  do 7 (split; [assumption|]).
  exact (fallback_decision_legal level_evaluate "A" table2_started PRE_FLOP 0%nat (seat_at 0 table2_started) ["fold"; "call"; "raise"; "allin"] H1 H2 H3 H4 H5 H6 H7).
Defined.


(** The two-seat table on the flop: 10 chips from each seat. *)
Lemma pot_is_committed_witness :
  (hand_state level_evaluate no_shuffle table2 table2_called) /\
  (sum_logged table2_called = sum_committed table2_called /\
  (phase table2_called <> Some COMPLETED -> total_pot table2_called = sum_committed table2_called)).
Proof.
  assert (H1 : hand_state level_evaluate no_shuffle table2 table2_called).
  { exact table2_called_reached. }
  do 1 (split; [assumption|]).
  exact (pot_is_committed level_evaluate no_shuffle table2 table2_called H1).
Defined.

(** The two-seat table, dealt from the deck in factory order. *)
Lemma start_hand_deals_witness :
  (start_hand no_shuffle (Some "seed") "uuid" table2 = (Ret ("hand-1", "seed"), table2_started)) /\
  (let n := length (players table2) in
  let deck0 := no_shuffle (chosen_seed (Some "seed") "uuid") standard_deck in
  deck table2_started = drop (2 * n) deck0 /\ community_cards table2_started = [] /\
  length (players table2_started) = n /\
  forall i, (i < n)%nat ->
    exists p c1 c2,
      players table2_started !! ((button_index table2 + 1 + i) mod n)%nat = Some p /\
      deck0 !! i = Some c1 /\ deck0 !! (n + i)%nat = Some c2 /\
      hole_cards p = [c1; c2]).
Proof.
  assert (H1 : start_hand no_shuffle (Some "seed") "uuid" table2 = (Ret ("hand-1", "seed"), table2_started)).
  { exact table2_started_run. }
  do 1 (split; [assumption|]).
  exact (start_hand_deals no_shuffle (Some "seed") "uuid" table2 table2_started ("hand-1", "seed") H1).
Defined.

(** The two-seat table: seat A on the button posts 5, seat B posts 10. *)
Lemma start_hand_blinds_witness :
  (start_hand no_shuffle (Some "seed") "uuid" table2 = (Ret ("hand-1", "seed"), table2_started)) /\
  ((2 <= length (players table2))%nat) /\
  (exists pb pbb,
    players table2 !! button_index table2 = Some pb /\
    players table2 !! ((button_index table2 + 1) mod length (players table2))%nat = Some pbb /\
    total_pot table2_started
    = Z.min (stack pb) (small_blind table2) + Z.min (stack pbb) (big_blind table2) /\
    actions table2_started
    = [mkAction (player_id pb) "post_sb" (Z.min (stack pb) (small_blind table2));
       mkAction (player_id pbb) "post_bb" (Z.min (stack pbb) (big_blind table2))] /\
    forall j p0,
      players table2 !! j = Some p0 ->
      exists q,
        players table2_started !! j = Some q /\
        player_id q = player_id p0 /\ seat q = seat p0 /\ is_folded q = false /\
        match blind_due table2 j with
        | Some b =>
            stack q = stack p0 - Z.min (stack p0) b /\
            committed q = Z.min (stack p0) b /\
            is_all_in q = (stack p0 - Z.min (stack p0) b =? 0)
        | None => stack q = stack p0 /\ committed q = 0 /\ is_all_in q = false
        end).
Proof.
  assert (H1 : start_hand no_shuffle (Some "seed") "uuid" table2 = (Ret ("hand-1", "seed"), table2_started)).
  { exact table2_started_run. }
  assert (H2 : (2 <= length (players table2))%nat).
  { simpl. lia. }
  do 2 (split; [assumption|]).
  exact (start_hand_blinds no_shuffle (Some "seed") "uuid" table2 table2_started ("hand-1", "seed") H1 H2).
Defined.

(** One check on the flop, and the turn card comes. *)
Lemma check_closes_level_round_witness :
  (phase table2_called = Some FLOP) /\
  (is_street FLOP) /\
  (_is_betting_round_complete table2_called = Ret true) /\
  (apply_action level_evaluate "B" "check" 0 table2_called = (Ret (RespOk "turn" 20), table2_checked)) /\
  (phase table2_checked = Some COMPLETED \/
  exists ph' cc dk,
    spec_enter FLOP (community_cards table2_called) (deck table2_called) = Some (ph', cc, dk) /\
    board table2_checked = (Some ph', cc, dk)).
Proof.
  assert (H1 : phase table2_called = Some FLOP).
  { reflexivity. }
  assert (H2 : is_street FLOP).
  { unfold is_street. simpl. lia. }
  assert (H3 : _is_betting_round_complete table2_called = Ret true).
  { reflexivity. }
  assert (H4 : apply_action level_evaluate "B" "check" 0 table2_called = (Ret (RespOk "turn" 20), table2_checked)).
  { exact table2_checked_run. }
  do 4 (split; [assumption|]).
  exact (check_closes_level_round level_evaluate "B" 0 table2_called table2_checked FLOP "turn" 20 H1 H2 H3 H4).
Defined.

(** The flop after the call of the small blind. *)
Lemma new_street_is_level_witness :
  (phase table2_started = Some PRE_FLOP) /\
  (is_street PRE_FLOP) /\
  (apply_action level_evaluate "A" "call" 0 table2_started = (Ret (RespOk "flop" 20), table2_called)) /\
  (phase table2_called <> Some PRE_FLOP) /\
  (phase table2_called <> Some COMPLETED) /\
  (_is_betting_round_complete table2_called = Ret true).
Proof.
  assert (H1 : phase table2_started = Some PRE_FLOP).
  { reflexivity. }
  assert (H2 : is_street PRE_FLOP).
  { unfold is_street. simpl. lia. }
  assert (H3 : apply_action level_evaluate "A" "call" 0 table2_started = (Ret (RespOk "flop" 20), table2_called)).
  { exact table2_called_run. }
  assert (H4 : phase table2_called <> Some PRE_FLOP).
  { discriminate. }
  assert (H5 : phase table2_called <> Some COMPLETED).
  { discriminate. }
  do 5 (split; [assumption|]).
  exact (new_street_is_level level_evaluate "A" "call" 0 table2_started table2_called PRE_FLOP "flop" 20 H1 H2 H3 H4 H5).
Defined.

(** Three seats at the showdown, two of them folded. *)
Lemma lone_seat_takes_pot_witness :
  (players table_lone !! 1%nat = Some (seat_at 1 table_lone)) /\
  (is_folded (seat_at 1 table_lone) = false) /\
  ((forall j q, players table_lone !! j = Some q -> is_folded q = false -> j = 1%nat)) /\
  (exists st',
    (forall evaluate, evaluate_and_distribute evaluate table_lone = (Ret tt, st')) /\
    players st' = <[1%nat := set_stack (stack (seat_at 1 table_lone) + total_pot table_lone) (seat_at 1 table_lone)]> (players table_lone) /\
    total_pot st' = 0 /\
    pot_history st' = pot_history table_lone ++ [PotWinner (player_id (seat_at 1 table_lone)) (total_pot table_lone)] /\
    phase st' = phase table_lone /\ community_cards st' = community_cards table_lone /\
    deck st' = deck table_lone /\ actions st' = actions table_lone).
Proof.
  assert (H1 : players table_lone !! 1%nat = Some (seat_at 1 table_lone)).
  { reflexivity. }
  assert (H2 : is_folded (seat_at 1 table_lone) = false).
  { reflexivity. }
  assert (H3 : (forall j q, players table_lone !! j = Some q -> is_folded q = false -> j = 1%nat)).
  { intros [|[|[|j]]] q Hq Hf; simpl in Hq; try discriminate Hq; try reflexivity; injection Hq as <-; discriminate Hf. }
  do 3 (split; [assumption|]).
  exact (lone_seat_takes_pot table_lone 1%nat (seat_at 1 table_lone) H1 H2 H3).
Defined.

(** The hand of two all-ins, run out to the river. *)
Lemma board_from_seed_witness :
  (hand_state level_evaluate no_shuffle table2 table2_run_out) /\
  (exists sd ph,
    deck_seed table2_run_out = Some sd /\ phase table2_run_out = Some ph /\
    spec_path (streets_done ph) PRE_FLOP []
      (drop (2 * length (players table2)) (no_shuffle sd standard_deck))
    = Some (shown ph, community_cards table2_run_out, deck table2_run_out)).
Proof.
  assert (H1 : hand_state level_evaluate no_shuffle table2 table2_run_out).
  { exact table2_run_out_reached. }
  do 1 (split; [assumption|]).
  exact (board_from_seed level_evaluate no_shuffle table2 table2_run_out H1).
Defined.

(** The hand of two all-ins, completed with five cards on the board. *)
Lemma board_by_phase_witness :
  (hand_state level_evaluate no_shuffle table2 table2_run_out) /\
  (phase table2_run_out = Some COMPLETED) /\
  (length (community_cards table2_run_out) = board_size COMPLETED).
Proof.
  assert (H1 : hand_state level_evaluate no_shuffle table2 table2_run_out).
  { exact table2_run_out_reached. }
  assert (H2 : phase table2_run_out = Some COMPLETED).
  { reflexivity. }
  do 2 (split; [assumption|]).
  exact (board_by_phase level_evaluate no_shuffle table2 table2_run_out COMPLETED H1 H2).
Defined.

(** The two-seat table on the flop, dealt from the deck in factory order. *)
Lemma no_card_twice_witness :
  ((forall sd, List.NoDup (no_shuffle sd standard_deck))) /\
  (hand_state level_evaluate no_shuffle table2 table2_called) /\
  (List.NoDup (cards_in_play table2_called)).
Proof.
  assert (H1 : (forall sd, List.NoDup (no_shuffle sd standard_deck))).
  { intros sd. exact standard_deck_NoDup. }
  assert (H2 : hand_state level_evaluate no_shuffle table2 table2_called).
  { exact table2_called_reached. }
  do 2 (split; [assumption|]).
  exact (no_card_twice level_evaluate no_shuffle table2 table2_called H1 H2).
Defined.

(** The two-seat table on the flop. *)
Lemma leader_never_folds_witness :
  (hand_state level_evaluate no_shuffle table2 table2_called) /\
  (exists i p,
    players table2_called !! i = Some p /\ is_folded p = false /\
    is_maximum (committed p) (map committed (players table2_called))).
Proof.
  assert (H1 : hand_state level_evaluate no_shuffle table2 table2_called).
  { exact table2_called_reached. }
  do 1 (split; [assumption|]).
  exact (leader_never_folds level_evaluate no_shuffle table2 table2_called H1).
Defined.

(** The small blind raises at the two-seat table. *)
Lemma hand_calls_return_witness :
  ((forall sd, length (no_shuffle sd standard_deck) = 52%nat)) /\
  ((length (players table2) <= 22)%nat) /\
  (hand_state level_evaluate no_shuffle table2 table2_started) /\
  (find_player_index "A" table2_started = Ret 0%nat) /\
  (exists r e', apply_action level_evaluate "A" "raise" 20 table2_started = (Ret r, e')).
Proof.
  assert (H1 : (forall sd, length (no_shuffle sd standard_deck) = 52%nat)).
  { intros sd. reflexivity. }
  assert (H2 : (length (players table2) <= 22)%nat).
  { simpl. lia. }
  assert (H3 : hand_state level_evaluate no_shuffle table2 table2_started).
  { exact table2_started_reached. }
  assert (H4 : find_player_index "A" table2_started = Ret 0%nat).
  { reflexivity. }
  do 4 (split; [assumption|]).
  exact (hand_calls_return level_evaluate no_shuffle table2 table2_started "A" "raise" 20 0%nat H1 H2 H3 H4).
Defined.
(** The view of the small blind after the blinds. *)
Lemma view_in_hand_witness :
  (hand_state level_evaluate no_shuffle table2 table2_started) /\
  (find_player_index "A" table2_started = Ret 0%nat) /\
  (exists v p,
    canonical_state_for "A" table2_started = Ret v /\
    players table2_started !! 0%nat = Some p /\ cs_your_hole_cards v = hole_cards p /\
    cs_total_pot v = total_pot table2_started /\
    match cs_to_act_player_id v with
    | None => phase table2_started = Some COMPLETED
    | Some a =>
        phase table2_started <> Some COMPLETED /\
        exists q, players table2_started !! current_actor_index table2_started = Some q /\ player_id q = a /\
                  ((exists i, seat_can_act table2_started i = true) -> can_act q = true)
    end).
Proof.
  assert (H1 : hand_state level_evaluate no_shuffle table2 table2_started).
  { exact table2_started_reached. }
  assert (H2 : find_player_index "A" table2_started = Ret 0%nat).
  { reflexivity. }
  do 2 (split; [assumption|]).
  exact (view_in_hand level_evaluate no_shuffle table2 table2_started "A" 0%nat H1 H2).
Defined.

(** The view of seat A before the flop and the view of seat B on the flop of the same hand. *)
Lemma view_fixes_cards_witness :
  (hand_state level_evaluate no_shuffle table2 table2_started) /\
  (hand_state level_evaluate no_shuffle table2 table2_called) /\
  (button_index table2 = button_index table2) /\
  (canonical_state_for "A" table2_started = Ret (view_of "A" table2_started)) /\
  (canonical_state_for "B" table2_called = Ret (view_of "B" table2_called)) /\
  (cs_deck_seed (view_of "A" table2_started) = cs_deck_seed (view_of "B" table2_called)) /\
  (length (cs_players (view_of "A" table2_started)) = length (cs_players (view_of "B" table2_called))) /\
  (map hole_cards (players table2_started) = map hole_cards (players table2_called) /\
  (phase table2_started = phase table2_called ->
   community_cards table2_started = community_cards table2_called /\ deck table2_started = deck table2_called)).
Proof.
  assert (H1 : hand_state level_evaluate no_shuffle table2 table2_started).
  { exact table2_started_reached. }
  assert (H2 : hand_state level_evaluate no_shuffle table2 table2_called).
  { exact table2_called_reached. }
  assert (H3 : button_index table2 = button_index table2).
  { reflexivity. }
  assert (H4 : canonical_state_for "A" table2_started = Ret (view_of "A" table2_started)).
  { reflexivity. }
  assert (H5 : canonical_state_for "B" table2_called = Ret (view_of "B" table2_called)).
  { reflexivity. }
  assert (H6 : cs_deck_seed (view_of "A" table2_started) = cs_deck_seed (view_of "B" table2_called)).
  { reflexivity. }
  assert (H7 : length (cs_players (view_of "A" table2_started)) = length (cs_players (view_of "B" table2_called))).
  { reflexivity. }
  do 7 (split; [assumption|]).
  exact (view_fixes_cards level_evaluate no_shuffle table2 table2_started table2 table2_called "A" "B" (view_of "A" table2_started) (view_of "B" table2_called) H1 H2 H3 H4 H5 H6 H7).
Defined.

